(** * spaCy [_ml.py]: a shallow embedding of the model-construction helpers

    The development follows [src/spacy/_ml.py].  Python exceptions are an
    explicit [result] type, in-place updates of arrays and of the parameter
    store are explicit state passing, and the pseudo-random generator of numpy
    is an explicit generator state threaded through every draw.

    Numbers.  [cosine] is modelled on binary64 floats (Rocq's primitive
    floats), because its only test is a comparison of a computed norm with
    [0.0].  The array code (PrecomputableAffine, get_col, the masked language
    model) is polymorphic in a [Scalar]: a type with [0], [1], [+] and [*]
    obeying the laws of exact arithmetic, instantiated at [Z] to run examples
    and at [R] for the real numbers.  Rounding, infinities and NaN of dtype
    "f" are outside that model. *)

From Stdlib Require Import ZArith QArith Reals Lra Lia PrimFloat.
From stdpp Require Import base list gmap strings.

Set Default Proof Using "Type".
Set Warnings "-abstract-large-number".

(** ** Exceptions *)

(** The messages this file takes from the error catalog ([.errors.Errors]);
    [E066] is formatted with the offending value. *)
Inductive catalog_message : Type :=
  | E066 (value : Z).

Inductive exn : Type :=
  | IndexError (msg : option catalog_message)  (* [None]: raised by numpy itself *)
  | ValueError                                 (* numpy: shapes do not agree *)
  | AxisError                                  (* numpy: no such axis *)
  | TypeError.                                 (* [len()] of an unsized object *)

Inductive result (A : Type) : Type :=
  | Ok (a : A)
  | Raise (e : exn).
Arguments Ok {A} a.
Arguments Raise {A} e.

Definition bind {A B} (m : result A) (k : A → result B) : result B :=
  match m with
  | Ok a => k a
  | Raise e => Raise e
  end.

Notation "x <- m ;; k" := (bind m (λ x, k))
  (at level 20, m at level 99, k at level 200, right associativity,
   format "'[' x  <-  m ;;  '/' k ']'").
Notation "' p <- m ;; k" := (bind m (λ x, match x with p => k end))
  (at level 20, p pattern, m at level 99, k at level 200, right associativity,
   format "'[' ' p  <-  m ;;  '/' k ']'").

(** [[f(x) for x in l]] where [f] may raise. *)
Fixpoint map_result {A B} (f : A → result B) (l : list A) : result (list B) :=
  match l with
  | [] => Ok []
  | x :: l => y <- f x;; ys <- map_result f l;; Ok (y :: ys)
  end.

(** ** [cosine] *)

(** A Python number: [cosine] returns the int [0] on one path and a float on
    the other. *)
Inductive pynum : Type :=
  | PyInt (z : Z)
  | PyFloat (f : float).

(** The sum that [vec1.dot(vec2)] accumulates over two 1-D arrays. *)
Definition dot_sum (a b : list float) : float :=
  foldl (λ acc p, (acc + p.1 * p.2)%float) 0%float (zip a b).

(** [vec1.dot(vec2)]: numpy raises ValueError when the lengths differ. *)
Definition dot (a b : list float) : result float :=
  if decide (length a = length b) then Ok (dot_sum a b) else Raise ValueError.

(** [xp.linalg.norm(v)] of a 1-D real array is [sqrt(v.dot(v))]. *)
Definition linalg_norm (v : list float) : float := PrimFloat.sqrt (dot_sum v v).

Definition cosine (vec1 vec2 : list float) : result pynum :=
  let norm1 := linalg_norm vec1 in
  let norm2 := linalg_norm vec2 in
  if (norm1 =? 0)%float || (norm2 =? 0)%float then Ok (PyInt 0)
  else d <- dot vec1 vec2;; Ok (PyFloat (d / (norm1 * norm2))%float).

(** [numpy.zeros(n)] as a vector of floats. *)
Definition float_zeros (n : nat) : list float := replicate n 0%float.

(** ** Scalars: the entries of numeric arrays *)

(** Exact arithmetic on array entries.  The laws are those the proofs use;
    [Z], [nat] and [R] satisfy them. *)
Class Scalar (A : Type) : Type := {
  s0 : A;
  s1 : A;
  sadd : A → A → A;
  smul : A → A → A;
  sadd_0_l : ∀ x, sadd s0 x = x;
  sadd_0_r : ∀ x, sadd x s0 = x;
  sadd_assoc : ∀ x y z, sadd x (sadd y z) = sadd (sadd x y) z;
  smul_0_r : ∀ x, smul x s0 = s0;
  smul_1_r : ∀ x, smul x s1 = x;
  smul_add_distr_l : ∀ x y z, smul x (sadd y z) = sadd (smul x y) (smul x z)
}.

#[global] Instance Z_Scalar : Scalar Z := {|
  s0 := 0%Z; s1 := 1%Z; sadd := Z.add; smul := Z.mul;
  sadd_0_l := Z.add_0_l; sadd_0_r := Z.add_0_r;
  sadd_assoc := Z.add_assoc;
  smul_0_r := Z.mul_0_r; smul_1_r := Z.mul_1_r;
  smul_add_distr_l := Z.mul_add_distr_l |}.

#[global] Instance nat_Scalar : Scalar nat := {|
  s0 := 0%nat; s1 := 1%nat; sadd := Nat.add; smul := Nat.mul;
  sadd_0_l := Nat.add_0_l; sadd_0_r := Nat.add_0_r;
  sadd_assoc := Nat.add_assoc;
  smul_0_r := Nat.mul_0_r; smul_1_r := Nat.mul_1_r;
  smul_add_distr_l := Nat.mul_add_distr_l |}.

#[global] Instance R_Scalar : Scalar R := {|
  s0 := 0%R; s1 := 1%R; sadd := Rplus; smul := Rmult;
  sadd_0_l := Rplus_0_l; sadd_0_r := Rplus_0_r;
  sadd_assoc := λ x y z, eq_sym (Rplus_assoc x y z);
  smul_0_r := Rmult_0_r; smul_1_r := Rmult_1_r;
  smul_add_distr_l := Rmult_plus_distr_l |}.

(** The cast of an int to a scalar (numpy's type promotion in
    [float_array * int_array]). *)
Fixpoint of_nat `{Scalar A} (n : nat) : A :=
  match n with
  | O => s0
  | S n => sadd s1 (of_nat n)
  end.

(** The sum of the entries of a list. *)
Definition ssum `{Scalar A} (l : list A) : A := foldr sadd s0 l.

(** ** numpy arrays

    An array is its shape and its entries in row-major (C) order; every
    array the program builds has [length data = size_of shape]. *)
Record ndarray (A : Type) : Type := NDArray {
  shape : list nat;
  data : list A
}.
Arguments NDArray {A} shape data.
Arguments shape {A} _.
Arguments data {A} _.

(** [numpy.prod(shape)]: the number of entries. *)
Definition size_of (sh : list nat) : nat := foldr Nat.mul 1 sh.

Definition well_formed {A} (a : ndarray A) : Prop :=
  length (data a) = size_of (shape a).

(** The list [f 0; f 1; ...; f (n-1)]. *)
Definition tabulate {A} (n : nat) (f : nat → A) : list A := f <$> seq 0 n.

(** An elementwise operation with a Python scalar, such as [ids < 0.0]. *)
Definition amap {A B} (f : A → B) (a : ndarray A) : ndarray B :=
  NDArray (shape a) (f <$> data a).

(** [a.reshape(sh)]: ValueError unless the sizes agree. *)
Definition reshape {A} (a : ndarray A) (sh : list nat) : result (ndarray A) :=
  if decide (size_of sh = length (data a)) then Ok (NDArray sh (data a))
  else Raise ValueError.

(** [len(a)]: the first dimension; TypeError on a 0-d array. *)
Definition len {A} (a : ndarray A) : result nat :=
  match shape a with
  | d :: _ => Ok d
  | [] => Raise TypeError
  end.

(** The multi-index of the flat position [p] in an array of shape [sh], and
    the flat position of a multi-index. *)
Fixpoint unravel (sh : list nat) (p : nat) : list nat :=
  match sh with
  | [] => []
  | _ :: rest => p / size_of rest :: unravel rest (p mod size_of rest)
  end.

Fixpoint ravel (sh idx : list nat) : nat :=
  match sh, idx with
  | _ :: rest, i :: idx => i * size_of rest + ravel rest idx
  | _, _ => 0
  end.

(** numpy broadcasting: shapes are aligned at the last axis, the shorter one
    is filled with leading 1s, and two dimensions agree when they are equal
    or one of them is 1. *)
Definition pad_shape (n : nat) (sh : list nat) : list nat :=
  replicate (n - length sh) 1 ++ sh.

Definition broadcast_dim (a b : nat) : option nat :=
  if decide (a = b) then Some a
  else if decide (a = 1) then Some b
  else if decide (b = 1) then Some a
  else None.

Fixpoint broadcast_dims (sa sb : list nat) : option (list nat) :=
  match sa, sb with
  | [], [] => Some []
  | a :: sa, b :: sb =>
      d ← broadcast_dim a b; sh ← broadcast_dims sa sb; Some (d :: sh)
  | _, _ => None
  end.

Definition broadcast_shapes (sa sb : list nat) : option (list nat) :=
  let n := length sa `max` length sb in
  broadcast_dims (pad_shape n sa) (pad_shape n sb).

(** The flat position, in an operand of shape [from], of the entry that is
    broadcast to the flat position [p] of the result of shape [to]: an axis
    of length 1 is read at index 0. *)
Definition bindex (from to : list nat) (p : nat) : nat :=
  let from' := pad_shape (length to) from in
  ravel from' (zip_with (λ f i, if decide (f = 1) then 0 else i) from' (unravel to p)).

Section numpy.
Context `{Scalar A}.

Definition item (d : list A) (p : nat) : A := nth p d s0.

(** [ops.allocate(shape)]: an array of zeros. *)
Definition allocate (sh : list nat) : ndarray A :=
  NDArray sh (replicate (size_of sh) s0).

(** [a op b] with broadcasting. *)
Definition binop (f : A → A → A) (a b : ndarray A) : result (ndarray A) :=
  match broadcast_shapes (shape a) (shape b) with
  | Some sh =>
      Ok (NDArray sh (tabulate (size_of sh) (λ p,
            f (item (data a) (bindex (shape a) sh p))
              (item (data b) (bindex (shape b) sh p)))))
  | None => Raise ValueError
  end.

(** [a op= b]: the result is written into [a], so the broadcast shape has to
    be the shape of [a]. *)
Definition iop (f : A → A → A) (a b : ndarray A) : result (ndarray A) :=
  if decide (broadcast_shapes (shape a) (shape b) = Some (shape a)) then
    Ok (NDArray (shape a)
          (imap (λ p x, f x (item (data b) (bindex (shape b) (shape a) p))) (data a)))
  else Raise ValueError.

(** [a.sum(axis=k)]. *)
Definition sum_axis (k : nat) (a : ndarray A) : result (ndarray A) :=
  match drop k (shape a) with
  | d :: post =>
      let pre := take k (shape a) in
      let inner := size_of post in
      Ok (NDArray (pre ++ post) (tabulate (size_of pre * inner) (λ q,
            ssum (tabulate d (λ t,
              item (data a) ((q / inner * d + t) * inner + q mod inner))))))
  | [] => Raise AxisError
  end.

(** [xp.vstack((a, b))]: both arrays are made at least 2-D and joined along
    the first axis. *)
Definition atleast_2d (sh : list nat) : list nat :=
  match sh with
  | [] => [1; 1]
  | [n] => [1; n]
  | _ => sh
  end.

Definition vstack (a b : ndarray A) : result (ndarray A) :=
  match atleast_2d (shape a), atleast_2d (shape b) with
  | da :: ra, db :: rb =>
      if decide (ra = rb) then Ok (NDArray (da + db :: ra) (data a ++ data b))
      else Raise ValueError
  | _, _ => Raise ValueError
  end.

(** The entries of the transpose of an [r] by [c] matrix. *)
Definition transpose2 (r c : nat) (d : list A) : list A :=
  tabulate (c * r) (λ p, item d (p mod r * c + p / r)).

(** The entries of the product of an [m] by [k] and a [k] by [n] matrix. *)
Definition matmul (m k n : nat) (x y : list A) : list A :=
  tabulate (m * n) (λ p,
    ssum (tabulate k (λ t, smul (item x (p / n * k + t)) (item y (t * n + p mod n))))).

(** [ops.gemm(x, y, trans1=.., trans2=..)] on 2-D arrays. *)
Definition gemm (x y : ndarray A) (trans1 trans2 : bool) : result (ndarray A) :=
  match shape x, shape y with
  | [r1; c1], [r2; c2] =>
      let '(m, k, xd) :=
        if trans1 then (c1, r1, transpose2 r1 c1 (data x)) else (r1, c1, data x) in
      let '(k', n, yd) :=
        if trans2 then (c2, r2, transpose2 r2 c2 (data y)) else (r2, c2, data y) in
      if decide (k = k') then Ok (NDArray [m; n] (matmul m k n xd yd))
      else Raise ValueError
  | _, _ => Raise ValueError
  end.

(** [a.transpose(axes)], copied into row-major order: axis [k] of the result
    is axis [axes[k]] of [a]. *)
Definition is_axes (axes : list nat) (n : nat) : bool :=
  bool_decide (length axes = n) && forallb (λ m, bool_decide (m ∈ axes)) (seq 0 n).

Definition transpose_index (sh axes : list nat) (j : list nat) : list nat :=
  foldr (λ '(ax, jk) i, <[ax := jk]> i) (replicate (length sh) 0) (zip axes j).

Definition transpose (axes : list nat) (a : ndarray A) : result (ndarray A) :=
  if is_axes axes (length (shape a)) then
    let sh := (λ ax, nth ax (shape a) 0) <$> axes in
    Ok (NDArray sh (tabulate (size_of sh) (λ p,
          item (data a) (ravel (shape a) (transpose_index (shape a) axes (unravel sh p))))))
  else Raise ValueError.

(** [X[ids]] for an integer array [ids]: the rows of [X] picked along the
    first axis; a negative index counts from the end, and an index outside
    [-len(X), len(X)) raises IndexError. *)
Definition row_index (n : nat) (i : Z) : result nat :=
  if bool_decide (- Z.of_nat n ≤ i < Z.of_nat n)%Z
  then Ok (Z.to_nat (if bool_decide (i < 0)%Z then i + Z.of_nat n else i))
  else Raise (IndexError None).

Definition getitem_rows (X : ndarray A) (ids : ndarray Z) : result (ndarray A) :=
  match shape X with
  | n :: rest =>
      let inner := size_of rest in
      rows <- map_result (row_index n) (data ids);;
      Ok (NDArray (shape ids ++ rest)
            (rows ≫= λ r, take inner (drop (r * inner) (data X))))
  | [] => Raise (IndexError None)
  end.

End numpy.

(** ** Layers of the thinc framework

    A layer is its [begin_update]: from an input and a dropout rate to an
    output and the callback that maps the gradient of the output (and an
    optional optimizer) to the gradient of the input. *)
Definition Backward (Sgd dO dI : Type) : Type := dO → option Sgd → result dI.

Definition Layer4 (Sgd I O dO dI : Type) : Type :=
  I → Q → result (O * Backward Sgd dO dI).

(** A layer whose gradients have the types of its input and output. *)
Definition Layer (Sgd I O : Type) : Type := Layer4 Sgd I O O I.

Section thinc_api.
Context {Sgd : Type}.

(** [thinc.api.layerize(begin_update)] and [thinc.api.wrap(begin_update, model)]
    return a model whose [begin_update] is the given function. *)
Definition layerize {I O} (begin_update : Layer Sgd I O) : Layer Sgd I O := begin_update.

Definition wrap {I O I' O'} (begin_update : Layer Sgd I O) (model : Layer Sgd I' O')
  : Layer Sgd I O := begin_update.

(** Modelled from the spec: [thinc.api.noop] belongs to the framework and
    is not part of this file; the spec gives the framework's contract
    (forward produces an output and a backward function) and nothing more
    of it.  [noop()] is taken as the [begin_update] of the null operation:
    it returns its input, and a callback that returns the gradient it is
    given. *)
Definition noop {X} : Layer Sgd X X := λ X drop, Ok (X, λ D sgd, Ok D).

(** Modelled from the spec: [thinc.api.chain] belongs to the framework and
    is not part of this file; of two layers it is the sequential
    composition, whose callback runs the two callbacks in reverse order. *)
Definition chain {I M O} (f : Layer Sgd I M) (g : Layer Sgd M O) : Layer Sgd I O :=
  λ X drop,
    '(Y, bp_f) <- f X drop;;
    '(Z, bp_g) <- g Y drop;;
    Ok (Z, λ dZ sgd, dY <- bp_g dZ sgd;; bp_f dY sgd).

End thinc_api.

(** ** [flatten], [_flatten_add_lengths] and the backend operations they call *)

Section flatten.
Context {Sgd : Type} `{Scalar A}.

(** [a[start:stop]] along the first axis; numpy clamps both bounds. *)
Definition slice_rows (start : nat) (stop : option nat) (a : ndarray A)
  : result (ndarray A) :=
  match shape a with
  | d :: rest =>
      let lo := start `min` d in
      let hi := lo `max` (default d stop `min` d) in
      let inner := size_of rest in
      Ok (NDArray (hi - lo :: rest) (take ((hi - lo) * inner) (drop (lo * inner) (data a))))
  | [] => Raise (IndexError None)
  end.

(** Modelled from the spec: [ops.flatten(seqs, pad=pad)] belongs to the
    thinc backend and is not part of this file.  It concatenates the
    sequences along the first axis into one contiguous array, delimited by
    [pad] rows of zeros before every sequence and after the last one; an
    empty batch gives an empty 1-D array. *)
Definition ops_flatten (seqs : list (ndarray A)) (pad : nat) : result (ndarray A) :=
  match seqs with
  | [] => Ok (allocate [0])
  | x :: _ =>
      match shape x with
      | [] => Raise ValueError
      | _ :: rest =>
          if decide (Forall (λ s, tail (shape s) = rest ∧ shape s ≠ []) seqs) then
            let padding := replicate (pad * size_of rest) s0 in
            let rows := foldr (λ s n, pad + default 0 (head (shape s)) + n) pad seqs in
            Ok (NDArray (rows :: rest) ((seqs ≫= λ s, padding ++ data s) ++ padding))
          else Raise ValueError
      end
  end.

(** Modelled from the spec: [ops.unflatten(X, lengths, pad=pad)] belongs to
    the thinc backend and is not part of this file.  It cuts the flat array
    back into one array per recorded length, skipping [pad] rows before each
    of them. *)
Fixpoint ops_unflatten (X : ndarray A) (lengths : list nat) (pad : nat)
  : result (list (ndarray A)) :=
  match lengths with
  | [] => Ok []
  | length :: lengths =>
      X <- slice_rows pad None X;;
      piece <- slice_rows 0 (Some length) X;;
      X <- slice_rows length None X;;
      unflat <- ops_unflatten X lengths pad;;
      Ok (piece :: unflat)
  end.

(** [[len(seq) for seq in seqs]] *)
Definition lengths_of (seqs : list (ndarray A)) : result (list nat) := map_result len seqs.

Definition flatten : Layer Sgd (list (ndarray A)) (ndarray A) :=
  layerize (λ seqs drop,
    lengths <- lengths_of seqs;;
    let finish_update : Backward Sgd _ _ := λ d_X sgd, ops_unflatten d_X lengths 0 in
    X <- ops_flatten seqs 0;;
    Ok (X, finish_update)).

(** The layer's output is the pair [(X, lengths)]; its callback takes the
    gradient of [X]. *)
Definition _flatten_add_lengths (seqs : list (ndarray A)) (pad : nat) (drop : Q)
  : result ((ndarray A * list nat) * (ndarray A → option Sgd → result (list (ndarray A)))) :=
  lengths <- lengths_of seqs;;
  let finish_update := λ d_X (sgd : option Sgd), ops_unflatten d_X lengths pad in
  X <- ops_flatten seqs pad;;
  Ok ((X, lengths), finish_update).

(** ** [concatenate_lists] *)

(** [thinc.api.concatenate], the parallel composition of the framework, is a
    parameter. *)
Variable concatenate :
  list (Layer Sgd (list (ndarray A)) (ndarray A)) → Layer Sgd (list (ndarray A)) (ndarray A).

Definition concatenate_lists
    (layers : list (Layer Sgd (list (ndarray A)) (list (ndarray A))))
    (drop_factor : option Q) : Layer Sgd (list (ndarray A)) (list (ndarray A)) :=
  match layers with
  | [] => noop
  | _ :: _ =>
      let drop_factor := default 1%Q drop_factor in
      let layers := (λ layer, chain layer flatten) <$> layers in
      let concat := concatenate layers in
      let concatenate_lists_fwd : Layer Sgd _ _ := λ Xs drop,
        let drop := (drop * drop_factor)%Q in
        lengths <- lengths_of Xs;;
        '(flat_y, bp_flat_y) <- concat Xs drop;;
        ys <- ops_unflatten flat_y lengths 0;;
        let concatenate_lists_bwd : Backward Sgd _ _ := λ d_ys sgd,
          flat <- ops_flatten d_ys 0;; bp_flat_y flat sgd in
        Ok (ys, concatenate_lists_bwd) in
      wrap concatenate_lists_fwd concat
  end.

End flatten.

(** ** [get_col] *)

Section get_col.
Context {Sgd : Type} `{Scalar A}.

(** [X[:, idx]] for [0 <= idx]: the entries at index [idx] of the second
    axis; numpy raises IndexError when the array has no second axis or the
    index is beyond it. *)
Definition getitem_col (X : ndarray A) (idx : nat) : result (ndarray A) :=
  match shape X with
  | r :: c :: rest =>
      if decide (idx < c) then
        let inner := size_of rest in
        Ok (NDArray (r :: rest)
              (seq 0 r ≫= λ i, take inner (drop ((i * c + idx) * inner) (data X))))
      else Raise (IndexError None)
  | _ => Raise (IndexError None)
  end.

(** [X[:, idx] = v], for [v] of the shape of [X[:, idx]]. *)
Definition setitem_col (X : ndarray A) (idx : nat) (v : ndarray A) : ndarray A :=
  match shape X with
  | r :: c :: rest =>
      let inner := size_of rest in
      NDArray (shape X)
        (imap (λ p x,
           if decide ((p / inner) mod c = idx)
           then item (data v) (p / (c * inner) * inner + p mod inner)
           else x) (data X))
  | _ => X
  end.

(** [X[:, idx] += y]: the in-place addition on the view, written back. *)
Definition iadd_col (X : ndarray A) (idx : nat) (y : ndarray A) : result (ndarray A) :=
  view <- getitem_col X idx;;
  view <- iop sadd view y;;
  Ok (setitem_col X idx view).

Definition get_col (idx : Z) : result (Layer Sgd (ndarray A) (ndarray A)) :=
  if decide (idx < 0)%Z then Raise (IndexError (Some (E066 idx)))
  else
    let forward : Layer Sgd (ndarray A) (ndarray A) := λ X drop,
      output <- getitem_col X (Z.to_nat idx);;
      let backward : Backward Sgd _ _ := λ y sgd,
        let dX := allocate (shape X) in
        dX <- iadd_col dX (Z.to_nat idx) y;;
        Ok dX in
      Ok (output, backward) in
    Ok (layerize forward).

End get_col.

(** ** A state and exception monad

    A method that updates its object in place is a function from the state
    of the object to a result and the new state; an exception leaves the
    updates made before it in place. *)
Definition M (S A : Type) : Type := S → result A * S.

Definition ret_s {S A} (a : A) : M S A := λ s, (Ok a, s).

Definition bind_s {S A B} (m : M S A) (k : A → M S B) : M S B := λ s,
  match m s with
  | (Ok a, s') => k a s'
  | (Raise e, s') => (Raise e, s')
  end.

Definition lift {S A} (r : result A) : M S A := λ s, (r, s).

Definition gets {S A} (f : S → A) : M S A := λ s, (Ok (f s), s).

Definition modify {S} (f : S → S) : M S unit := λ s, (Ok tt, f s).

Notation "x <~ m ;; k" := (bind_s m (λ x, k))
  (at level 20, m at level 99, k at level 200, right associativity,
   format "'[' x  <~  m ;;  '/' k ']'").
Notation "' p <~ m ;; k" := (bind_s m (λ x, match x with p => k end))
  (at level 20, p pattern, m at level 99, k at level 200, right associativity,
   format "'[' ' p  <~  m ;;  '/' k ']'").

(** ** [PrecomputableAffine] *)

Module PrecomputableAffine.

(** The dimensions and the parameter store of the layer: the weights [W]
    of shape (nF, nO, nP, nI), the bias [b] of shape (nO, nP), the padding
    row [pad] of shape (1, nF, nO, nP), and a gradient for each. *)
Record t (A : Type) : Type := Model {
  nO : nat;
  nI : nat;
  nF : nat;
  nP : nat;
  W : ndarray A;
  b : ndarray A;
  pad : ndarray A;
  d_W : ndarray A;
  d_b : ndarray A;
  d_pad : ndarray A
}.
Arguments Model {A}.
Arguments nO {A} _.
Arguments nI {A} _.
Arguments nF {A} _.
Arguments nP {A} _.
Arguments W {A} _.
Arguments b {A} _.
Arguments pad {A} _.
Arguments d_W {A} _.
Arguments d_b {A} _.
Arguments d_pad {A} _.

(** An optimizer is called as [sgd(self._mem.weights, self._mem.gradient,
    key=self.id)] and updates both buffers in place: a function on the
    parameter store. *)
Definition Optimizer (A : Type) : Type := t A → t A.

Section methods.
Context `{Scalar A}.

Definition set_W (v : ndarray A) (self : t A) : t A :=
  Model (nO self) (nI self) (nF self) (nP self)
    v (b self) (pad self) (d_W self) (d_b self) (d_pad self).

Definition set_d_W (v : ndarray A) (self : t A) : t A :=
  Model (nO self) (nI self) (nF self) (nP self)
    (W self) (b self) (pad self) v (d_b self) (d_pad self).

Definition set_d_b (v : ndarray A) (self : t A) : t A :=
  Model (nO self) (nI self) (nF self) (nP self)
    (W self) (b self) (pad self) (d_W self) v (d_pad self).

Definition set_d_pad (v : ndarray A) (self : t A) : t A :=
  Model (nO self) (nI self) (nF self) (nP self)
    (W self) (b self) (pad self) (d_W self) (d_b self) v.

(** [self.field += x] *)
Definition iadd (get : t A → ndarray A) (set : ndarray A → t A → t A)
    (x : ndarray A) : M (t A) unit := λ self,
  match iop sadd (get self) x with
  | Ok v => (Ok tt, set v self)
  | Raise e => (Raise e, self)
  end.

Definition _add_padding (self : t A) (Yf : ndarray A) : result (ndarray A) :=
  Yf_padded <- vstack (pad self) Yf;;
  Ok Yf_padded.

Definition _backprop_padding (dY : ndarray A) (ids : ndarray Z)
  : M (t A) (ndarray A * ndarray Z) :=
  (* (1, nF, nO, nP) += (nN, nF, nO, nP) where IDs (nN, nF) < 0 *)
  let mask := amap (λ i, bool_decide (i < 0)%Z) ids in
  mask <~ lift (sum_axis 1 (amap Nat.b2n mask));;
  mask <~ lift (reshape mask [default 0 (head (shape ids)); 1; 1]);;
  d_pad <~ lift (binop smul dY (amap of_nat mask));;
  d_pad <~ lift (sum_axis 0 d_pad);;
  _ <~ iadd PrecomputableAffine.d_pad set_d_pad d_pad;;
  ret_s (dY, ids).

(** [xp.ascontiguousarray(self.W.transpose((1, 2, 0, 3)))] is a copy unless
    the transposed view is already contiguous, which it is exactly when its
    entries are in the order of [W]: when nF = 1 or nO = nP = 1.  In that
    case the buffer that is zeroed and then handed to [gemm] as [out] is the
    memory of [W] itself. *)
Definition transposed_is_view (self : t A) : bool :=
  bool_decide (nF self = 1) || bool_decide (nO self = 1 ∧ nP self = 1).

Definition backward (X : ndarray A) (dY_ids : ndarray A * ndarray Z)
    (sgd : option (Optimizer A)) : M (t A) (ndarray A) :=
  let '(dY, ids) := dY_ids in
  '(dY, ids) <~ _backprop_padding dY ids;;
  '(nO, nI, nF, nP) <~ gets (λ self, (nO self, nI self, nF self, nP self));;
  Xf <~ lift (getitem_rows X ids);;
  Xf <~ lift (reshape Xf [default 0 (head (shape Xf)); nF * nI]);;

  d_b <~ lift (sum_axis 0 dY);;
  _ <~ iadd PrecomputableAffine.d_b set_d_b d_b;;
  dY <~ lift (reshape dY [default 0 (head (shape dY)); nO * nP]);;

  W <~ gets PrecomputableAffine.W;;
  view <~ gets transposed_is_view;;
  Wopfi <~ lift (transpose [1; 2; 0; 3] W);;
  Wopfi <~ lift (reshape Wopfi [nO * nP; nF * nI]);;
  dY' <~ lift (reshape dY [default 0 (head (shape dY)); nO * nP]);;
  dXf <~ lift (gemm dY' Wopfi false false);;

  (* Reuse the buffer *)
  let dWopfi := allocate (shape Wopfi) in
  _ <~ (if view : bool then modify (set_W (NDArray (shape W) (data dWopfi)))
        else ret_s tt);;
  dWopfi <~ lift (gemm dY Xf true false);;
  _ <~ (if view : bool then modify (set_W (NDArray (shape W) (data dWopfi)))
        else ret_s tt);;
  dWopfi <~ lift (reshape dWopfi [nO; nP; nF; nI]);;
  (* (o, p, f, i) --> (f, o, p, i) *)
  d_W <~ lift (transpose [2; 0; 1; 3] dWopfi);;
  _ <~ iadd PrecomputableAffine.d_W set_d_W d_W;;

  _ <~ match sgd with
       | Some sgd => modify sgd
       | None => ret_s tt
       end;;
  lift (reshape dXf [default 0 (head (shape dXf)); nF; nI]).

Definition begin_update (self : t A) (X : ndarray A) (drop : Q)
  : result (ndarray A *
            (ndarray A * ndarray Z → option (Optimizer A) → M (t A) (ndarray A))) :=
  Wr <- reshape (W self) [nF self * nO self * nP self; nI self];;
  Yf <- gemm X Wr false true;;
  Yf <- reshape Yf [default 0 (head (shape Yf)); nF self; nO self; nP self];;
  Yf <- _add_padding self Yf;;
  Ok (Yf, backward X).

End methods.

End PrecomputableAffine.

(** ** Vocabulary and [link_vectors_to_models] *)

Definition VECTORS_KEY : string := "spacy_pretrained_vectors".

(** A lexeme: its text, its identifier [orth], its [rank] (a row of the
    vector table) and its smoothed log-probability [prob]. *)
Record Lexeme : Type := {
  lex_text : string;
  orth : N;
  rank : nat;
  prob : Q
}.

Definition set_rank (r : nat) (word : Lexeme) : Lexeme :=
  {| lex_text := lex_text word; orth := orth word; rank := r; prob := prob word |}.

(** The vector table: an optional name, the data matrix and the map from
    identifiers to rows. *)
Record Vectors (A : Type) : Type := {
  name : option string;
  vectors_data : ndarray A;
  key2row : gmap N nat
}.
Arguments name {A} _.
Arguments vectors_data {A} _.
Arguments key2row {A} _.

(** A vocabulary: iterating over it yields its lexemes. *)
Record Vocab (A : Type) : Type := {
  lexemes : list Lexeme;
  vectors : Vectors A
}.
Arguments lexemes {A} _.
Arguments vectors {A} _.

(** What [link_vectors_to_models] prints. *)
Inductive printed : Type :=
  | Warning_unnamed_vectors (rows cols : nat).

(** The state outside the vocabulary that the function touches: the
    registry [thinc.extra.load_nlp.VECTORS], keyed by (device, name), and
    the standard output. *)
Record World (A : Type) : Type := {
  VECTORS : gmap (string * string) (ndarray A);
  stdout : list printed
}.
Arguments VECTORS {A} _.
Arguments stdout {A} _.

Section link_vectors.
Context {A : Type}.

(** The state is the vocabulary the function is called on, and the world;
    [device] is [Model.ops.device]. *)
Definition link_vectors_to_models (device : string)
  : M (Vocab A * World A) unit := λ '(vocab, world),
  let vectors := vectors vocab in
  (* if vectors.name is None: *)
  let '(r, vectors, out) :=
    match name vectors with
    | None =>
        let vectors := {| name := Some VECTORS_KEY;
                          vectors_data := vectors_data vectors;
                          key2row := key2row vectors |} in
        if decide (size_of (shape (vectors_data vectors)) ≠ 0) then
          match shape (vectors_data vectors) with
          | [rows; cols] => (Ok tt, vectors, [Warning_unnamed_vectors rows cols])
          | _ => (Raise TypeError, vectors, [])
          end
        else (Ok tt, vectors, [])
    | Some _ => (Ok tt, vectors, [])
    end in
  let world := {| VECTORS := VECTORS world; stdout := stdout world ++ out |} in
  match r with
  | Raise e => (Raise e, ({| lexemes := lexemes vocab; vectors := vectors |}, world))
  | Ok _ =>
      let words := (λ word,
        match key2row vectors !! orth word with
        | Some row => set_rank row word
        | None => set_rank 0 word
        end) <$> lexemes vocab in
      let data := vectors_data vectors in
      let key := (device, default EmptyString (name vectors)) in
      let world := {| VECTORS := <[key := data]> (VECTORS world);
                      stdout := stdout world |} in
      (Ok tt, ({| lexemes := words; vectors := vectors |}, world))
  end.

End link_vectors.

(** ** The masked language model *)

(** numpy's pseudo-random generator, with its state made explicit.  The
    laws are numpy's contract: [uniform(0.0, 1.0, (n,))] draws [n] values in
    [0, 1), [random()] one such value, and [choice(a, size, p=p)] draws
    [size] indices below [a] when [p] is a distribution over [a > 0] items,
    and raises ValueError when [a] is 0 and a sample is asked for. *)
Class NumpyRandom (G : Type) : Type := {
  random_uniform : nat → G → list Q * G;
  random_random : G → Q * G;
  random_choice : nat → nat → list R → G → result (list nat) * G;
  random_uniform_length : ∀ n g, length (random_uniform n g).1 = n;
  random_uniform_range : ∀ n g, Forall (λ u, 0 <= u ∧ u < 1)%Q (random_uniform n g).1;
  random_random_range : ∀ g, (0 <= (random_random g).1 ∧ (random_random g).1 < 1)%Q;
  random_choice_empty : ∀ size p g,
    0 < size → (random_choice 0 size p g).1 = Raise ValueError;
  random_choice_ok : ∀ a size p g,
    0 < a → length p = a → ssum p = 1%R → Forall (λ x, 0 <= x)%R p →
    ∃ l, (random_choice a size p g).1 = Ok l ∧ length l = size ∧ Forall (λ i, i < a) l
}.

Record Token : Type := {
  text : string;
  whitespace_ : string
}.

(** A document: its vocabulary and its tokens. *)
Record Doc (V : Type) : Type := {
  doc_vocab : V;
  tokens : list Token
}.
Arguments doc_vocab {V} _.
Arguments tokens {V} _.

(** [Doc(vocab, words=words, spaces=spaces)] *)
Definition new_Doc {V} (vocab : V) (words : list string) (spaces : list bool) : Doc V :=
  {| doc_vocab := vocab;
     tokens := zip_with (λ w (sp : bool),
                 {| text := w; whitespace_ := if sp then " " else EmptyString |}) words spaces |}.

(** [bool(s)] of a string. *)
Definition string_bool (s : string) : bool :=
  match s with
  | EmptyString => false
  | _ => true
  end.

Record _RandomWords : Type := {
  words : list string;
  probs : list R;
  _cache : list nat
}.

(** [_RandomWords.__init__] *)
Definition _RandomWords_init {A} (vocab : Vocab A) : _RandomWords :=
  let words := lex_text <$> filter (λ lex, negb (Qeq_bool (prob lex) 0)) (lexemes vocab) in
  let probs := prob <$> filter (λ lex, negb (Qeq_bool (prob lex) 0)) (lexemes vocab) in
  let words := take 10000 words in
  let probs := take 10000 probs in
  let probs := (λ p, exp (Q2R p)) <$> probs in
  let total := ssum probs in
  let probs := (λ p, p / total)%R <$> probs in
  {| words := words; probs := probs; _cache := [] |}.

Section masked_language_model.
Context `{NumpyRandom G}.

(** A draw advances the generator, whether or not it raises. *)
Definition draw {S A} (f : G → A * G) : M (S * G) A := λ '(s, g),
  let '(a, g) := f g in (Ok a, (s, g)).

Definition draw_result {S A} (f : G → result A * G) : M (S * G) A := λ '(s, g),
  let '(r, g) := f g in (r, (s, g)).

(** [_RandomWords.next]; the state is the sampler and the generator. *)
Definition next : M (_RandomWords * G) string :=
  self <~ gets fst;;
  _ <~ (if decide (_cache self = []) then
          drawn <~ draw_result (random_choice (length (words self)) 10000 (probs self));;
          modify (λ '(self, g),
            ({| words := words self; probs := probs self;
                _cache := _cache self ++ drawn |}, g))
        else ret_s tt);;
  self <~ gets fst;;
  match last (_cache self) with
  | None => lift (Raise (IndexError None))
  | Some index =>
      _ <~ modify (λ '(self, g),
             ({| words := words self; probs := probs self;
                 _cache := removelast (_cache self) |}, g));;
      match words self !! index with
      | Some word => ret_s word
      | None => lift (Raise (IndexError None))
      end
  end.

Definition _replace_word (word : string) (mask : string)
  : M (_RandomWords * G) string :=
  roll <~ draw random_random;;
  if Qlt_le_dec roll (8 # 10) then ret_s mask
  else if Qlt_le_dec roll (9 # 10) then next
  else ret_s word.

(** The inner loop of [_apply_mask] over the tokens of one document; [i] is
    the running index into [mask]. *)
Fixpoint _apply_mask_tokens (mask : list bool) (toks : list Token) (i : nat)
  : M (_RandomWords * G) (list string * nat) :=
  match toks with
  | [] => ret_s ([], i)
  | token :: toks =>
      word <~ match mask !! i with
              | None => lift (Raise (IndexError None))
              | Some false => _replace_word (text token) "[MASK]"
              | Some true => ret_s (text token)
              end;;
      '(words, i) <~ _apply_mask_tokens mask toks (S i);;
      ret_s (word :: words, i)
  end.

(** The outer loop of [_apply_mask] over the documents. *)
Fixpoint _apply_mask_docs {V} (mask : list bool) (docs : list (Doc V)) (i : nat)
  : M (_RandomWords * G) (list (Doc V)) :=
  match docs with
  | [] => ret_s []
  | doc :: docs =>
      '(words, i) <~ _apply_mask_tokens mask (tokens doc) i;;
      let spaces := (λ w, string_bool (whitespace_ w)) <$> tokens doc in
      masked_docs <~ _apply_mask_docs mask docs i;;
      ret_s (new_Doc (doc_vocab doc) words spaces :: masked_docs)
  end.

Definition _apply_mask {V} (docs : list (Doc V)) (mask_prob : Q)
  : M (_RandomWords * G) (list bool * list (Doc V)) :=
  let N := foldr (λ doc n, length (tokens doc) + n) 0 docs in
  mask <~ draw (random_uniform N);;
  let mask := (λ u, Qle_bool mask_prob u) <$> mask in
  masked_docs <~ _apply_mask_docs mask docs 0;;
  ret_s (mask, masked_docs).

Context {Sgd : Type} `{Scalar A}.

(** [mlm_forward], the [begin_update] of the model that
    [masked_language_model] returns. *)
Definition mlm_forward {V dI} (model : Layer4 Sgd (list (Doc V)) (ndarray A) (ndarray A) dI)
    (mask_prob : Q) (docs : list (Doc V)) (drop : Q)
  : M (_RandomWords * G) (ndarray A * Backward Sgd (ndarray A) dI) :=
  '(mask, docs) <~ _apply_mask docs mask_prob;;
  mask <~ lift (reshape (NDArray [length mask] mask) [length mask; 1]);;
  '(output, backprop) <~ lift (model docs drop);;
  let mlm_backward : Backward Sgd (ndarray A) dI := λ d_output sgd,
    d_output <- iop smul d_output (amap (λ m, of_nat (1 - Nat.b2n m)) mask);;
    backprop d_output sgd in
  ret_s (output, mlm_backward).

(** [masked_language_model]: the sampler is built once, from the
    vocabulary; the model returned is [wrap(mlm_forward, model)]. *)
Definition masked_language_model {V dI} (vocab : Vocab A)
    (model : Layer4 Sgd (list (Doc V)) (ndarray A) (ndarray A) dI) (mask_prob : Q)
  : _RandomWords *
    (list (Doc V) → Q → M (_RandomWords * G) (ndarray A * Backward Sgd (ndarray A) dI)) :=
  let random_words := _RandomWords_init vocab in
  (random_words, mlm_forward model mask_prob).

End masked_language_model.

(** ** Vocabulary of the statements *)

(** A multi-index within the bounds of a shape. *)
Definition in_bounds (sh idx : list nat) : Prop := Forall2 (λ i d, i < d) idx sh.

(** *** [flatten] *)

Section flatten_vocabulary.
Context `{Scalar A}.

(** The length of a sequence: its first dimension. *)
Definition seq_length (s : ndarray A) : nat := default 0 (head (shape s)).

(** The rows of the flat array: [pad] before every sequence and after the
    last. *)
Definition flat_rows (pad : nat) (lengths : list nat) : nat :=
  foldr (λ l n, pad + l + n) pad lengths.

(** The entries of the pieces that [ops_unflatten] cuts from a well-formed
    array. *)
Fixpoint unflat_data (pad inner : nat) (lengths : list nat) (d : list A) : list (list A) :=
  match lengths with
  | [] => []
  | l :: lengths =>
      take (l * inner) (drop (pad * inner) d)
        :: unflat_data pad inner lengths (drop (l * inner) (drop (pad * inner) d))
  end.

End flatten_vocabulary.

(** *** [PrecomputableAffine] *)

(** The sum of the incoming gradients [dY[n, o, p]] over the positions
    [(n, f)] of the index array whose entry is negative. *)
Definition pad_gradient_sum `{Scalar A} (N nF nO nP : nat) (dY : list A) (ids : list Z)
    (o p : nat) : A :=
  ssum (tabulate N (λ n, ssum (tabulate nF (λ f,
    if bool_decide (item ids (n * nF + f) < 0)%Z
    then item dY ((n * nO + o) * nP + p) else s0)))).

(** The same sum over the rows alone whose entry at the feature slot [f] is
    negative. *)
Definition slot_gradient_sum `{Scalar A} (N nF nO nP : nat) (dY : list A) (ids : list Z)
    (f o p : nat) : A :=
  ssum (tabulate N (λ n,
    if bool_decide (item ids (n * nF + f) < 0)%Z
    then item dY ((n * nO + o) * nP + p) else s0)).

(** A step of [backward] that leaves the gradient of [pad] as it is. *)
Definition keeps_d_pad {A B} (m : M (PrecomputableAffine.t A) B) : Prop :=
  ∀ s r s', m s = (r, s') → PrecomputableAffine.d_pad s' = PrecomputableAffine.d_pad s.

(** A computation that leaves the gradient of [pad] as it is up to its
    last effect, which is the call of the optimizer when there is one. *)
Definition ends_with_sgd {A B} (sgd : option (PrecomputableAffine.Optimizer A))
    (m : M (PrecomputableAffine.t A) B) : Prop :=
  ∀ s r s', m s = (r, s') →
    ∃ mid, PrecomputableAffine.d_pad mid = PrecomputableAffine.d_pad s ∧
           (s' = mid ∨ ∃ f, sgd = Some f ∧ s' = f mid).

(** *** The masked language model *)

(** The lexemes that the sampler keeps. *)
Definition nonzero_lexemes {A} (vocab : Vocab A) : list Lexeme :=
  filter (λ lex, negb (Qeq_bool (prob lex) 0)) (lexemes vocab).

(** What holds of the sampler between two calls of [next]: the word list and
    the probabilities are those it was built with, and the cache holds
    indices into the word list. *)
Definition sampler_inv (random_words self : _RandomWords) : Prop :=
  words self = words random_words ∧ probs self = probs random_words ∧
  Forall (λ i, i < length (words random_words)) (_cache self).

(** [k] calls of [next], one after the other. *)
Fixpoint next_calls `{NumpyRandom G} (k : nat) : M (_RandomWords * G) (list string) :=
  match k with
  | O => ret_s []
  | S k => word <~ next;; words <~ next_calls k;; ret_s (word :: words)
  end.

(** The number of tokens of a batch. *)
Definition token_count {V} (docs : list (Doc V)) : nat :=
  foldr (λ doc n, length (tokens doc) + n) 0 docs.

(** A generator that counts: it satisfies numpy's contract and makes the
    model run on examples. *)
Definition counter_uniform (n : nat) (g : nat) : list Q * nat :=
  ((λ i, Z.of_nat ((g + i) mod 10) # 10) <$> seq 0 n, g + n).

Definition counter_random (g : nat) : Q * nat :=
  (Z.of_nat (g mod 10) # 10, S g).

Definition counter_choice (a size : nat) (p : list R) (g : nat)
  : result (list nat) * nat :=
  if decide (a = 0) then
    (if decide (size = 0) then Ok [] else Raise ValueError, g)
  else (Ok ((λ i, (g + i) mod a) <$> seq 0 size), g + size).

(** * The other functions of the file

    The functions below are modelled in the same way as those above. *)

(** ** [_divide_array] *)

(** [X] is a sequence: a list, or an array seen as the sequence of its
    rows.  [X[start:stop]] on a sequence of length [n]: a negative bound counts
    from the end, and both bounds are clamped to [0, n]. *)
Definition slice_bound (n : nat) (i : Z) : nat :=
  Z.to_nat (if bool_decide (i < 0)%Z then Z.max (i + Z.of_nat n) 0
            else Z.min i (Z.of_nat n)).

Definition getslice {T} (X : list T) (start stop : Z) : list T :=
  let lo := slice_bound (length X) start in
  let hi := slice_bound (length X) stop in
  take (hi - lo) (drop lo X).

(** The [while] loop of [_divide_array]; [fuel] bounds the number of times
    its test is evaluated, and [None] is a loop that has not ended within
    that bound. *)
Fixpoint _divide_array_loop {T} (fuel : nat) (X : list T) (size : Z)
    (parts : list (list T)) (index : Z) : option (list (list T)) :=
  match fuel with
  | O => None
  | S fuel =>
      if bool_decide (index < Z.of_nat (length X))%Z then
        _divide_array_loop fuel X size
          (parts ++ [getslice X index (index + size)]) (index + size)%Z
      else Some parts
  end.

Definition _divide_array {T} (fuel : nat) (X : list T) (size : Z)
  : option (list (list T)) :=
  _divide_array_loop fuel X size [] 0%Z.

(** ** [with_cpu], [_to_cpu] and [_to_device] *)

Set Warnings "-register-all".

(** The values that travel between the host and a device: numpy arrays,
    cupy arrays (the arrays of the device, whose [get()] copies them to the
    host), tuples and lists of such values, and numbers, which are neither
    and have no attribute [get]. *)
Inductive pyobj (A : Type) : Type :=
  | numpy_ndarray (a : ndarray A)
  | cupy_ndarray (a : ndarray A)
  | pytuple (xs : list (pyobj A))
  | pylist (xs : list (pyobj A))
  | pynumber (x : A).
Arguments numpy_ndarray {A} a.
Arguments cupy_ndarray {A} a.
Arguments pytuple {A} xs.
Arguments pylist {A} xs.
Arguments pynumber {A} x.

Fixpoint _to_cpu {A} (X : pyobj A) : pyobj A :=
  match X with
  | numpy_ndarray _ => X
  | pytuple xs => pytuple (_to_cpu <$> xs)
  | pylist xs => pylist (_to_cpu <$> xs)
  | cupy_ndarray a => numpy_ndarray a   (* X.get() *)
  | pynumber _ => X
  end.

Section with_cpu.
Context {Sgd A : Type}.

(** The backend [ops]: its method [asarray] belongs to the framework and is
    a parameter. *)
Variable ops_asarray : pyobj A → result (pyobj A).

Fixpoint _to_device (X : pyobj A) : result (pyobj A) :=
  match X with
  | pytuple xs => xs <- map_result _to_device xs;; Ok (pytuple xs)
  | pylist xs => xs <- map_result _to_device xs;; Ok (pylist xs)
  | _ => ops_asarray X
  end.

(** The model that is wrapped: an object of the framework with its
    [begin_update] and its method [to_cpu], which moves its parameters to the
    host. *)
Variable Model : Type.
Variable begin_update : Model → Layer Sgd (pyobj A) (pyobj A).
Variable to_cpu : Model → Model.

Definition with_cpu (model : Model) : Layer Sgd (pyobj A) (pyobj A) :=
  let model := to_cpu model in
  let with_cpu_forward : Layer Sgd (pyobj A) (pyobj A) := λ inputs drop,
    '(cpu_outputs, backprop) <- begin_update model (_to_cpu inputs) drop;;
    gpu_outputs <- _to_device cpu_outputs;;
    let with_cpu_backprop : Backward Sgd (pyobj A) (pyobj A) := λ d_outputs sgd,
      let cpu_d_outputs := _to_cpu d_outputs in
      backprop cpu_d_outputs sgd in
    Ok (gpu_outputs, with_cpu_backprop) in
  wrap with_cpu_forward (begin_update model).

End with_cpu.

(** *** Host and device *)

(** A value without any array of the device. *)
Fixpoint on_host {A} (X : pyobj A) : bool :=
  match X with
  | numpy_ndarray _ | pynumber _ => true
  | cupy_ndarray _ => false
  | pytuple xs | pylist xs => forallb on_host xs
  end.

(** A value whose leaves are all arrays of the host. *)
Fixpoint host_arrays {A} (X : pyobj A) : bool :=
  match X with
  | numpy_ndarray _ => true
  | cupy_ndarray _ | pynumber _ => false
  | pytuple xs | pylist xs => forallb host_arrays xs
  end.

(** A backend whose [asarray] puts an array of the host on its device (the
    host itself, or not) and keeps its contents. *)
Definition places_arrays {A} (ops_asarray : pyobj A → result (pyobj A)) : Prop :=
  ∀ a, ops_asarray (numpy_ndarray a) = Ok (numpy_ndarray a) ∨
       ops_asarray (numpy_ndarray a) = Ok (cupy_ndarray a).

(** The [asarray] of a backend that works on the device, for examples: it
    moves arrays to the device and makes a 0-d array of a number. *)
Definition device_asarray {A} (X : pyobj A) : result (pyobj A) :=
  match X with
  | numpy_ndarray a | cupy_ndarray a => Ok (cupy_ndarray a)
  | pynumber x => Ok (cupy_ndarray (NDArray [] [x]))
  | _ => Raise ValueError
  end.

(** ** Array objects

    [reapply] and [logistic] update arrays in place, and one array can be
    reached under several names.  For these functions an array is an
    object: a reference into a store of arrays.  A new object takes the next
    free reference, and objects are never removed. *)
Definition ref : Type := nat.

Abbreviation store A := (list (ndarray A)) (only parsing).

Section store.
Context `{Scalar A}.

(** The array behind a reference.  The references a program holds are
    those of objects of the store; any other reference reads as an empty
    array. *)
Definition deref (r : ref) : M (store A) (ndarray A) := λ h,
  (Ok (default (NDArray [0] []) (h !! r)), h).

(** A new array object. *)
Definition new (v : ndarray A) : M (store A) ref := λ h, (Ok (length h), h ++ [v]).

(** The array behind [r] is overwritten. *)
Definition assign (r : ref) (v : ndarray A) : M (store A) unit := modify (<[r := v]>).

End store.

(** Callbacks and layers on array objects. *)
Definition BackwardRef (Sgd A : Type) : Type := ref → option Sgd → M (store A) ref.

Definition LayerRef (Sgd A : Type) : Type :=
  ref → Q → M (store A) (ref * BackwardRef Sgd A).

(** ** [print_shape] *)

(** The model returned has [forward] as its [begin_update]; the callback
    returns the object it is given. *)
Definition print_shape {Sgd A} (prefix : string) : LayerRef Sgd A :=
  let forward : LayerRef Sgd A := λ X drop,
    ret_s (X, λ dX sgd, ret_s dX) in
  forward.

(** ** [reapply] *)

(** How a call of [reapply_fwd] ends: the local variable [Y] is bound by
    the loop only, and [return Y, reapply_bwd] raises UnboundLocalError
    when the loop has made no turn. *)
Inductive completion (B : Type) : Type :=
  | Returns (b : B)
  | Raises (e : exn)
  | RaisesUnboundLocalError.
Arguments Returns {B} b.
Arguments Raises {B} e.
Arguments RaisesUnboundLocalError {B}.

Section reapply.
Context {Sgd : Type} `{Scalar A}.

(** The loop of [reapply_fwd], [n] turns of it being left; [Y] is [None] as
    long as the variable is not bound. *)
Fixpoint reapply_fwd_loop (layer : LayerRef Sgd A) (n : nat) (X : ref) (drop : Q)
    (Y : option ref) (backprops : list (BackwardRef Sgd A))
  : M (store A) (option ref * list (BackwardRef Sgd A)) :=
  match n with
  | O => ret_s (Y, backprops)
  | S n =>
      '(Y, backprop) <~ layer X drop;;
      let X := Y in
      reapply_fwd_loop layer n X drop (Some Y) (backprops ++ [backprop])
  end.

(** The loop of [reapply_bwd] over [reversed(backprops)]; [dX] is [None] or
    an array object, and [dX += dY] adds into that object. *)
Fixpoint reapply_bwd_loop (reversed : list (BackwardRef Sgd A)) (dY : ref)
    (sgd : option Sgd) (dX : option ref) : M (store A) (option ref) :=
  match reversed with
  | [] => ret_s dX
  | backprop :: reversed =>
      dY <~ backprop dY sgd;;
      dX <~ match dX with
            | None => ret_s (Some dY)
            | Some dX =>
                a <~ deref dX;;
                b <~ deref dY;;
                sum <~ lift (iop sadd a b);;
                _ <~ assign dX sum;;
                ret_s (Some dX)
            end;;
      reapply_bwd_loop reversed dY sgd dX
  end.

Definition reapply_bwd (backprops : list (BackwardRef Sgd A))
  : ref → option Sgd → M (store A) (option ref) := λ dY sgd,
  reapply_bwd_loop (reverse backprops) dY sgd None.

(** [reapply(layer, n_times)]: the model returned has [reapply_fwd] as its
    [begin_update]. *)
Definition reapply (layer : LayerRef Sgd A) (n_times : Z)
  : ref → Q → store A →
    completion (ref * (ref → option Sgd → M (store A) (option ref))) * store A :=
  λ X drop h,
    match reapply_fwd_loop layer (Z.to_nat n_times) X drop None [] h with
    | (Ok (Some Y, backprops), h) => (Returns (Y, reapply_bwd backprops), h)
    | (Ok (None, _), h) => (RaisesUnboundLocalError, h)
    | (Raise e, h) => (Raises e, h)
    end.

End reapply.

(** ** [logistic] *)

(** On arrays of real numbers.  The argument is an array object (for any
    other value the code makes an array of it first); [xp.minimum(X, 10.0, X)]
    and [xp.maximum(X, -10.0, X)] write their result into [X] itself. *)
Definition logistic {Sgd} : LayerRef Sgd R := λ X drop,
  x <~ deref X;;
  _ <~ assign X (amap (λ v, Rmin v 10) x);;
  x <~ deref X;;
  _ <~ assign X (amap (λ v, Rmax v (-10)) x);;
  x <~ deref X;;
  Y <~ new (amap (λ v, 1 / (1 + exp (- v)))%R x);;
  let logistic_bwd : BackwardRef Sgd R := λ dY sgd,
    dy <~ deref dY;;
    y <~ deref Y;;
    dX <~ lift (binop Rmult dy (amap (λ v, v * (1 - v))%R y));;
    new dX in
  ret_s (Y, logistic_bwd).

(** *** Sums of gradients *)

Section store_vocabulary.
Context {Sgd : Type} `{Scalar A}.

(** The entrywise sum of two arrays of one shape. *)
Definition add_arrays (a b : ndarray A) : ndarray A :=
  NDArray (shape a) (zip_with sadd (data a) (data b)).

(** The sum of a non-empty list of arrays, added from the left. *)
Definition sum_arrays (l : list (ndarray A)) : option (ndarray A) :=
  match l with
  | [] => None
  | v :: l => Some (foldl add_arrays v l)
  end.

(** A callback that computes [g] of the array it is given into a new object
    and changes no object that exists. *)
Definition fresh_callback (backprop : BackwardRef Sgd A) (g : ndarray A → ndarray A)
  : Prop :=
  ∀ sgd h r v, h !! r = Some v →
    ∃ ext r', backprop r sgd h = (Ok r', h ++ ext) ∧ length h ≤ r' ∧
              (h ++ ext) !! r' = Some (g v).

(** The gradients that a list of such callbacks computes one from the
    other, the first callback of the list being the first to run. *)
Fixpoint gradients (gs : list (ndarray A → ndarray A)) (v : ndarray A)
  : list (ndarray A) :=
  match gs with
  | [] => []
  | g :: gs => g v :: gradients gs (g v)
  end.

(** The layer applied [n] times, each time to the output of the last. *)
Fixpoint iterate_layer (layer : LayerRef Sgd A) (n : nat) (X : ref) (drop : Q)
  : M (store A) ref :=
  match n with
  | O => ret_s X
  | S n => '(Y, _) <~ layer X drop;; iterate_layer layer n Y drop
  end.

End store_vocabulary.

(** The clamp and the logistic function of [logistic]. *)
Definition clip10 (v : R) : R := Rmax (Rmin v 10) (-10).

Definition sigmoid (v : R) : R := (1 / (1 + exp (- v)))%R.

(** ** [SpacyVectors] *)

Section SpacyVectors.
Context {Sgd : Type} `{Scalar A}.

(** The attribute [orth] of a token, the identifier of its text, belongs to
    the token class and is a parameter. *)
Variable token_orth : Token → N.

(** The rows of the vector table that the inner loop writes into [indices],
    one for each token. *)
Definition vector_indices (doc : Doc (Vocab A)) : ndarray Z :=
  NDArray [length (tokens doc)]
    ((λ word,
        match key2row (vectors (doc_vocab doc)) !! token_orth word with
        | Some row => Z.of_nat row
        | None => 0%Z
        end) <$> tokens doc).

(** The layer has no callback: the second component is [None]. *)
Definition SpacyVectors (docs : list (Doc (Vocab A))) (drop : Q)
  : result (list (ndarray A) *
            option (Backward Sgd (list (ndarray A)) (list (Doc (Vocab A))))) :=
  batch <- map_result (λ doc,
             let indices := vector_indices doc in
             getitem_rows (vectors_data (vectors (doc_vocab doc))) indices) docs;;
  Ok (batch, None).

End SpacyVectors.

(** *** [SpacyVectors] *)

(** The row of the table that stands for a token: the row of its identifier,
    or row 0 when the table does not have the identifier. *)
Definition vector_row {A} (token_orth : Token → N) (doc : Doc (Vocab A)) (word : Token)
  : nat :=
  default 0 (key2row (vectors (doc_vocab doc)) !! token_orth word).

(** A document whose table is an [n] by [d] matrix with all rows of
    [key2row] in it, and with a row 0 unless the document is empty. *)
Definition table_covers `{Scalar A} (doc : Doc (Vocab A)) (n d : nat) : Prop :=
  shape (vectors_data (vectors (doc_vocab doc))) = [n; d] ∧
  well_formed (vectors_data (vectors (doc_vocab doc))) ∧
  map_Forall (λ _ row, row < n) (key2row (vectors (doc_vocab doc))) ∧
  (tokens doc = [] ∨ 0 < n).

(** *** [_apply_mask] *)

(** The tokens of a batch, one document after the other: token [i] of this
    list is the one that entry [i] of the mask stands for. *)
Definition batch_tokens {V} (docs : list (Doc V)) : list Token :=
  concat (tokens <$> docs).

(** The document that [_apply_mask] builds when it keeps every word: the
    words of [doc], each followed by one space or none. *)
Definition rebuilt {V} (doc : Doc V) : Doc V :=
  new_Doc (doc_vocab doc) (text <$> tokens doc)
    ((λ w, string_bool (whitespace_ w)) <$> tokens doc).

(** *** [link_vectors_to_models] *)

(** What a call prints: the warning, for a table without a name whose data
    is a non-empty matrix. *)
Definition link_warning {A} (vocab : Vocab A) : list printed :=
  match name (vectors vocab), shape (vectors_data (vectors vocab)) with
  | None, [rows; cols] =>
      if decide (rows * cols ≠ 0) then [Warning_unnamed_vectors rows cols] else []
  | _, _ => []
  end.

(** *** [PrecomputableAffine.backward] *)

(** The row of [X] that the index [i] picks in [X[ids]], for [X] with [T]
    rows: a negative index counts from the end. *)
Definition picked_row (T : nat) (i : Z) : nat :=
  Z.to_nat (if bool_decide (i < 0)%Z then i + Z.of_nat T else i)%Z.

(** The shapes of a call of [backward]: the parameters and their gradients
    as the layer declares them, an input [X] of [T] rows, a gradient [dY]
    and an index array [ids] for a batch of [N], and every index a row of
    [X], counted from the start or from the end. *)
Definition backward_shapes `{Scalar A} (self : PrecomputableAffine.t A)
    (X dY : ndarray A) (ids : ndarray Z) (N T : nat) : Prop :=
  let nO := PrecomputableAffine.nO self in
  let nI := PrecomputableAffine.nI self in
  let nF := PrecomputableAffine.nF self in
  let nP := PrecomputableAffine.nP self in
  (shape (PrecomputableAffine.W self) = [nF; nO; nP; nI] ∧
   well_formed (PrecomputableAffine.W self)) ∧
  (shape (PrecomputableAffine.d_W self) = [nF; nO; nP; nI] ∧
   well_formed (PrecomputableAffine.d_W self)) ∧
  (shape (PrecomputableAffine.d_b self) = [nO; nP] ∧
   well_formed (PrecomputableAffine.d_b self)) ∧
  (shape (PrecomputableAffine.d_pad self) = [1; nF; nO; nP] ∧
   well_formed (PrecomputableAffine.d_pad self)) ∧
  (shape X = [T; nI] ∧ well_formed X) ∧
  (shape dY = [N; nO; nP] ∧ well_formed dY) ∧
  (shape ids = [N; nF] ∧ well_formed ids) ∧
  Forall (λ i, - Z.of_nat T ≤ i < Z.of_nat T)%Z (data ids).

(** The store after the optimizer, when there is one. *)
Definition after_sgd {A} (sgd : option (PrecomputableAffine.Optimizer A))
    (mid : PrecomputableAffine.t A) : PrecomputableAffine.t A :=
  match sgd with
  | Some sgd => sgd mid
  | None => mid
  end.

(** ** [_preprocess_doc] and [preprocess_doc] *)

(** [arr.shape[0]]: IndexError on a 0-d array. *)
Definition shape0 {B} (arr : ndarray B) : result nat :=
  match shape arr with
  | d :: _ => Ok d
  | [] => Raise (IndexError None)
  end.

(** [numpy.concatenate(arrays)], along the first axis: ValueError when
    there is no array, when an array is 0-d, and when the arrays differ in
    another dimension than the first. *)
Definition np_concatenate {B} (arrays : list (ndarray B)) : result (ndarray B) :=
  match arrays with
  | [] => Raise ValueError
  | a :: _ =>
      match shape a with
      | [] => Raise ValueError
      | _ :: rest =>
          if decide (Forall (λ x, tail (shape x) = rest ∧ shape x ≠ []) arrays) then
            Ok (NDArray (sum_list ((λ x, default 0 (head (shape x))) <$> arrays) :: rest)
                  (arrays ≫= data))
          else Raise ValueError
      end
  end.

Section preprocess_doc.
Context {Sgd V : Type} `{Scalar A}.

(** [doc.to_array(LOWER)] and [doc.to_array([LOWER])]: the identifiers of
    the lower-cased forms of the tokens.  The method belongs to the
    document class and is a parameter, one for each form of the call. *)
Variable to_array_LOWER : Doc V → ndarray N.
Variable to_array_LOWER_list : Doc V → ndarray N.

(** The layers have no callback: the second component is [None]. *)
Definition _preprocess_doc (docs : list (Doc V)) (drop : Q)
  : result ((ndarray N * ndarray A * ndarray nat) *
            option (Backward Sgd (ndarray A) (list (Doc V)))) :=
  let keys := to_array_LOWER <$> docs in
  lengths <- map_result shape0 keys;;
  let lengths := NDArray [length lengths] lengths in
  keys <- np_concatenate keys;;
  let vals := allocate (shape keys) in
  Ok ((keys, vals, lengths), None).

Definition preprocess_doc (docs : list (Doc V)) (drop : Q)
  : result ((ndarray N * ndarray A * ndarray nat) *
            option (Backward Sgd (ndarray A) (list (Doc V)))) :=
  let keys := to_array_LOWER_list <$> docs in
  lengths <- map_result shape0 keys;;
  let lengths := NDArray [length lengths] lengths in
  keys <- np_concatenate keys;;
  n <- shape0 keys;;
  let vals := amap (λ x, sadd x s1) (allocate [n]) in
  Ok ((keys, vals, lengths), None).

End preprocess_doc.

(** * Properties *)

(** ** [cosine] *)

Lemma dot_sum_zeros (n : nat) : dot_sum (float_zeros n) (float_zeros n) = 0%float.
Proof.
  unfold dot_sum, float_zeros.
  induction n as [|n IH]; [reflexivity|].
  cbn [replicate zip zip_with foldl]. exact IH.
Qed.

Lemma linalg_norm_zeros (n : nat) : (linalg_norm (float_zeros n) =? 0)%float = true.
Proof. unfold linalg_norm. rewrite dot_sum_zeros. reflexivity. Qed.

(** C9.  [cosine a b] is the int 0 whenever the norm computed for either
    vector compares equal to 0.0; otherwise, for two vectors of one length,
    it is their dot product divided by the product of the two norms.  In
    particular the cosine of any vector with a vector of zeros, on either
    side and of any length, is 0. *)
Theorem cosine_correct (a b : list float) :
  ((linalg_norm a =? 0)%float = true ∨ (linalg_norm b =? 0)%float = true →
     cosine a b = Ok (PyInt 0)) ∧
  ((linalg_norm a =? 0)%float = false → (linalg_norm b =? 0)%float = false →
   length a = length b →
     cosine a b = Ok (PyFloat (dot_sum a b / (linalg_norm a * linalg_norm b))%float)) ∧
  (∀ n, cosine a (float_zeros n) = Ok (PyInt 0) ∧
        cosine (float_zeros n) a = Ok (PyInt 0)).
Proof.
  unfold cosine. repeat split.
  - intros [Hn | Hn]; rewrite Hn; [reflexivity|].
    by rewrite orb_true_r.
  - intros Ha Hb Hlen. rewrite Ha, Hb. cbn [orb].
    unfold dot. by rewrite decide_True.
  - rewrite linalg_norm_zeros. by rewrite orb_true_r.
  - by rewrite linalg_norm_zeros.
Qed.

Lemma cosine_correct_witness :
  cosine [3; 4]%float [3; 4]%float = Ok (PyFloat 1%float) ∧
  cosine [3; 4]%float [0; 0]%float = Ok (PyInt 0).
Proof.
  split.
  - apply (proj1 (proj2 (cosine_correct [3; 4]%float [3; 4]%float))); reflexivity.
  - apply (proj1 (cosine_correct [3; 4]%float [0; 0]%float)). right. reflexivity.
Defined.

(** ** [concatenate_lists] *)

(** C10.  With no layer argument [concatenate_lists] does not fail: it
    returns the framework's null operation, whose forward output is its
    input and whose callback returns the gradient it is given. *)
Theorem concatenate_lists_no_layers {Sgd : Type} `{Scalar A}
    (concatenate : list (Layer Sgd (list (ndarray A)) (ndarray A)) →
                   Layer Sgd (list (ndarray A)) (ndarray A))
    (drop_factor : option Q) (Xs : list (ndarray A)) (drop : Q) :
  concatenate_lists concatenate [] drop_factor = noop ∧
  ∃ bwd, concatenate_lists concatenate [] drop_factor Xs drop = Ok (Xs, bwd) ∧
         ∀ D sgd, bwd D sgd = Ok D.
Proof.
  split; [reflexivity|].
  eexists. split; [reflexivity|]. reflexivity.
Qed.

(** ** [_replace_word] *)

(** C4.  Let [roll] be the value that [numpy.random.random()] draws.  Below
    0.8 the result is the marker text; from 0.8 and below 0.9 it is whatever
    the sampler's [next] returns, run on the state after the draw; from 0.9
    on it is the word itself.  The three cases cut [0, 1) into intervals of
    length 0.8, 0.1 and 0.1. *)
Theorem _replace_word_partition `{NumpyRandom G}
    (word : string) (random_words : _RandomWords) (g : G) :
  let roll := (random_random g).1 in
  let g' := (random_random g).2 in
  (0 <= roll ∧ roll < 1)%Q ∧
  ((roll < 8 # 10)%Q →
     _replace_word word "[MASK]" (random_words, g) = (Ok "[MASK]"%string, (random_words, g'))) ∧
  ((8 # 10 <= roll)%Q → (roll < 9 # 10)%Q →
     _replace_word word "[MASK]" (random_words, g) = next (random_words, g')) ∧
  ((9 # 10 <= roll)%Q →
     _replace_word word "[MASK]" (random_words, g) = (Ok word, (random_words, g'))).
Proof.
  intros roll g'. split; [apply random_random_range|].
  unfold _replace_word, bind_s, draw. subst roll g'.
  destruct (random_random g) as [roll g'] eqn:Hdraw. cbn [fst snd].
  repeat split.
  - intros Hlt. destruct (Qlt_le_dec roll (8 # 10)) as [_|Hle]; [reflexivity|].
    exfalso. by apply (Qlt_not_le _ _ Hlt).
  - intros Hle Hlt.
    destruct (Qlt_le_dec roll (8 # 10)) as [Hlt'|_].
    { exfalso. by apply (Qlt_not_le _ _ Hlt'). }
    destruct (Qlt_le_dec roll (9 # 10)) as [_|Hle']; [reflexivity|].
    exfalso. by apply (Qlt_not_le _ _ Hlt).
  - intros Hle.
    assert (8 # 10 <= roll)%Q as Hle8.
    { eapply Qle_trans; [|exact Hle]. by compute. }
    destruct (Qlt_le_dec roll (8 # 10)) as [Hlt'|_].
    { exfalso. by apply (Qlt_not_le _ _ Hlt'). }
    destruct (Qlt_le_dec roll (9 # 10)) as [Hlt'|_]; [|reflexivity].
    exfalso. by apply (Qlt_not_le _ _ Hlt').
Qed.

(** ** [link_vectors_to_models] *)

(** C6.  The call raises only on an unnamed, non-empty table whose data
    is not 2-D (the warning cannot be formatted).  When it returns, every
    lexeme has the rank that [key2row] gives its identifier, or 0 when the
    identifier is absent, and is otherwise as before; the name of the table
    is the name it had, or the constant key when it had none; and a second
    call, in any world, returns and leaves that name as it is. *)
Theorem link_vectors_to_models_correct {A : Type} (device : string)
    (vocab : Vocab A) (world : World A) :
  match link_vectors_to_models device (vocab, world) with
  | (Ok _, (vocab', world')) =>
      Forall2 (λ word word',
                 rank word' = default 0 (key2row (vectors vocab') !! orth word') ∧
                 orth word' = orth word ∧ lex_text word' = lex_text word ∧
                 prob word' = prob word)
              (lexemes vocab) (lexemes vocab') ∧
      key2row (vectors vocab') = key2row (vectors vocab) ∧
      name (vectors vocab') = Some (default VECTORS_KEY (name (vectors vocab))) ∧
      ∀ world2, ∃ vocab'' world'',
        link_vectors_to_models device (vocab', world2) = (Ok tt, (vocab'', world'')) ∧
        name (vectors vocab'') = name (vectors vocab')
  | (Raise _, _) =>
      name (vectors vocab) = None ∧
      size_of (shape (vectors_data (vectors vocab))) ≠ 0 ∧
      length (shape (vectors_data (vectors vocab))) ≠ 2
  end.
Proof.
  unfold link_vectors_to_models.
  destruct vocab as [lexs [nm dat k2r]]; cbn [vectors lexemes name vectors_data key2row].
  assert (∀ k : gmap N nat, Forall2 (λ word word',
            rank word' = default 0 (k !! orth word') ∧
            orth word' = orth word ∧ lex_text word' = lex_text word ∧
            prob word' = prob word)
          lexs ((λ word, match k !! orth word with
                         | Some row => set_rank row word
                         | None => set_rank 0 word
                         end) <$> lexs)) as Hranks.
  { intros k. induction lexs as [|w lexs IH]; [constructor|].
    cbn [fmap list_fmap]. constructor; [|exact IH].
    destruct (k !! orth w) as [row|] eqn:Hrow; cbn; by rewrite Hrow. }
  destruct nm as [n|].
  - cbn. repeat split; [apply Hranks|].
    intros world2. eexists _, _. split; reflexivity.
  - destruct (decide (size_of (shape dat) ≠ 0)) as [Hsize|Hsize].
    + destruct (shape dat) as [|rows [|cols [|more rest]]] eqn:Hshape; cbn.
      * split; [done|]. split; [exact Hsize|done].
      * split; [done|]. split; [exact Hsize|done].
      * repeat split; [apply Hranks|].
        intros world2. eexists _, _. split; reflexivity.
      * split; [done|]. split; [exact Hsize|done].
    + cbn. repeat split; [apply Hranks|].
      intros world2. eexists _, _. split; reflexivity.
Qed.

(** ** A generator that satisfies numpy's contract *)

Lemma counter_uniform_length (n g : nat) : length (counter_uniform n g).1 = n.
Proof. unfold counter_uniform. cbn [fst]. by rewrite length_fmap, length_seq. Qed.

Lemma tenth_range (k : nat) : (0 <= Z.of_nat (k mod 10) # 10 ∧ Z.of_nat (k mod 10) # 10 < 1)%Q.
Proof.
  pose proof (Nat.mod_upper_bound k 10).
  unfold Qle, Qlt. cbn [Qnum Qden]. lia.
Qed.

Lemma counter_uniform_range (n g : nat) :
  Forall (λ u, 0 <= u ∧ u < 1)%Q (counter_uniform n g).1.
Proof.
  unfold counter_uniform. cbn [fst]. apply Forall_fmap, Forall_forall.
  intros i _. apply tenth_range.
Qed.

Lemma counter_choice_empty (size : nat) (p : list R) (g : nat) :
  0 < size → (counter_choice 0 size p g).1 = Raise ValueError.
Proof.
  intros Hsize. unfold counter_choice.
  rewrite decide_True by done. by rewrite decide_False by lia.
Qed.

Lemma counter_choice_ok (a size : nat) (p : list R) (g : nat) :
  0 < a → length p = a → ssum p = 1%R → Forall (λ x, 0 <= x)%R p →
  ∃ l, (counter_choice a size p g).1 = Ok l ∧ length l = size ∧ Forall (λ i, i < a) l.
Proof.
  intros Ha _ _ _. unfold counter_choice. rewrite decide_False by lia.
  eexists. split; [reflexivity|]. split.
  - by rewrite length_fmap, length_seq.
  - apply Forall_fmap, Forall_forall. intros i _. apply Nat.mod_upper_bound. lia.
Qed.

#[global] Instance counter_NumpyRandom : NumpyRandom nat := {|
  random_uniform := counter_uniform;
  random_random := counter_random;
  random_choice := counter_choice;
  random_uniform_length := counter_uniform_length;
  random_uniform_range := counter_uniform_range;
  random_random_range := λ g, tenth_range g;
  random_choice_empty := counter_choice_empty;
  random_choice_ok := counter_choice_ok |}.

(** ** Row-major indexing and broadcasting *)

Lemma div_mul_add (i c j : nat) : j < c → (i * c + j) / c = i.
Proof. intros Hj. symmetry. apply (Nat.div_unique _ _ _ j); lia. Qed.

Lemma mod_mul_add (i c j : nat) : j < c → (i * c + j) mod c = j.
Proof. intros Hj. symmetry. apply (Nat.mod_unique _ _ i); lia. Qed.

Lemma size_of_nil : size_of [] = 1.
Proof. reflexivity. Qed.

Lemma size_of_cons (d : nat) (sh : list nat) : size_of (d :: sh) = d * size_of sh.
Proof. reflexivity. Qed.

Lemma size_of_app (pre suf : list nat) : size_of (pre ++ suf) = size_of pre * size_of suf.
Proof.
  induction pre as [|d pre IH].
  - rewrite app_nil_l, size_of_nil. lia.
  - rewrite <- app_comm_cons, !size_of_cons, IH. lia.
Qed.

Lemma size_of_replicate_1 (k : nat) : size_of (replicate k 1) = 1.
Proof. induction k as [|k IH]; [reflexivity|]. rewrite replicate_S, size_of_cons, IH. lia. Qed.

Lemma length_unravel (sh : list nat) (p : nat) : length (unravel sh p) = length sh.
Proof. revert p. induction sh as [|d sh IH]; intros p; cbn; [done|]. by rewrite IH. Qed.

Lemma unravel_app (pre suf : list nat) (p : nat) :
  p < size_of (pre ++ suf) →
  unravel (pre ++ suf) p = unravel pre (p / size_of suf) ++ unravel suf (p mod size_of suf).
Proof.
  revert p. induction pre as [|d pre IH]; intros p Hp.
  { rewrite app_nil_l in *. by rewrite Nat.mod_small. }
  rewrite <- app_comm_cons, size_of_cons, size_of_app in Hp.
  assert (size_of suf ≠ 0) as Hnz by lia.
  cbn [app unravel]. rewrite size_of_app.
  rewrite IH by (rewrite size_of_app; apply Nat.mod_upper_bound; lia).
  f_equal.
  - by rewrite Nat.Div0.div_div, (Nat.mul_comm (size_of suf)).
  - f_equal.
    + rewrite (Nat.mul_comm (size_of pre)), Nat.Div0.mod_mul_r.
      rewrite (Nat.mul_comm (size_of suf)), Nat.div_add by done.
      rewrite Nat.div_small; [done|]. by apply Nat.mod_upper_bound.
    + rewrite (Nat.mul_comm (size_of pre)), Nat.Div0.mod_mul_r.
      rewrite (Nat.mul_comm (size_of suf)), Nat.Div0.mod_add. by rewrite Nat.Div0.mod_mod.
Qed.

Lemma ravel_app (pre suf a b : list nat) :
  length a = length pre →
  ravel (pre ++ suf) (a ++ b) = ravel pre a * size_of suf + ravel suf b.
Proof.
  revert a. induction pre as [|d pre IH]; intros [|i a] Hlen; try done.
  cbn [app ravel]. rewrite IH, size_of_app by (cbn in Hlen; lia). lia.
Qed.

Lemma unravel_in_bounds (sh : list nat) (p : nat) :
  p < size_of sh → in_bounds sh (unravel sh p).
Proof.
  revert p. induction sh as [|d sh IH]; intros p Hp; [constructor|].
  rewrite size_of_cons in Hp. cbn [unravel]. constructor.
  - apply Nat.Div0.div_lt_upper_bound. lia.
  - apply IH. apply Nat.mod_upper_bound. lia.
Qed.

Lemma ravel_unravel (sh : list nat) (p : nat) :
  p < size_of sh → ravel sh (unravel sh p) = p.
Proof.
  revert p. induction sh as [|d sh IH]; intros p Hp.
  { cbn in *. lia. }
  rewrite size_of_cons in Hp. cbn [unravel ravel].
  rewrite IH by (apply Nat.mod_upper_bound; lia).
  pose proof (Nat.div_mod_eq p (size_of sh)). lia.
Qed.

(** Reading an axis of length 1 at index 0 changes nothing within bounds. *)
Lemma zip_with_broadcast_in_bounds (sh idx : list nat) :
  in_bounds sh idx →
  zip_with (λ f i, if decide (f = 1) then 0 else i) sh idx = idx.
Proof.
  induction 1 as [|i d idx sh Hlt _ IH]; [reflexivity|].
  cbn [zip_with]. rewrite IH. f_equal. case_decide; lia.
Qed.

Lemma zip_with_broadcast_ones (k : nat) (idx : list nat) :
  length idx = k →
  zip_with (λ f i, if decide (f = 1) then 0 else i) (replicate k 1) idx = replicate k 0.
Proof.
  revert idx. induction k as [|k IH]; intros [|i idx] Hlen; try done.
  cbn [replicate zip_with]. rewrite IH by (cbn in Hlen; lia). done.
Qed.

Lemma ravel_ones_zeros (k : nat) : ravel (replicate k 1) (replicate k 0) = 0.
Proof. induction k as [|k IH]; [reflexivity|]. cbn [replicate ravel]. by rewrite IH. Qed.

Lemma pad_shape_same (sh : list nat) : pad_shape (length sh) sh = sh.
Proof. unfold pad_shape. by rewrite Nat.sub_diag. Qed.

(** An operand whose shape is the end of the result's shape is read at the
    position within one block of that shape. *)
Lemma bindex_suffix (pre suf : list nat) (p : nat) :
  p < size_of (pre ++ suf) →
  bindex suf (pre ++ suf) p = p mod size_of suf.
Proof.
  intros Hp. rewrite size_of_app in Hp.
  assert (p mod size_of suf < size_of suf) as Hq by (apply Nat.mod_upper_bound; lia).
  unfold bindex, pad_shape.
  rewrite length_app, Nat.add_sub. rewrite unravel_app by (rewrite size_of_app; lia).
  rewrite zip_with_app by by rewrite length_replicate, length_unravel.
  rewrite zip_with_broadcast_ones by apply length_unravel.
  rewrite zip_with_broadcast_in_bounds by by apply unravel_in_bounds.
  rewrite ravel_app by by rewrite !length_replicate.
  rewrite ravel_ones_zeros, ravel_unravel by done. lia.
Qed.

Lemma bindex_same (sh : list nat) (p : nat) : p < size_of sh → bindex sh sh p = p.
Proof.
  intros Hp. rewrite <- (app_nil_l sh) at 2. rewrite bindex_suffix by done.
  by apply Nat.mod_small.
Qed.

(** An operand whose shape is the start of the result's shape followed by
    axes of length 1 is read at the position of the block. *)
Lemma bindex_trailing_ones (pre post : list nat) (p : nat) :
  p < size_of (pre ++ post) →
  bindex (pre ++ replicate (length post) 1) (pre ++ post) p = p / size_of post.
Proof.
  intros Hp. rewrite size_of_app in Hp.
  assert (p / size_of post < size_of pre) as Hq.
  { apply Nat.Div0.div_lt_upper_bound. lia. }
  unfold bindex, pad_shape.
  rewrite !length_app, length_replicate, Nat.sub_diag. cbn [replicate app].
  rewrite unravel_app by (rewrite size_of_app; lia).
  rewrite zip_with_app by by rewrite length_unravel.
  rewrite zip_with_broadcast_ones by apply length_unravel.
  rewrite zip_with_broadcast_in_bounds by by apply unravel_in_bounds.
  rewrite ravel_app by by rewrite length_unravel.
  rewrite ravel_ones_zeros, ravel_unravel, size_of_replicate_1 by done. lia.
Qed.

(** ** Shapes that broadcast *)

Lemma broadcast_dim_same (a : nat) : broadcast_dim a a = Some a.
Proof. unfold broadcast_dim. by rewrite decide_True. Qed.

Lemma broadcast_dim_1_r (a : nat) : broadcast_dim a 1 = Some a.
Proof. unfold broadcast_dim. repeat case_decide; congruence. Qed.

Lemma broadcast_dims_app (a b c d ab cd : list nat) :
  broadcast_dims a c = Some ab → broadcast_dims b d = Some cd →
  broadcast_dims (a ++ b) (c ++ d) = Some (ab ++ cd).
Proof.
  revert c ab. induction a as [|x a IH]; intros [|y c] ab Hac Hbd; try done.
  { cbn in Hac. by simplify_eq. }
  cbn [app broadcast_dims] in *.
  destruct (broadcast_dim x y) as [z|]; [|done]. cbn [mbind option_bind] in *.
  destruct (broadcast_dims a c) as [sh|] eqn:Hsh; [|done]. cbn [mbind option_bind] in *.
  simplify_eq. by rewrite (IH c sh).
Qed.

Lemma broadcast_dims_same (sh : list nat) : broadcast_dims sh sh = Some sh.
Proof.
  induction sh as [|d sh IH]; [reflexivity|].
  cbn [broadcast_dims]. by rewrite broadcast_dim_same, IH.
Qed.

Lemma broadcast_dims_ones_r (sh : list nat) :
  broadcast_dims sh (replicate (length sh) 1) = Some sh.
Proof.
  induction sh as [|d sh IH]; [reflexivity|].
  cbn [length replicate broadcast_dims]. by rewrite broadcast_dim_1_r, IH.
Qed.

Lemma broadcast_shapes_same (sh : list nat) : broadcast_shapes sh sh = Some sh.
Proof.
  unfold broadcast_shapes. rewrite Nat.max_id, pad_shape_same. apply broadcast_dims_same.
Qed.

Lemma broadcast_shapes_trailing_ones (pre post : list nat) :
  broadcast_shapes (pre ++ post) (pre ++ replicate (length post) 1) = Some (pre ++ post).
Proof.
  unfold broadcast_shapes, pad_shape.
  rewrite !length_app, length_replicate, Nat.max_id, Nat.sub_diag. cbn [replicate app].
  apply broadcast_dims_app; [apply broadcast_dims_same | apply broadcast_dims_ones_r].
Qed.

Lemma broadcast_shapes_suffix (pre suf : list nat) :
  broadcast_shapes (pre ++ suf) suf = Some (pre ++ suf).
Proof.
  unfold broadcast_shapes, pad_shape.
  rewrite !length_app.
  replace ((length pre + length suf) `max` length suf) with (length pre + length suf) by lia.
  rewrite Nat.sub_diag, Nat.add_sub. cbn [replicate app].
  apply broadcast_dims_app; [apply broadcast_dims_ones_r | apply broadcast_dims_same].
Qed.

(** ** Entries of arrays *)

Section arrays.
Context `{Scalar A}.

Lemma length_tabulate {B} (n : nat) (f : nat → B) : length (tabulate n f) = n.
Proof. unfold tabulate. by rewrite length_fmap, length_seq. Qed.

Lemma lookup_tabulate {B} (n : nat) (f : nat → B) (p : nat) :
  p < n → tabulate n f !! p = Some (f p).
Proof. intros Hp. unfold tabulate. by rewrite list_lookup_fmap, lookup_seq_lt. Qed.

Lemma item_lookup (d : list A) (p : nat) (x : A) : d !! p = Some x → item d p = x.
Proof. intros Hx. unfold item. by rewrite nth_lookup, Hx. Qed.

Lemma item_tabulate (n : nat) (f : nat → A) (p : nat) : p < n → item (tabulate n f) p = f p.
Proof. intros Hp. apply item_lookup. by apply lookup_tabulate. Qed.

Lemma item_replicate (n p : nat) : item (replicate n s0) p = s0.
Proof.
  unfold item. rewrite nth_lookup.
  destruct (decide (p < n)).
  - by rewrite lookup_replicate_2.
  - by rewrite (proj1 (lookup_replicate_None n s0 p)) by lia.
Qed.

Lemma item_imap (f : nat → A → A) (d : list A) (p : nat) :
  p < length d → item (imap f d) p = f p (item d p).
Proof.
  intros Hp. destruct (lookup_lt_is_Some_2 d p Hp) as [x Hx].
  rewrite (item_lookup d p x Hx). apply item_lookup.
  by rewrite list_lookup_imap, Hx.
Qed.

Lemma tabulate_ext {B} (n : nat) (f g : nat → B) :
  (∀ i, i < n → f i = g i) → tabulate n f = tabulate n g.
Proof.
  intros Hfg. unfold tabulate. apply list_fmap_ext.
  intros i x Hx. apply lookup_seq in Hx as [-> ?]. by apply Hfg.
Qed.

Lemma item_app_l (d1 d2 : list A) (p : nat) :
  p < length d1 → item (d1 ++ d2) p = item d1 p.
Proof. intros Hp. unfold item. by rewrite !nth_lookup, lookup_app_l. Qed.

Lemma item_app_r (d1 d2 : list A) (p : nat) :
  item (d1 ++ d2) (length d1 + p) = item d2 p.
Proof.
  unfold item. rewrite !nth_lookup, lookup_app_r by lia.
  by replace (length d1 + p - length d1) with p by lia.
Qed.

Lemma ssum_nil : ssum (A:=A) [] = s0.
Proof. reflexivity. Qed.

Lemma ssum_cons (x : A) (l : list A) : ssum (x :: l) = sadd x (ssum l).
Proof. reflexivity. Qed.

Lemma of_nat_1 : of_nat 1 = s1.
Proof. cbn. apply sadd_0_r. Qed.

End arrays.

(** ** Sums along an axis and broadcast operations *)

Section reductions.
Context `{Scalar A}.

Lemma sum_axis_0_spec (a : ndarray A) (N : nat) (post : list nat) :
  shape a = N :: post →
  ∃ s, sum_axis 0 a = Ok s ∧ shape s = post ∧ well_formed s ∧
       ∀ q, q < size_of post →
         item (data s) q = ssum (tabulate N (λ t, item (data a) (t * size_of post + q))).
Proof.
  intros Hshape. unfold sum_axis. rewrite Hshape. cbn [drop take app].
  eexists. split; [reflexivity|]. cbn [shape data]. split; [done|]. split.
  { unfold well_formed. cbn [shape data]. rewrite length_tabulate, size_of_nil. lia. }
  intros q Hq. rewrite item_tabulate by (rewrite size_of_nil; lia).
  f_equal. apply tabulate_ext. intros t Ht.
  by rewrite Nat.div_small, Nat.mod_small by done.
Qed.

Lemma sum_axis_1_matrix (a : ndarray A) (N F : nat) :
  shape a = [N; F] →
  ∃ s, sum_axis 1 a = Ok s ∧ shape s = [N] ∧ length (data s) = N ∧
       ∀ n, n < N → item (data s) n = ssum (tabulate F (λ t, item (data a) (n * F + t))).
Proof.
  intros Hshape. unfold sum_axis. rewrite Hshape. cbn [drop take app].
  eexists. split; [reflexivity|]. cbn [shape data]. split; [done|].
  rewrite length_tabulate, size_of_cons, size_of_nil. split; [lia|].
  intros n Hn. rewrite item_tabulate by lia.
  f_equal. apply tabulate_ext. intros t Ht.
  by rewrite Nat.div_1_r, Nat.mod_1_r, Nat.mul_1_r, Nat.add_0_r.
Qed.

Lemma binop_trailing_ones (f : A → A → A) (a b : ndarray A) (pre post : list nat) :
  shape a = pre ++ post → shape b = pre ++ replicate (length post) 1 →
  ∃ c, binop f a b = Ok c ∧ shape c = pre ++ post ∧ well_formed c ∧
       ∀ p, p < size_of (pre ++ post) →
         item (data c) p = f (item (data a) p) (item (data b) (p / size_of post)).
Proof.
  intros Ha Hb. unfold binop. rewrite Ha, Hb, broadcast_shapes_trailing_ones.
  eexists. split; [reflexivity|]. cbn [shape data]. split; [done|]. split.
  { unfold well_formed. cbn [shape data]. by rewrite length_tabulate. }
  intros p Hp. rewrite item_tabulate by done.
  by rewrite bindex_same, bindex_trailing_ones by done.
Qed.

Lemma iop_suffix (f : A → A → A) (a b : ndarray A) (pre suf : list nat) :
  shape a = pre ++ suf → well_formed a → shape b = suf →
  ∃ c, iop f a b = Ok c ∧ shape c = pre ++ suf ∧ well_formed c ∧
       ∀ p, p < size_of (pre ++ suf) →
         item (data c) p = f (item (data a) p) (item (data b) (p mod size_of suf)).
Proof.
  intros Ha Hwf Hb. unfold iop. rewrite Ha, Hb, decide_True by apply broadcast_shapes_suffix.
  unfold well_formed in Hwf. rewrite Ha in Hwf.
  eexists. split; [reflexivity|]. cbn [shape data]. split; [done|]. split.
  { unfold well_formed. cbn [shape data]. by rewrite length_imap. }
  intros p Hp. rewrite item_imap by lia. by rewrite bindex_suffix.
Qed.

Lemma of_nat_add (m n : nat) : of_nat (A:=A) (m + n) = sadd (of_nat m) (of_nat n).
Proof.
  induction m as [|m IH]; cbn [Nat.add of_nat]; [by rewrite sadd_0_l|].
  by rewrite IH, sadd_assoc.
Qed.

(** Multiplying by a count of flags is adding once for every flag set. *)
Lemma smul_of_nat_count (x : A) (flags : list bool) :
  smul x (of_nat (ssum (Nat.b2n <$> flags)))
  = ssum ((λ flag : bool, if flag then x else s0) <$> flags).
Proof.
  induction flags as [|flag flags IH]; cbn [fmap list_fmap ssum foldr].
  { apply smul_0_r. }
  fold (ssum (Nat.b2n <$> flags)) (ssum ((λ flag : bool, if flag then x else s0) <$> flags)).
  change (sadd (Nat.b2n flag) (ssum (Nat.b2n <$> flags)))
    with (Nat.b2n flag + ssum (Nat.b2n <$> flags)).
  rewrite of_nat_add, smul_add_distr_l, IH. f_equal.
  destruct flag; cbn [Nat.b2n].
  - rewrite of_nat_1. apply smul_1_r.
  - apply smul_0_r.
Qed.

Lemma tabulate_fmap {B C} (g : B → C) (n : nat) (f : nat → B) :
  g <$> tabulate n f = tabulate n (g ∘ f).
Proof. unfold tabulate. by rewrite <- list_fmap_compose. Qed.

End reductions.

(** ** [flatten] and [_flatten_add_lengths] *)

Section flatten_properties.
Context {Sgd : Type} `{Scalar A}.

Lemma slice_rows_from (start d : nat) (rest : list nat) (X : ndarray A) :
  shape X = d :: rest → start ≤ d →
  slice_rows start None X =
    Ok (NDArray (d - start :: rest)
          (take ((d - start) * size_of rest) (drop (start * size_of rest) (data X)))).
Proof.
  intros HX Hle. unfold slice_rows. rewrite HX.
  change (default d None) with d.
  replace (start `min` d) with start by lia.
  by replace (start `max` (d `min` d)) with d by lia.
Qed.

Lemma slice_rows_to (l d : nat) (rest : list nat) (X : ndarray A) :
  shape X = d :: rest → l ≤ d →
  slice_rows 0 (Some l) X = Ok (NDArray (l :: rest) (take (l * size_of rest) (data X))).
Proof.
  intros HX Hle. unfold slice_rows. rewrite HX.
  change (default d (Some l)) with l.
  replace (0 `min` d) with 0 by lia.
  replace (0 `max` (l `min` d)) with l by lia.
  rewrite Nat.sub_0_r. reflexivity.
Qed.

Lemma ops_unflatten_shapes (pad : nat) (rest : list nat) (lengths : list nat) :
  ∀ X : ndarray A,
    shape X = flat_rows pad lengths :: rest →
    ∃ parts, ops_unflatten X lengths pad = Ok parts ∧
             shape <$> parts = (λ l, l :: rest) <$> lengths.
Proof.
  induction lengths as [|l lengths IH]; intros X HX.
  { exists []. split; reflexivity. }
  cbn [ops_unflatten flat_rows foldr] in *. fold (flat_rows pad lengths) in HX.
  rewrite (slice_rows_from pad _ rest X HX) by lia. cbn [bind].
  rewrite (slice_rows_to l (pad + l + flat_rows pad lengths - pad) rest) by (done || lia).
  rewrite (slice_rows_from l (pad + l + flat_rows pad lengths - pad) rest) by (done || lia).
  cbn [bind].
  match goal with
  | |- context [ops_unflatten ?X2 lengths pad] =>
      destruct (IH X2) as (parts & -> & Hparts)
  end.
  { cbn [shape]. f_equal. lia. }
  eexists. split; [reflexivity|].
  cbn [fmap list_fmap shape]. by rewrite <- Hparts.
Qed.

Lemma ops_unflatten_data (pad : nat) (rest : list nat) (lengths : list nat) :
  ∀ X : ndarray A,
    shape X = flat_rows pad lengths :: rest → well_formed X →
    ops_unflatten X lengths pad =
      Ok (zip_with (λ l d, NDArray (l :: rest) d) lengths
            (unflat_data pad (size_of rest) lengths (data X))).
Proof.
  induction lengths as [|l lengths IH]; intros X HX Hwf; [reflexivity|].
  cbn [ops_unflatten flat_rows foldr unflat_data zip_with] in *.
  fold (flat_rows pad lengths) in HX.
  unfold well_formed in Hwf. rewrite HX in Hwf.
  cbn [size_of foldr] in Hwf. fold (size_of rest) in Hwf.
  set (inner := size_of rest) in *.
  rewrite (slice_rows_from pad _ rest X HX) by lia. cbn [bind].
  rewrite (slice_rows_to l (pad + l + flat_rows pad lengths - pad) rest) by (done || lia).
  rewrite (slice_rows_from l (pad + l + flat_rows pad lengths - pad) rest) by (done || lia).
  cbn [bind data]. fold inner.
  rewrite (take_ge (drop _ (data X))) by (rewrite length_drop; nia).
  rewrite IH; cbn [shape data].
  - rewrite (take_ge (drop _ (drop _ (data X)))) by (rewrite !length_drop; nia).
    reflexivity.
  - f_equal. lia.
  - unfold well_formed. cbn [shape data size_of foldr]. fold (size_of rest). fold inner.
    rewrite length_take, !length_drop. nia.
Qed.

Lemma unflat_data_flat (pad : nat) (rest : list nat) (seqs : list (ndarray A)) (more : list A) :
  Forall (λ s, tail (shape s) = rest ∧ shape s ≠ [] ∧ well_formed s) seqs →
  unflat_data pad (size_of rest) (seq_length <$> seqs)
    ((seqs ≫= λ s, replicate (pad * size_of rest) s0 ++ data s) ++ more) = data <$> seqs.
Proof.
  induction 1 as [|s seqs (Hrest & Hne & Hwf) _ IH]; [reflexivity|].
  cbn [fmap list_fmap unflat_data mbind list_bind].
  assert (length (data s) = seq_length s * size_of rest) as Hlen.
  { unfold well_formed in Hwf. unfold seq_length.
    destruct (shape s) as [|l r]; [done|]. cbn in Hrest. by subst r. }
  rewrite <- !(assoc_L (++)).
  rewrite drop_app_length' by by rewrite length_replicate.
  rewrite take_app_length' by done.
  rewrite drop_app_length' by done.
  f_equal. exact IH.
Qed.

Lemma zip_with_shape_data (rest : list nat) (seqs : list (ndarray A)) :
  Forall (λ s, tail (shape s) = rest ∧ shape s ≠ [] ∧ well_formed s) seqs →
  zip_with (λ l d, NDArray (l :: rest) d) (seq_length <$> seqs) (data <$> seqs) = seqs.
Proof.
  induction 1 as [|s seqs (Hrest & Hne & Hwf) _ IH]; [reflexivity|].
  cbn [fmap list_fmap zip_with]. f_equal; [|exact IH].
  destruct s as [[|l r] d]; [done|]. cbn in Hrest. by subst r.
Qed.

Lemma lengths_of_seqs (seqs : list (ndarray A)) :
  Forall (λ s, shape s ≠ []) seqs → lengths_of seqs = Ok (seq_length <$> seqs).
Proof.
  unfold lengths_of.
  induction 1 as [|s seqs Hne _ IH]; [reflexivity|].
  cbn [map_result fmap list_fmap]. rewrite IH.
  unfold len, seq_length. by destruct (shape s).
Qed.

Lemma length_flat_data (pad : nat) (rest : list nat) (seqs : list (ndarray A)) :
  Forall (λ s, tail (shape s) = rest ∧ shape s ≠ [] ∧ well_formed s) seqs →
  length ((seqs ≫= λ s, replicate (pad * size_of rest) s0 ++ data s)
            ++ replicate (pad * size_of rest) s0)
  = flat_rows pad (seq_length <$> seqs) * size_of rest.
Proof.
  induction 1 as [|s seqs (Hrest & Hne & Hwf) _ IH].
  { cbn [mbind list_bind app fmap list_fmap flat_rows foldr]. by rewrite length_replicate. }
  rewrite fmap_cons, bind_cons. cbn [flat_rows foldr].
  fold (flat_rows pad (seq_length <$> seqs)).
  rewrite <- !(assoc_L (++)), !length_app, length_replicate.
  rewrite length_app, length_replicate in IH. rewrite IH.
  assert (length (data s) = seq_length s * size_of rest) as ->; [|lia].
  unfold well_formed in Hwf. unfold seq_length.
  destruct (shape s) as [|l r]; [done|]. cbn in Hrest. by subst r.
Qed.

Lemma flat_rows_0 (lengths : list nat) : flat_rows 0 lengths = sum_list lengths.
Proof.
  induction lengths as [|l lengths IH]; [reflexivity|].
  cbn [flat_rows foldr sum_list sum_list_with]. fold (flat_rows 0 lengths).
  by rewrite IH.
Qed.

Lemma shapes_of_seqs (rest : list nat) (seqs : list (ndarray A)) :
  Forall (λ s, tail (shape s) = rest ∧ shape s ≠ [] ∧ well_formed s) seqs →
  shape <$> seqs = (λ l, l :: rest) <$> (seq_length <$> seqs).
Proof.
  induction 1 as [|s seqs (Hrest & Hne & Hwf) _ IH]; [reflexivity|].
  rewrite !fmap_cons. f_equal; [|exact IH].
  unfold seq_length. destruct (shape s) as [|l r]; [done|]. cbn in Hrest. by subst r.
Qed.

Lemma ops_flatten_nonempty (pad : nat) (rest : list nat) (s : ndarray A)
    (seqs : list (ndarray A)) :
  Forall (λ s, tail (shape s) = rest ∧ shape s ≠ [] ∧ well_formed s) (s :: seqs) →
  ops_flatten (s :: seqs) pad =
    Ok (NDArray (flat_rows pad (seq_length <$> s :: seqs) :: rest)
          (((s :: seqs) ≫= λ s, replicate (pad * size_of rest) s0 ++ data s)
             ++ replicate (pad * size_of rest) s0)).
Proof.
  intros Hall. unfold ops_flatten.
  pose proof (Forall_inv Hall) as (Hrest & Hne & _).
  destruct (shape s) as [|l r] eqn:Hs; [done|]. cbn in Hrest. subst r.
  rewrite decide_True.
  2:{ eapply Forall_impl; [exact Hall|]. by intros x (? & ? & ?). }
  do 3 f_equal. unfold flat_rows. generalize (s :: seqs). clear.
  intros l. induction l as [|x l IH]; [reflexivity|].
  rewrite fmap_cons. cbn [foldr]. by rewrite IH.
Qed.

(** Piece [i] that [ops_unflatten] cuts: the rows after [i + 1] paddings
    and the pieces before it. *)
Lemma unflat_data_lookup (pad inner : nat) (lengths : list nat) :
  ∀ (d : list A) (i l : nat), lengths !! i = Some l →
    unflat_data pad inner lengths d !! i
    = Some (take (l * inner)
              (drop ((pad * S i + sum_list (take i lengths)) * inner) d)).
Proof.
  induction lengths as [|l0 lengths IH]; intros d i l Hl; [done|].
  destruct i as [|i]; cbn [unflat_data].
  - injection Hl as ->. cbn [lookup list_lookup take sum_list sum_list_with].
    do 3 f_equal. lia.
  - cbn [lookup list_lookup] in *. change (take (S i) (l0 :: lengths)) with (l0 :: take i lengths).
    rewrite (IH _ i l Hl), !drop_drop. cbn [sum_list sum_list_with].
    do 3 f_equal. unfold Datatypes.id. ring.
Qed.

Lemma unflat_data_lengths (pad inner : nat) (lengths : list nat) :
  ∀ d : list A, length d = flat_rows pad lengths * inner →
    Forall2 (λ l piece, length piece = l * inner) lengths
            (unflat_data pad inner lengths d).
Proof.
  induction lengths as [|l lengths IH]; intros d Hd; [constructor|].
  cbn [unflat_data flat_rows foldr] in *. fold (flat_rows pad lengths) in Hd.
  rewrite !Nat.mul_add_distr_r in Hd.
  constructor.
  - rewrite length_take, length_drop. lia.
  - apply IH. rewrite !length_drop. lia.
Qed.

Lemma zip_with_well_formed (rest : list nat) (lengths : list nat) (pieces : list (list A)) :
  Forall2 (λ l piece, length piece = l * size_of rest) lengths pieces →
  Forall (λ s : ndarray A, tail (shape s) = rest ∧ shape s ≠ [] ∧ well_formed s)
         (zip_with (λ l d, NDArray (l :: rest) d) lengths pieces) ∧
  seq_length <$> zip_with (λ l d, NDArray (l :: rest) d) lengths pieces = lengths.
Proof.
  induction 1 as [|l piece lengths pieces Hlen _ [IH1 IH2]]; [by split|].
  cbn [zip_with]. split.
  - constructor; [|exact IH1]. by repeat split.
  - rewrite fmap_cons. by f_equal.
Qed.

Lemma zip_with_lookup_data (rest : list nat) (lengths : list nat) (pieces : list (list A))
    (i : nat) (part : ndarray A) :
  zip_with (λ l d, NDArray (l :: rest) d) lengths pieces !! i = Some part →
  pieces !! i = Some (data part).
Proof.
  intros (l & d & -> & _ & Hd)%lookup_zip_with_Some. exact Hd.
Qed.

(** Without padding the pieces are the flat data, cut up. *)
Lemma unflat_data_concat (rest : list nat) (lengths : list nat) :
  ∀ d : list A,
    zip_with (λ l d, NDArray (l :: rest) d) lengths
             (unflat_data 0 (size_of rest) lengths d) ≫= data
    = take (sum_list lengths * size_of rest) d.
Proof.
  induction lengths as [|l lengths IH]; intros d; [done|].
  cbn [unflat_data zip_with]. rewrite bind_cons, IH. cbn [data sum_list sum_list_with].
  change (0 * size_of rest) with 0. rewrite !drop_0.
  by rewrite Nat.mul_add_distr_r, <- take_take_drop.
Qed.


Lemma flat_rows_sum (pad : nat) (lengths : list nat) :
  flat_rows pad lengths = pad * S (length lengths) + sum_list lengths.
Proof.
  induction lengths as [|l lengths IH]; [cbn; lia|].
  cbn [flat_rows foldr sum_list sum_list_with length]. fold (flat_rows pad lengths).
  rewrite IH. unfold Datatypes.id. lia.
Qed.

(** What the two backend operations do to a seqs [seqs] and to a gradient
    of the shape of the flat array. *)
Lemma ops_flatten_unflatten (seqs : list (ndarray A)) (rest : list nat) (pad : nat) :
  Forall (λ s, tail (shape s) = rest ∧ shape s ≠ [] ∧ well_formed s) seqs →
  let lengths := seq_length <$> seqs in
  let padding := replicate (pad * size_of rest) s0 in
  ∃ X : ndarray A,
    ops_flatten seqs pad = Ok X ∧
    well_formed X ∧
    (seqs = [] → X = NDArray [0] []) ∧
    (seqs ≠ [] →
     X = NDArray (pad * S (length seqs) + sum_list lengths :: rest)
           ((seqs ≫= λ s, padding ++ data s) ++ padding)) ∧
    (∀ d_X : ndarray A, shape d_X = shape X →
       ∃ parts, ops_unflatten d_X lengths pad = Ok parts ∧
                shape <$> parts = shape <$> seqs ∧
                (well_formed d_X →
                 Forall well_formed parts ∧
                 (∀ i part, parts !! i = Some part →
                    data part
                    = take (seq_length part * size_of rest)
                        (drop ((pad * S i + sum_list (take i lengths)) * size_of rest)
                              (data d_X))) ∧
                 (pad = 0 → parts ≫= data = data d_X ∧ ops_flatten parts 0 = Ok d_X))) ∧
    ops_unflatten X lengths pad = Ok seqs.
Proof.
  intros Hall lengths padding. destruct (decide (seqs = [])) as [->|Hne].
  { exists (NDArray [0] []). split; [reflexivity|]. split; [reflexivity|].
    split; [done|]. split; [done|]. split; [|done].
    intros d_X Hsh. exists []. split; [done|]. split; [done|].
    intros Hwf. split; [constructor|]. split; [done|]. intros _.
    destruct d_X as [sh [|x d]]; cbn in *; by subst sh. }
  assert (ops_flatten seqs pad
          = Ok (NDArray (flat_rows pad lengths :: rest)
                  ((seqs ≫= λ s, padding ++ data s) ++ padding))) as HX.
  { destruct seqs as [|s seqs]; [done|]. by apply ops_flatten_nonempty. }
  rewrite flat_rows_sum in HX.
  unfold lengths in HX at 1. rewrite length_fmap in HX. fold lengths in HX.
  eexists. split; [exact HX|].
  assert (well_formed (NDArray (pad * S (length seqs) + sum_list lengths :: rest)
                         ((seqs ≫= λ s, padding ++ data s) ++ padding))) as HwfX.
  { unfold well_formed. cbn [shape data size_of foldr]. fold (size_of rest).
    unfold padding. rewrite (length_flat_data pad rest seqs Hall). fold lengths.
    rewrite flat_rows_sum. unfold lengths at 1. by rewrite length_fmap. }
  split; [exact HwfX|]. split; [done|]. split; [done|]. split.
  - intros d_X Hsh. cbn [shape] in Hsh.
    assert (shape d_X = flat_rows pad lengths :: rest) as Hsh'.
    { rewrite Hsh, flat_rows_sum. unfold lengths at 2. by rewrite length_fmap. }
    destruct (ops_unflatten_shapes pad rest lengths d_X Hsh') as (parts & Hparts & Hshapes).
    exists parts. split; [exact Hparts|].
    split; [by rewrite (shapes_of_seqs rest seqs)|].
    intros Hwf.
    rewrite (ops_unflatten_data pad rest lengths d_X Hsh' Hwf) in Hparts.
    injection Hparts as <-.
    assert (length (data d_X) = flat_rows pad lengths * size_of rest) as Hlen.
    { unfold well_formed in Hwf. by rewrite Hwf, Hsh'. }
    pose proof (unflat_data_lengths pad (size_of rest) lengths (data d_X) Hlen) as Hpieces.
    destruct (zip_with_well_formed rest lengths _ Hpieces) as [Hgood Hlens].
    split; [|split].
    + eapply Forall_impl; [exact Hgood|]. by intros x (_ & _ & ?).
    + intros i part Hpart.
      pose proof (zip_with_lookup_data rest lengths _ i part Hpart) as Hdata.
      assert (lengths !! i = Some (seq_length part)) as Hl.
      { rewrite <- Hlens at 1. by rewrite list_lookup_fmap, Hpart. }
      rewrite (unflat_data_lookup pad (size_of rest) lengths (data d_X) i _ Hl) in Hdata.
      by injection Hdata as <-.
    + intros ->.
      assert (zip_with (λ l d, NDArray (l :: rest) d) lengths
                (unflat_data 0 (size_of rest) lengths (data d_X)) ≫= data = data d_X)
        as Hconcat.
      { rewrite unflat_data_concat. apply take_ge.
        rewrite Hlen, flat_rows_0. done. }
      split; [exact Hconcat|].
      destruct (zip_with (λ l d, NDArray (l :: rest) d) lengths
                  (unflat_data 0 (size_of rest) lengths (data d_X)))
        as [|p ps] eqn:Hzip.
      { apply (f_equal length) in Hlens. unfold lengths in Hlens.
        rewrite length_fmap in Hlens. by destruct seqs. }
      rewrite (ops_flatten_nonempty 0 rest p ps Hgood), Hlens.
      change (0 * size_of rest) with 0. cbn [replicate].
      change (λ s1 : ndarray A, [] ++ data s1) with (data (A:=A)).
      rewrite app_nil_r, Hconcat. destruct d_X as [sh d]. cbn [shape] in Hsh'.
      by rewrite Hsh'.
  - rewrite (ops_unflatten_data pad rest lengths); cbn [shape data].
    + unfold padding, lengths. rewrite unflat_data_flat by done.
      f_equal. by apply zip_with_shape_data.
    + rewrite flat_rows_sum. unfold lengths at 2. by rewrite length_fmap.
    + exact HwfX.
Qed.

Lemma lengths_of_shapes (parts seqs : list (ndarray A)) :
  shape <$> parts = shape <$> seqs → lengths_of parts = lengths_of seqs.
Proof.
  unfold lengths_of. revert seqs.
  induction parts as [|p parts IH]; intros [|s seqs] Hsh; try done.
  rewrite !fmap_cons in Hsh. injection Hsh as Hp Hrest.
  cbn [map_result]. rewrite (IH seqs Hrest). unfold len. by rewrite Hp.
Qed.

(** C7.  For a batch of sequences that share their trailing dimensions,
    [flatten] and [_flatten_add_lengths] succeed and return the flat array:
    the entries of the sequences one after the other, with [pad] rows of
    zeros before each of them and after the last for [_flatten_add_lengths],
    and the empty 1-D array for an empty batch.  For pad width 0 the length
    of the flat array is the sum of the lengths of the sequences.  The
    callback they return, given any flat gradient of the shape of the flat
    output, returns one array per sequence, each of the shape of the
    sequence it stands for; the array of sequence [i] holds the rows of the
    gradient at the place of that sequence in the flat array, as the
    recorded lengths and the pad width give it, so that without padding
    the arrays, joined, are the gradient, and flattening them gives the
    gradient back.  Given the flat output itself the callback returns the
    batch. *)
Theorem flatten_round_trip (seqs : list (ndarray A)) (rest : list nat)
    (pad : nat) (dropout : Q) :
  Forall (λ s, tail (shape s) = rest ∧ shape s ≠ [] ∧ well_formed s) seqs →
  (∃ X finish_update,
     flatten (Sgd:=Sgd) seqs dropout = Ok (X, finish_update) ∧
     well_formed X ∧
     (seqs = [] → X = allocate [0]) ∧
     (seqs ≠ [] → shape X = sum_list (seq_length <$> seqs) :: rest) ∧
     data X = seqs ≫= data ∧
     len X = Ok (sum_list (seq_length <$> seqs)) ∧
     (∀ d_X sgd, shape d_X = shape X →
        ∃ parts, finish_update d_X sgd = Ok parts ∧ shape <$> parts = shape <$> seqs ∧
          (well_formed d_X →
           Forall well_formed parts ∧
           parts ≫= data = data d_X ∧
           ∃ finish_update', flatten (Sgd:=Sgd) parts dropout = Ok (d_X, finish_update'))) ∧
     (∀ sgd, finish_update X sgd = Ok seqs)) ∧
  (∃ X finish_update,
     _flatten_add_lengths (Sgd:=Sgd) seqs pad dropout
       = Ok ((X, seq_length <$> seqs), finish_update) ∧
     well_formed X ∧
     (seqs = [] → X = allocate [0]) ∧
     (seqs ≠ [] →
      shape X = pad * S (length seqs) + sum_list (seq_length <$> seqs) :: rest ∧
      data X = (seqs ≫= λ s, replicate (pad * size_of rest) s0 ++ data s)
                 ++ replicate (pad * size_of rest) s0) ∧
     (pad = 0 → len X = Ok (sum_list (seq_length <$> seqs)) ∧ data X = seqs ≫= data) ∧
     (∀ d_X sgd, shape d_X = shape X →
        ∃ parts, finish_update d_X sgd = Ok parts ∧ shape <$> parts = shape <$> seqs ∧
          (well_formed d_X →
           Forall well_formed parts ∧
           (∀ i part, parts !! i = Some part →
              data part
              = take (seq_length part * size_of rest)
                  (drop ((pad * S i + sum_list (take i (seq_length <$> seqs)))
                         * size_of rest) (data d_X))) ∧
           (pad = 0 → parts ≫= data = data d_X))) ∧
     (∀ sgd, finish_update X sgd = Ok seqs)).
Proof.
  intros Hall.
  assert (lengths_of seqs = Ok (seq_length <$> seqs)) as Hlengths.
  { apply lengths_of_seqs. eapply Forall_impl; [exact Hall|]. by intros x (? & ? & ?). }
  assert (∀ X : ndarray A,
            (seqs = [] → X = NDArray [0] []) →
            (seqs ≠ [] →
             X = NDArray (0 * S (length seqs) + sum_list (seq_length <$> seqs) :: rest)
                   ((seqs ≫= λ s, replicate (0 * size_of rest) s0 ++ data s)
                      ++ replicate (0 * size_of rest) s0)) →
            len X = Ok (sum_list (seq_length <$> seqs)) ∧ data X = seqs ≫= data) as Hzero.
  { intros X Hnil Hcons. destruct (decide (seqs = [])) as [->|Hne].
    - by rewrite Hnil.
    - rewrite (Hcons Hne). unfold len. cbn [shape data].
      change (0 * size_of rest) with 0. cbn [replicate].
      change (λ s1 : ndarray A, [] ++ data s1) with (data (A:=A)).
      by rewrite app_nil_r. }
  split.
  - destruct (ops_flatten_unflatten seqs rest 0 Hall)
      as (X & HX & HwfX & Hnil & Hcons & Hback & Hround).
    destruct (Hzero X Hnil Hcons) as [Hlen Hdata].
    unfold flatten, layerize. rewrite Hlengths, HX. cbn [bind].
    eexists _, _. split; [reflexivity|]. split; [exact HwfX|].
    split; [exact Hnil|]. split; [by intros ->%Hcons|].
    split; [exact Hdata|]. split; [exact Hlen|]. split; [|done].
    intros d_X _ Hsh. destruct (Hback d_X Hsh) as (parts & Hparts & Hshapes & Hgood).
    exists parts. split; [exact Hparts|]. split; [exact Hshapes|].
    intros Hwf. destruct (Hgood Hwf) as (Hwfs & _ & Hcat).
    destruct (Hcat eq_refl) as [Hjoin Hflat].
    split; [exact Hwfs|]. split; [exact Hjoin|].
    rewrite (lengths_of_shapes parts seqs Hshapes), Hlengths, Hflat. cbn [bind].
    by eexists.
  - destruct (ops_flatten_unflatten seqs rest pad Hall)
      as (X & HX & HwfX & Hnil & Hcons & Hback & Hround).
    unfold _flatten_add_lengths. rewrite Hlengths, HX. cbn [bind].
    eexists _, _. split; [reflexivity|]. split; [exact HwfX|].
    split; [exact Hnil|]. split; [by intros ->%Hcons|].
    split; [intros ->; by apply Hzero|]. split; [|done].
    intros d_X _ Hsh. destruct (Hback d_X Hsh) as (parts & Hparts & Hshapes & Hgood).
    exists parts. split; [exact Hparts|]. split; [exact Hshapes|].
    intros Hwf. destruct (Hgood Hwf) as (Hwfs & Hrows & Hcat).
    split; [exact Hwfs|]. split; [exact Hrows|]. intros Hpad. by apply Hcat.
Qed.

End flatten_properties.

Lemma flatten_round_trip_witness :
  let seqs := [NDArray [2; 2] [1; 2; 3; 4]%Z; NDArray [0; 2] []; NDArray [1; 2] [5; 6]%Z] in
  let d_X := NDArray [3; 2] [10; 20; 30; 40; 50; 60]%Z in
  ∃ X finish_update,
    flatten (Sgd:=unit) seqs 0%Q = Ok (X, finish_update) ∧
    X = NDArray [3; 2] [1; 2; 3; 4; 5; 6]%Z ∧
    len X = Ok 3 ∧
    finish_update d_X None
    = Ok [NDArray [2; 2] [10; 20; 30; 40]%Z; NDArray [0; 2] []; NDArray [1; 2] [50; 60]%Z] ∧
    (∀ sgd, finish_update X sgd = Ok seqs).
Proof.
  intros seqs d_X.
  destruct (flatten_round_trip (Sgd:=unit) seqs [2] 0 0%Q)
    as [(X & finish_update & Hflat & _ & _ & _ & _ & Hlen & _ & Hround) _].
  { repeat constructor; done. }
  exists X, finish_update. split; [exact Hflat|].
  pose proof Hflat as Hrun. vm_compute in Hrun. injection Hrun as <- <-.
  split; [reflexivity|]. split; [exact Hlen|]. split; [reflexivity|exact Hround].
Defined.

(** ** The masked language model *)

Section mlm_properties.
Context `{NumpyRandom G} {Sgd : Type} `{Scalar A}.

(** [d_output *= keep] for [keep] of shape (N, 1): row [i] of the gradient
    is multiplied by entry [i]. *)
Lemma iop_smul_rows (d_output keep : ndarray A) (N w : nat) :
  shape d_output = [N; w] → well_formed d_output →
  shape keep = [N; 1] →
  ∃ d', iop smul d_output keep = Ok d' ∧
        shape d' = [N; w] ∧ well_formed d' ∧
        ∀ i j, i < N → j < w →
          item (data d') (i * w + j)
          = smul (item (data d_output) (i * w + j)) (item (data keep) i).
Proof.
  intros Hshape Hwf Hkeep. unfold iop. rewrite Hshape, Hkeep.
  pose proof (broadcast_shapes_trailing_ones [N] [w]) as Hb. cbn [app length replicate] in Hb.
  rewrite decide_True by done.
  unfold well_formed in Hwf. rewrite Hshape in Hwf.
  eexists. split; [reflexivity|]. cbn [shape data]. split; [done|]. split.
  { unfold well_formed. cbn [shape data]. by rewrite length_imap. }
  intros i j Hi Hj.
  assert (i * w + j < size_of [N; w]) as Hp.
  { rewrite !size_of_cons, size_of_nil. nia. }
  rewrite item_imap by lia. f_equal. f_equal.
  pose proof (bindex_trailing_ones [N] [w] (i * w + j) Hp) as Hidx.
  cbn [app length replicate] in Hidx. rewrite Hidx.
  rewrite size_of_cons, size_of_nil, Nat.mul_1_r.
  rewrite Nat.div_add_l by lia. rewrite Nat.div_small by done. lia.
Qed.

Lemma _apply_mask_mask {V} (docs : list (Doc V)) (mask_prob : Q)
    (st st' : _RandomWords * G) (mask : list bool) (masked_docs : list (Doc V)) :
  _apply_mask docs mask_prob st = (Ok (mask, masked_docs), st') →
  mask = Qle_bool mask_prob <$> (random_uniform (token_count docs) st.2).1 ∧
  length mask = token_count docs.
Proof.
  destruct st as [random_words g].
  unfold _apply_mask, bind_s, draw. fold (token_count docs). cbn [snd].
  pose proof (random_uniform_length (token_count docs) g) as Hlen.
  destruct (random_uniform (token_count docs) g) as [us g1]. cbn [fst] in *.
  destruct (_apply_mask_docs _ docs 0 _) as [[mdocs|e] st1]; [|done].
  unfold ret_s. intros [= <- _ _]. split; [done|]. by rewrite length_fmap.
Qed.

(** C3.  When [mlm_forward] returns an output and its callback, the mask
    it used is the one [_apply_mask] produced (true exactly where the
    uniform draw of the token is at least [mask_prob], the token being kept
    as it is), and the callback hands the wrapped model's callback the
    incoming gradient multiplied by [1 - mask]: row [i] of it is zero where
    token [i] was kept and is the incoming row where token [i] was selected
    for corruption. *)
Theorem mlm_backward_gates_gradient {V dI}
    (model : Layer4 Sgd (list (Doc V)) (ndarray A) (ndarray A) dI)
    (mask_prob : Q) (docs : list (Doc V)) (drop : Q)
    (random_words : _RandomWords) (g : G)
    (output : ndarray A) (mlm_backward : Backward Sgd (ndarray A) dI)
    (st' : _RandomWords * G) :
  mlm_forward model mask_prob docs drop (random_words, g)
    = (Ok (output, mlm_backward), st') →
  ∃ mask masked_docs backprop,
    _apply_mask docs mask_prob (random_words, g) = (Ok (mask, masked_docs), st') ∧
    mask = Qle_bool mask_prob <$> (random_uniform (token_count docs) g).1 ∧
    model masked_docs drop = Ok (output, backprop) ∧
    ∀ (d_output : ndarray A) (sgd : option Sgd) (w : nat),
      shape d_output = [token_count docs; w] → well_formed d_output →
      ∃ d', mlm_backward d_output sgd = backprop d' sgd ∧
            shape d' = shape d_output ∧ well_formed d' ∧
            ∀ i j kept, mask !! i = Some kept → j < w →
              item (data d') (i * w + j)
              = if kept : bool then s0 else item (data d_output) (i * w + j).
Proof.
  unfold mlm_forward, bind_s.
  destruct (_apply_mask docs mask_prob (random_words, g))
    as [[[mask masked_docs]|e] st1] eqn:Hmask; [|done].
  destruct (_apply_mask_mask _ _ _ _ _ _ Hmask) as [Hmask_eq Hlen]. cbn [snd] in Hmask_eq.
  unfold lift, reshape. cbn [data].
  rewrite decide_True by (rewrite !size_of_cons, size_of_nil; lia).
  destruct (model masked_docs drop) as [[output' backprop]|e] eqn:Hmodel; [|done].
  unfold ret_s. intros [= <- <- <-].
  exists mask, masked_docs, backprop. repeat split; try done.
  intros d_output sgd w Hshape Hwf.
  destruct (iop_smul_rows d_output
              (amap (λ m, of_nat (1 - Nat.b2n m))
                 (NDArray [length mask; 1] mask)) (token_count docs) w)
    as (d' & Hd' & Hshape' & Hwf' & Hitems); [done|done|by rewrite <- Hlen|].
  exists d'. rewrite Hd'. cbn [bind]. split; [done|]. split; [congruence|].
  split; [done|].
  intros i j kept Hi Hj.
  rewrite Hitems by (apply lookup_lt_Some in Hi; lia || done).
  cbn [amap data].
  rewrite (item_lookup _ i (of_nat (1 - Nat.b2n kept))) by by rewrite list_lookup_fmap, Hi.
  destruct kept; cbn [Nat.b2n Nat.sub].
  - apply smul_0_r.
  - rewrite of_nat_1. apply smul_1_r.
Qed.

End mlm_properties.

Lemma mlm_backward_gates_gradient_witness :
  let docs := [ {| doc_vocab := tt;
                   tokens := [ {| text := "a"%string; whitespace_ := " "%string |};
                               {| text := "b"%string; whitespace_ := EmptyString |} ] |} ] in
  let model : Layer4 unit (list (Doc unit)) (ndarray Z) (ndarray Z) (ndarray Z) :=
    λ docs drop, Ok (allocate [2; 3], λ d sgd, Ok d) in
  let random_words := {| words := []; probs := []; _cache := [] |} in
  match mlm_forward model (5 # 100) docs 0%Q (random_words, 0) with
  | (Ok (output, mlm_backward), st') =>
      ∃ mask masked_docs backprop,
        _apply_mask docs (5 # 100) (random_words, 0) = (Ok (mask, masked_docs), st') ∧
        mask = [false; true] ∧
        model masked_docs 0%Q = Ok (output, backprop) ∧
        ∀ (d_output : ndarray Z) (sgd : option unit) (w : nat),
          shape d_output = [2; w] → well_formed d_output →
          ∃ d', mlm_backward d_output sgd = backprop d' sgd ∧
                shape d' = shape d_output ∧ well_formed d' ∧
                ∀ i j kept, [false; true] !! i = Some kept → j < w →
                  item (data d') (i * w + j)
                  = if kept : bool then 0%Z else item (data d_output) (i * w + j)
  | (Raise _, _) => False
  end.
Proof.
  intros docs model random_words.
  destruct (mlm_forward model (5 # 100) docs 0%Q (random_words, 0))
    as [[[output mlm_backward]|e] st'] eqn:Hfwd.
  - destruct (mlm_backward_gates_gradient model (5 # 100) docs 0%Q random_words 0
                output mlm_backward st' Hfwd)
      as (mask & masked_docs & backprop & Hmask & -> & Hmodel & Hback).
    exists [false; true], masked_docs, backprop. done.
  - vm_compute in Hfwd. discriminate Hfwd.
Defined.

(** ** [_RandomWords] *)

Lemma ssum_div (total : R) (l : list R) :
  ssum ((λ p, p / total)%R <$> l) = (ssum l / total)%R.
Proof.
  induction l as [|x l IH].
  - rewrite fmap_nil, ssum_nil. cbn [s0 R_Scalar]. unfold Rdiv. by rewrite Rmult_0_l.
  - rewrite fmap_cons, !ssum_cons, IH. cbn [sadd R_Scalar]. unfold Rdiv. ring.
Qed.

Lemma ssum_nonneg (l : list R) : Forall (λ x, 0 < x)%R l → (0 <= ssum l)%R.
Proof.
  induction 1 as [|x l Hx _ IH].
  - rewrite ssum_nil. cbn [s0 R_Scalar]. lra.
  - rewrite ssum_cons. cbn [sadd R_Scalar]. lra.
Qed.

Lemma ssum_pos (l : list R) : l ≠ [] → Forall (λ x, 0 < x)%R l → (0 < ssum l)%R.
Proof.
  intros Hne Hpos. destruct Hpos as [|x l Hx Hl]; [done|].
  rewrite ssum_cons. cbn [sadd R_Scalar]. pose proof (ssum_nonneg l Hl). lra.
Qed.

Section sampler_properties.
Context `{NumpyRandom G} {A : Type}.

Lemma cache_size_pos : 0 < 10000.
Proof. apply Nat.ltb_lt. by vm_compute. Qed.

Lemma probs_distribution (vocab : Vocab A) :
  nonzero_lexemes vocab ≠ [] →
  ssum (probs (_RandomWords_init vocab)) = 1%R ∧
  Forall (λ x, 0 <= x)%R (probs (_RandomWords_init vocab)).
Proof.
  intros Hne. unfold _RandomWords_init. cbn [probs]. fold (nonzero_lexemes vocab).
  set (es := (λ p, exp (Q2R p)) <$> take 10000 (prob <$> nonzero_lexemes vocab)).
  assert (Forall (λ x, 0 < x)%R es) as Hpos.
  { apply Forall_fmap, Forall_forall. intros p _. apply exp_pos. }
  assert (es ≠ []) as Hes.
  { subst es. intros Hnil. apply (f_equal length) in Hnil.
    rewrite length_fmap, length_take, length_fmap in Hnil.
    pose proof cache_size_pos. destruct (nonzero_lexemes vocab); [done|]. cbn in Hnil. lia. }
  pose proof (ssum_pos es Hes Hpos) as Htotal.
  split.
  - rewrite ssum_div. unfold Rdiv. apply Rinv_r. lra.
  - apply Forall_fmap. eapply Forall_impl; [exact Hpos|]. intros x Hx. cbn.
    apply Rlt_le, Rdiv_lt_0_compat; done.
Qed.

Lemma next_ok (random_words : _RandomWords) :
  words random_words ≠ [] →
  length (probs random_words) = length (words random_words) →
  ssum (probs random_words) = 1%R →
  Forall (λ x, 0 <= x)%R (probs random_words) →
  ∀ self g, sampler_inv random_words self →
    ∃ word self' g', next (self, g) = (Ok word, (self', g')) ∧
                     word ∈ words random_words ∧ sampler_inv random_words self'.
Proof.
  intros Hne Hlen Hsum Hpos self g (Hwords & Hprobs & Hcache).
  assert (0 < length (words random_words)) as Hlen_pos.
  { destruct (words random_words); [done|cbn; lia]. }
  assert (∃ cache g',
            (if decide (_cache self = []) then
               drawn <~ draw_result
                          (random_choice (length (words self)) 10000 (probs self));;
               modify (λ '(self, g),
                 ({| words := words self; probs := probs self;
                     _cache := _cache self ++ drawn |}, g))
             else ret_s tt) (self, g)
            = (Ok tt, ({| words := words self; probs := probs self; _cache := cache |}, g')) ∧
            cache ≠ [] ∧ Forall (λ i, i < length (words random_words)) cache)
    as (cache & g' & Hfill & Hcache_ne & Hcache').
  { destruct (decide (_cache self = [])) as [Hemp|Hfull].
    - unfold bind_s, draw_result, modify. rewrite Hwords, Hprobs.
      destruct (random_choice_ok (length (words random_words)) 10000
                  (probs random_words) g Hlen_pos Hlen Hsum Hpos)
        as (l & Hl & Hl_len & Hl_all).
      destruct (random_choice _ _ _ g) as [r g1]. cbn [fst] in Hl. subst r.
      exists l, g1. rewrite Hemp. cbn [app]. split; [by rewrite Hwords, Hprobs|].
      split; [|done]. intros ->. cbn in Hl_len. pose proof cache_size_pos. lia.
    - exists (_cache self), g. unfold ret_s. split; [by destruct self|done]. }
  unfold next. unfold bind_s at 1. unfold gets at 1. cbn [fst].
  unfold bind_s at 1. rewrite Hfill. clear Hfill.
  unfold bind_s, gets, modify. cbn [fst _cache words probs].
  destruct cache as [|i cache _] using rev_ind; [done|].
  rewrite last_snoc. apply Forall_app in Hcache' as [Hrest Hi].
  rewrite Forall_singleton in Hi.
  rewrite Hwords. destruct (lookup_lt_is_Some_2 _ _ Hi) as [word Hword]. rewrite Hword.
  eexists word, _, g'. split; [reflexivity|]. split.
  { by eapply list_elem_of_lookup_2. }
  unfold sampler_inv. cbn [words probs _cache]. rewrite removelast_last. done.
Qed.

Lemma next_calls_ok (random_words : _RandomWords) :
  words random_words ≠ [] →
  length (probs random_words) = length (words random_words) →
  ssum (probs random_words) = 1%R →
  Forall (λ x, 0 <= x)%R (probs random_words) →
  ∀ k self g, sampler_inv random_words self →
    ∃ drawn st', next_calls k (self, g) = (Ok drawn, st') ∧ length drawn = k ∧
                 Forall (λ word, word ∈ words random_words) drawn.
Proof.
  intros Hne Hlen Hsum Hpos k. induction k as [|k IH]; intros self g Hinv.
  { eexists [], _. by split; [reflexivity|]. }
  destruct (next_ok random_words Hne Hlen Hsum Hpos self g Hinv)
    as (word & self' & g' & Hnext & Hword & Hinv').
  destruct (IH self' g' Hinv') as (drawn & st' & Hcalls & Hlen' & Hall).
  exists (word :: drawn), st'. cbn [next_calls]. unfold bind_s at 1. rewrite Hnext.
  unfold bind_s, ret_s. rewrite Hcalls. split; [done|]. split; [by rewrite length_cons, Hlen'|].
  by constructor.
Qed.

(** A sampler without words cannot draw: numpy refuses to choose among 0
    items. *)
Lemma next_no_words (self : _RandomWords) (g : G) :
  words self = [] → _cache self = [] → (next (self, g)).1 = Raise ValueError.
Proof.
  intros Hwords Hcache. unfold next, bind_s, gets. cbn [fst].
  rewrite decide_True by done. unfold draw_result. rewrite Hwords. cbn [length].
  pose proof (random_choice_empty 10000 (probs self) g cache_size_pos) as Hraise.
  destruct (random_choice 0 10000 (probs self) g) as [r g']. cbn [fst] in Hraise.
  by subst r.
Qed.

(** C5, amended.  A fresh sampler holds at most 10,000 words, one
    probability for each, and every word it holds is the text of a lexeme
    of nonzero smoothed probability.  When the vocabulary has at least one
    such lexeme, the stored probabilities sum to 1, and any number of calls
    of [next], one after the other, all return, each a word of the list. *)
Theorem _RandomWords_sampler (vocab : Vocab A) :
  let random_words := _RandomWords_init vocab in
  length (words random_words) ≤ 10000 ∧
  length (probs random_words) = length (words random_words) ∧
  (∀ word, word ∈ words random_words →
     ∃ lex, lex ∈ lexemes vocab ∧ lex_text lex = word ∧ ¬ (prob lex == 0)%Q) ∧
  (nonzero_lexemes vocab ≠ [] →
     ssum (probs random_words) = 1%R ∧
     ∀ (k : nat) (g : G),
       ∃ drawn st', next_calls k (random_words, g) = (Ok drawn, st') ∧
                    length drawn = k ∧
                    Forall (λ word, word ∈ words random_words) drawn).
Proof.
  intros random_words.
  assert (length (probs random_words) = length (words random_words)) as Hlen.
  { subst random_words. unfold _RandomWords_init. cbn [words probs].
    by rewrite !length_fmap, !length_take, !length_fmap. }
  split; [|split; [done|split]].
  - subst random_words. unfold _RandomWords_init. cbn [words].
    rewrite length_take. lia.
  - intros word Hword. subst random_words. unfold _RandomWords_init in Hword.
    cbn [words] in Hword. apply subseteq_take in Hword.
    apply list_elem_of_fmap in Hword as (lex & -> & Hlex).
    apply list_elem_of_filter in Hlex as [Hprob Hlex].
    exists lex. split; [done|]. split; [done|].
    intros Hzero. apply Qeq_bool_iff in Hzero.
    apply Is_true_true in Hprob. by rewrite Hzero in Hprob.
  - intros Hne. destruct (probs_distribution vocab Hne) as [Hsum Hpos].
    split; [done|]. intros k g.
    apply (next_calls_ok random_words); try done.
    subst random_words. unfold _RandomWords_init. cbn [words].
    fold (nonzero_lexemes vocab). intros Hnil. apply (f_equal length) in Hnil.
    rewrite length_take, length_fmap in Hnil.
    pose proof cache_size_pos. destruct (nonzero_lexemes vocab); [done|]. cbn in Hnil. lia.
Qed.

End sampler_properties.

Lemma _RandomWords_sampler_witness :
  let vocab : Vocab Z :=
    {| lexemes := [ {| lex_text := "the"%string; orth := 1; rank := 0; prob := -1 |};
                    {| lex_text := "zzz"%string; orth := 2; rank := 0; prob := 0 |};
                    {| lex_text := "cat"%string; orth := 3; rank := 0; prob := -3 |} ];
       vectors := {| name := None; vectors_data := allocate [0; 0]; key2row := ∅ |} |} in
  let random_words := _RandomWords_init vocab in
  words random_words = ["the"; "cat"]%string ∧
  ssum (probs random_words) = 1%R ∧
  ∃ drawn st', next_calls 3 (random_words, 0) = (Ok drawn, st') ∧
               length drawn = 3 ∧
               Forall (λ word, word ∈ words random_words) drawn.
Proof.
  intros vocab random_words. split; [reflexivity|].
  destruct (proj2 (proj2 (proj2 (_RandomWords_sampler (G:=nat) vocab)))) as [Hsum Hcalls].
  { discriminate. }
  split; [exact Hsum|]. exact (Hcalls 3 0).
Defined.

(** C5 fails on a vocabulary without a lexeme of nonzero probability: the
    sampler holds no word, its probabilities sum to 0, and the first call
    of [next] raises ValueError. *)
Lemma _RandomWords_sampler_counterexample :
  let vocab : Vocab Z :=
    {| lexemes := [ {| lex_text := "zzz"%string; orth := 2; rank := 0; prob := 0 |} ];
       vectors := {| name := None; vectors_data := allocate [0; 0]; key2row := ∅ |} |} in
  let random_words := _RandomWords_init vocab in
  words random_words = [] ∧
  ssum (probs random_words) = 0%R ∧
  ssum (probs random_words) ≠ 1%R ∧
  (next (random_words, 0)).1 = Raise ValueError.
Proof.
  intros vocab random_words. split; [reflexivity|]. split; [reflexivity|].
  split; [|by apply next_no_words].
  change (ssum (probs random_words)) with 0%R. lra.
Qed.

(** ** [get_col] *)

Section get_col_properties.
Context {Sgd : Type} `{Scalar A}.

Lemma take_1_drop (d : list A) (p : nat) :
  p < length d → take 1 (drop p d) = [item d p].
Proof.
  intros Hp. destruct (lookup_lt_is_Some_2 d p Hp) as [x Hx].
  rewrite (item_lookup d p x Hx).
  rewrite <- (take_drop_middle d p x Hx) at 1.
  rewrite drop_app_length' by (rewrite length_take; lia). done.
Qed.

Lemma bind_singletons {B} (g : nat → list B) (f : nat → B) (l : list nat) :
  (∀ i, i ∈ l → g i = [f i]) → l ≫= g = f <$> l.
Proof.
  induction l as [|i l IH]; intros Hg; [reflexivity|].
  rewrite bind_cons, fmap_cons, Hg by left. cbn [app]. f_equal.
  apply IH. intros j Hj. apply Hg. by right.
Qed.

(** On a matrix, [X[:, idx]] is the vector of the entries of column [idx]. *)
Lemma getitem_col_matrix (X : ndarray A) (r c idx : nat) :
  shape X = [r; c] → well_formed X → idx < c →
  getitem_col X idx = Ok (NDArray [r] (tabulate r (λ i, item (data X) (i * c + idx)))).
Proof.
  intros Hshape Hwf Hidx. unfold getitem_col. rewrite Hshape, decide_True by done.
  unfold well_formed in Hwf. rewrite Hshape, !size_of_cons, size_of_nil in Hwf.
  do 2 f_equal. unfold tabulate. apply bind_singletons.
  intros i Hi. apply elem_of_seq in Hi. rewrite size_of_nil, Nat.mul_1_r.
  apply take_1_drop. nia.
Qed.

(** C8.  [get_col(idx)] raises IndexError, with the catalog message E066
    for the value, exactly when [idx] is negative.  Otherwise it returns a
    layer; on a matrix [X] with more than [idx] columns its forward pass
    returns column [idx], and its callback, given a gradient [y] with one
    entry per row, returns an array of the shape of [X] that holds [y] in
    column [idx] and zero everywhere else. *)
Theorem get_col_correct (idx : Z) :
  ((idx < 0)%Z ↔ get_col (Sgd:=Sgd) (A:=A) idx = Raise (IndexError (Some (E066 idx)))) ∧
  ((0 <= idx)%Z ↔ ∃ layer, get_col (Sgd:=Sgd) (A:=A) idx = Ok layer) ∧
  ∀ layer, get_col (Sgd:=Sgd) idx = Ok layer →
    ∀ (X : ndarray A) (r c : nat) (drop : Q),
      shape X = [r; c] → well_formed X → Z.to_nat idx < c →
      ∃ output backward,
        layer X drop = Ok (output, backward) ∧
        shape output = [r] ∧ well_formed output ∧
        (∀ i, i < r → item (data output) i = item (data X) (i * c + Z.to_nat idx)) ∧
        ∀ (y : ndarray A) (sgd : option Sgd),
          shape y = [r] → well_formed y →
          ∃ dX, backward y sgd = Ok dX ∧
                shape dX = shape X ∧ well_formed dX ∧
                ∀ i j, i < r → j < c →
                  item (data dX) (i * c + j)
                  = if decide (j = Z.to_nat idx) then item (data y) i else s0.
Proof.
  unfold get_col. destruct (decide (idx < 0)%Z) as [Hneg|Hpos].
  { split; [done|]. split; [|done]. split; [lia|]. by intros [layer ?]. }
  split; [done|]. split; [split; [eauto | lia]|].
  intros layer [= <-] X r c drop Hshape Hwf Hidx. unfold layerize.
  set (k := Z.to_nat idx) in *.
  rewrite (getitem_col_matrix X r c k) by done. cbn [bind].
  eexists _, _. split; [reflexivity|]. cbn [shape data].
  split; [done|]. split.
  { unfold well_formed. cbn [shape data].
    rewrite length_tabulate, size_of_cons, size_of_nil. lia. }
  split.
  { intros i Hi. by rewrite item_tabulate. }
  intros y sgd Hy Hwfy. unfold iadd_col.
  assert (well_formed (allocate (A:=A) (shape X))) as Hwf0.
  { unfold well_formed, allocate. cbn [shape data]. by rewrite length_replicate. }
  rewrite (getitem_col_matrix _ r c k) by done. cbn [bind].
  unfold iop. cbn [shape data]. rewrite Hy, decide_True by apply broadcast_shapes_same.
  cbn [bind]. unfold setitem_col, allocate. cbn [shape data]. rewrite Hshape.
  eexists. split; [reflexivity|]. cbn [shape data]. split; [done|].
  unfold well_formed in Hwfy. rewrite Hy, size_of_cons, size_of_nil in Hwfy.
  split.
  { unfold well_formed. cbn [shape data]. by rewrite length_imap, length_replicate. }
  intros i j Hi Hj.
  assert (i * c + j < r * c) by nia.
  rewrite item_imap by (rewrite length_replicate, !size_of_cons, size_of_nil; lia).
  rewrite size_of_nil, Nat.div_1_r, Nat.mod_1_r, !Nat.mul_1_r, Nat.add_0_r.
  rewrite mod_mul_add, div_mul_add by done.
  destruct (decide (j = k)) as [->|Hne]; [|apply item_replicate].
  rewrite item_imap by (rewrite length_tabulate; lia).
  rewrite item_tabulate, item_replicate, bindex_same by (rewrite ?size_of_cons, ?size_of_nil; lia).
  apply sadd_0_l.
Qed.

End get_col_properties.

Lemma get_col_correct_witness :
  let X := NDArray [2; 3] [1; 2; 3; 4; 5; 6]%Z in
  ∃ layer output backward dX,
    get_col (Sgd:=unit) 1 = Ok layer ∧
    layer X 0%Q = Ok (output, backward) ∧ output = NDArray [2] [2; 5]%Z ∧
    backward (NDArray [2] [7; 8]%Z) None = Ok dX ∧
    dX = NDArray [2; 3] [0; 7; 0; 0; 8; 0]%Z ∧
    ∀ i j, i < 2 → j < 3 →
      item (data dX) (i * 3 + j) = if decide (j = 1) then item [7; 8]%Z i else 0%Z.
Proof.
  intros X.
  destruct (proj1 (proj1 (proj2 (get_col_correct (Sgd:=unit) (A:=Z) 1)))) as [layer Hlayer];
    [done|].
  destruct (proj2 (proj2 (get_col_correct (Sgd:=unit) (A:=Z) 1)) layer Hlayer X 2 3 0%Q)
    as (output & backward & Hfwd & _ & _ & _ & Hback);
    [reflexivity | reflexivity | cbn; lia |].
  destruct (Hback (NDArray [2] [7; 8]%Z) None) as (dX & HdX & _ & _ & Hitems);
    [reflexivity..|].
  exists layer, output, backward, dX.
  injection Hlayer as <-. injection Hfwd as <- <-. injection HdX as <-.
  repeat split; try reflexivity. exact Hitems.
Defined.

Import PrecomputableAffine.

(** ** [PrecomputableAffine]: the forward pass *)

Section forward_properties.
Context `{Scalar A}.

Lemma length_matmul (m k n : nat) (x y : list A) : length (matmul m k n x y) = m * n.
Proof. apply length_tabulate. Qed.

(** The entries of [x @ y.T] for [x] of shape (m, k) and [y] of shape (n, k). *)
Lemma item_matmul_transpose (m k n : nat) (x y : list A) (i j : nat) :
  i < m → j < n →
  item (matmul m k n x (transpose2 n k y)) (i * n + j)
  = ssum (tabulate k (λ t, smul (item x (i * k + t)) (item y (j * k + t)))).
Proof.
  intros Hi Hj. unfold matmul. rewrite item_tabulate by nia.
  f_equal. apply tabulate_ext. intros t Ht.
  rewrite div_mul_add, mod_mul_add by done. f_equal.
  unfold transpose2. rewrite item_tabulate by nia.
  by rewrite mod_mul_add, div_mul_add by done.
Qed.

(** C2.  On an input of shape (batch, nI) the forward pass returns an
    array of shape (batch + 1, nF, nO, nP).  Its first row is the [pad]
    parameter; row [b + 1] is row [b] of the product of [X] with the
    transpose of [W] reshaped to (nF * nO * nP, nI). *)
Theorem begin_update_prepends_pad (self : t A) (X : ndarray A) (batch : nat) (drop : Q) :
  shape (W self) = [nF self; nO self; nP self; nI self] → well_formed (W self) →
  shape (pad self) = [1; nF self; nO self; nP self] → well_formed (pad self) →
  shape X = [batch; nI self] → well_formed X →
  let row := nF self * nO self * nP self in
  ∃ Yf backward,
    begin_update self X drop = Ok (Yf, backward) ∧
    shape Yf = [batch + 1; nF self; nO self; nP self] ∧ well_formed Yf ∧
    take row (data Yf) = data (pad self) ∧
    ∀ b j, b < batch → j < row →
      item (data Yf) ((b + 1) * row + j)
      = ssum (tabulate (nI self) (λ i,
          smul (item (data X) (b * nI self + i)) (item (data (W self)) (j * nI self + i)))).
Proof.
  intros HW HwfW Hpad Hwfpad HX HwfX row.
  unfold well_formed in *. rewrite HW in HwfW. rewrite Hpad in Hwfpad. rewrite HX in HwfX.
  rewrite !size_of_cons, size_of_nil in *.
  unfold begin_update, reshape.
  rewrite decide_True by (rewrite !size_of_cons, size_of_nil; lia). cbn [bind].
  unfold gemm. cbn [shape data]. rewrite HX, decide_True by done. cbn [bind shape data head].
  change (default 0 (Some batch)) with batch.
  rewrite decide_True
    by (rewrite length_matmul, !size_of_cons, size_of_nil; lia).
  cbn [bind]. unfold _add_padding, vstack. cbn [shape]. rewrite Hpad. cbn [atleast_2d].
  rewrite decide_True by done. cbn [bind data].
  eexists _, _. split; [reflexivity|]. cbn [shape data].
  split; [by rewrite (Nat.add_comm batch)|].
  assert (length (data (pad self)) = row) as Hlen by (subst row; lia).
  split; [|split].
  - rewrite length_app, length_matmul, !size_of_cons, size_of_nil. lia.
  - by rewrite take_app_length' by done.
  - intros b j Hb Hj.
    replace ((b + 1) * row + j) with (length (data (pad self)) + (b * row + j)) by lia.
    rewrite item_app_r. by apply item_matmul_transpose.
Qed.

End forward_properties.

Lemma begin_update_prepends_pad_witness :
  let self : t Z := Model 2 2 2 1
    (NDArray [2; 2; 1; 2] [1; 2; 3; 4; 5; 6; 7; 8]%Z)
    (NDArray [2; 1] [0; 0]%Z)
    (NDArray [1; 2; 2; 1] [9; 9; 9; 9]%Z)
    (allocate [2; 2; 1; 2]) (allocate [2; 1]) (allocate [1; 2; 2; 1]) in
  let X := NDArray [3; 2] [1; 0; 0; 1; 1; 1]%Z in
  ∃ Yf backward,
    begin_update self X 0%Q = Ok (Yf, backward) ∧
    shape Yf = [4; 2; 2; 1] ∧ well_formed Yf ∧
    take 4 (data Yf) = [9; 9; 9; 9]%Z ∧
    ∀ b j, b < 3 → j < 4 →
      item (data Yf) ((b + 1) * 4 + j)
      = ssum (tabulate 2 (λ i,
          smul (item (data X) (b * 2 + i)) (item (data (W self)) (j * 2 + i)))).
Proof.
  intros self X.
  apply (begin_update_prepends_pad self X 3 0%Q); reflexivity.
Defined.

(** ** [PrecomputableAffine]: the gradient of the padding row *)

Lemma item_fmap_default `{Scalar T} `{Scalar U} (g : T → U) (d : list T) (p : nat) :
  g s0 = s0 → item (g <$> d) p = g (item d p).
Proof.
  intros Hg. unfold item. rewrite !nth_lookup, list_lookup_fmap.
  by destruct (d !! p).
Qed.

Section backward_properties.
Context `{Scalar A}.

Lemma _backprop_padding_spec (self : t A) (dY : ndarray A) (ids : ndarray Z) (N : nat) :
  shape (d_pad self) = [1; nF self; nO self; nP self] → well_formed (d_pad self) →
  shape dY = [N; nO self; nP self] →
  shape ids = [N; nF self] →
  ∃ v, _backprop_padding dY ids self = (Ok (dY, ids), set_d_pad v self) ∧
       shape v = shape (d_pad self) ∧ well_formed v ∧
       ∀ f o p, f < nF self → o < nO self → p < nP self →
         item (data v) ((f * nO self + o) * nP self + p)
         = sadd (item (data (d_pad self)) ((f * nO self + o) * nP self + p))
                (pad_gradient_sum N (nF self) (nO self) (nP self) (data dY) (data ids) o p).
Proof.
  intros Hpad Hwf HdY Hids.
  unfold _backprop_padding, bind_s, lift.
  set (flags := amap Nat.b2n (amap (λ i : Z, bool_decide (i < 0)%Z) ids)).
  destruct (sum_axis_1_matrix flags N (nF self)) as (counts & -> & Hcounts & Hlen & Hcount);
    [done|].
  rewrite Hids. change (default 0 (head [N; nF self])) with N.
  unfold reshape. rewrite decide_True by (rewrite !size_of_cons, size_of_nil; lia).
  destruct (binop_trailing_ones smul dY
              (amap of_nat (NDArray [N; 1; 1] (data counts))) [N] [nO self; nP self])
    as (prod & -> & Hprod & _ & Hprod_item); [done..|].
  destruct (sum_axis_0_spec prod N [nO self; nP self]) as (s & -> & Hs & _ & Hs_item);
    [done|].
  unfold iadd.
  destruct (iop_suffix sadd (d_pad self) s [1; nF self] [nO self; nP self])
    as (v & -> & Hv & Hwfv & Hv_item); [done..|].
  exists v. split; [reflexivity|]. split; [by rewrite Hpad|]. split; [done|].
  intros f o p Hf Ho Hp.
  remember (size_of [nO self; nP self]) as inner eqn:Hinner in *.
  rewrite !size_of_cons, size_of_nil, Nat.mul_1_r in Hinner.
  assert (o * nP self + p < inner) as Hq by nia.
  replace ((f * nO self + o) * nP self + p) with (f * inner + (o * nP self + p)) by nia.
  rewrite Hv_item.
  2:{ cbn [app]. rewrite !size_of_cons, size_of_nil. nia. }
  rewrite mod_mul_add by done. f_equal.
  rewrite Hs_item by done. unfold pad_gradient_sum. f_equal.
  apply tabulate_ext. intros n Hn.
  rewrite Hprod_item.
  2:{ cbn [app]. rewrite !size_of_cons, size_of_nil. nia. }
  rewrite div_mul_add by done.
  cbn [amap data]. rewrite (item_fmap_default (T:=nat) (U:=A) of_nat) by done.
  rewrite Hcount by done. subst flags. cbn [amap data].
  rewrite <- list_fmap_compose.
  rewrite (tabulate_ext (nF self) _
             (Nat.b2n ∘ (λ t, bool_decide (item (data ids) (n * nF self + t) < 0)%Z))).
  2:{ intros t _.
      apply (item_fmap_default (T:=Z) (U:=nat) (Nat.b2n ∘ (λ i : Z, bool_decide (i < 0)%Z))).
      reflexivity. }
  rewrite <- tabulate_fmap.
  rewrite smul_of_nat_count, tabulate_fmap. f_equal.
  apply tabulate_ext. intros t _. cbn [compose].
  replace (n * inner + (o * nP self + p)) with ((n * nO self + o) * nP self + p) by nia.
  done.
Qed.

Lemma keeps_lift {B} (r : result B) : keeps_d_pad (A:=A) (lift r).
Proof. by intros s r' s' [= _ <-]. Qed.

Lemma keeps_gets {B} (f : t A → B) : keeps_d_pad (A:=A) (gets f).
Proof. by intros s r' s' [= _ <-]. Qed.

Lemma keeps_ret {B} (x : B) : keeps_d_pad (A:=A) (ret_s x).
Proof. by intros s r' s' [= _ <-]. Qed.

Lemma keeps_set_W (v : ndarray A) : keeps_d_pad (A:=A) (modify (set_W v)).
Proof. by intros s r' s' [= _ <-]. Qed.

Lemma keeps_iadd_d_b (x : ndarray A) : keeps_d_pad (A:=A) (iadd d_b set_d_b x).
Proof.
  intros s r' s'. unfold iadd. destruct (iop sadd (d_b s) x); by intros [= _ <-].
Qed.

Lemma keeps_iadd_d_W (x : ndarray A) : keeps_d_pad (A:=A) (iadd d_W set_d_W x).
Proof.
  intros s r' s'. unfold iadd. destruct (iop sadd (d_W s) x); by intros [= _ <-].
Qed.

Lemma keeps_if {B} (c : bool) (m1 m2 : M (t A) B) :
  keeps_d_pad m1 → keeps_d_pad m2 → keeps_d_pad (if c then m1 else m2).
Proof. by destruct c. Qed.

Lemma ends_bind {B B'} (sgd : option (Optimizer A)) (m : M (t A) B) (k : B → M (t A) B') :
  keeps_d_pad m → (∀ x, ends_with_sgd sgd (k x)) → ends_with_sgd sgd (bind_s m k).
Proof.
  intros Hm Hk s r s'. unfold bind_s.
  destruct (m s) as [[x|e] s1] eqn:Hms; pose proof (Hm _ _ _ Hms) as Hs1.
  - intros Hks. destruct (Hk x _ _ _ Hks) as (mid & Hmid & Hend).
    exists mid. split; [congruence|done].
  - intros [= _ <-]. exists s1. split; [done|by left].
Qed.

Lemma ends_tail {B} (sgd : option (Optimizer A)) (r : result B) :
  ends_with_sgd (A:=A) sgd
    (bind_s (match sgd with Some sgd => modify sgd | None => ret_s tt end) (λ _, lift r)).
Proof.
  intros s r' s'. unfold bind_s, lift. destruct sgd as [f|]; cbn; intros [= _ <-].
  - exists s. split; [done|]. right. by exists f.
  - exists s. split; [done|by left].
Qed.

Lemma backward_after_padding (X dY : ndarray A) (ids : ndarray Z)
    (sgd : option (Optimizer A)) (s : t A) (r : result (ndarray A)) (s' : t A) (v : ndarray A) :
  _backprop_padding dY ids s = (Ok (dY, ids), set_d_pad v s) →
  backward X (dY, ids) sgd s = (r, s') →
  ∃ mid, d_pad mid = v ∧ (s' = mid ∨ ∃ f, sgd = Some f ∧ s' = f mid).
Proof.
  intros Hpad. unfold backward.
  match goal with |- bind_s _ ?k s = _ → _ => set (rest := k) end.
  unfold bind_s at 1. rewrite Hpad. subst rest. cbv beta iota.
  intros Hrest.
  eapply (ends_bind sgd) in Hrest; [exact Hrest|apply keeps_gets|].
  clear. intros [[[nO nI] nF] nP].
  repeat first
    [ apply ends_tail
    | apply ends_bind;
        [ first [ apply keeps_lift | apply keeps_gets | apply keeps_iadd_d_b
                | apply keeps_iadd_d_W
                | apply keeps_if; [apply keeps_set_W | apply keeps_ret] ]
        | intros ? ] ].
Qed.

(** X28.  What [backward] does to the gradient of [pad].  A call with a
    gradient [dY] of shape (N, nO, nP) and an index array [ids] of shape
    (N, nF) adds to every entry [(0, f, o, p)] of the gradient of [pad],
    whatever the slot [f], one and the same amount: the sum of [dY[n, o, p]]
    over all the positions [(n, f')] of [ids] whose entry is negative, that
    is the sum over the rows of [dY[n, o, p]] times the number of negative
    entries of row [n].  The store [mid] that the call leaves, or hands to
    the optimizer when there is one and no step has raised, holds that
    gradient. *)
Theorem backward_pad_gradient (self : t A) (X dY : ndarray A) (ids : ndarray Z)
    (sgd : option (Optimizer A)) (N : nat) :
  shape (d_pad self) = [1; nF self; nO self; nP self] → well_formed (d_pad self) →
  shape dY = [N; nO self; nP self] →
  shape ids = [N; nF self] →
  ∃ r self' mid,
    backward X (dY, ids) sgd self = (r, self') ∧
    (self' = mid ∨ ∃ f, sgd = Some f ∧ self' = f mid) ∧
    shape (d_pad mid) = shape (d_pad self) ∧ well_formed (d_pad mid) ∧
    ∀ f o p, f < nF self → o < nO self → p < nP self →
      item (data (d_pad mid)) ((f * nO self + o) * nP self + p)
      = sadd (item (data (d_pad self)) ((f * nO self + o) * nP self + p))
             (pad_gradient_sum N (nF self) (nO self) (nP self) (data dY) (data ids) o p).
Proof.
  intros Hpad Hwf HdY Hids.
  destruct (_backprop_padding_spec self dY ids N Hpad Hwf HdY Hids)
    as (v & Hv & Hshape & Hwfv & Hitems).
  destruct (backward X (dY, ids) sgd self) as [r self'] eqn:Hback.
  destruct (backward_after_padding X dY ids sgd self r self' v Hv Hback)
    as (mid & <- & Hend).
  by exists r, self', mid.
Qed.

End backward_properties.

Lemma backward_pad_gradient_witness :
  let self : t Z := Model 2 2 2 1
    (NDArray [2; 2; 1; 2] [1; 2; 3; 4; 5; 6; 7; 8]%Z)
    (NDArray [2; 1] [0; 0]%Z)
    (NDArray [1; 2; 2; 1] [9; 9; 9; 9]%Z)
    (allocate [2; 2; 1; 2]) (allocate [2; 1]) (allocate [1; 2; 2; 1]) in
  let X := NDArray [3; 2] [1; 0; 0; 1; 1; 1]%Z in
  let dY := NDArray [2; 2; 1] [1; 10; 100; 1000]%Z in
  let ids := NDArray [2; 2] [-1; 0; -1; -1]%Z in
  ∃ r self',
    backward X (dY, ids) None self = (r, self') ∧
    data (d_pad self') = [201; 2010; 201; 2010]%Z ∧
    ∀ f o p, f < 2 → o < 2 → p < 1 →
      item (data (d_pad self')) ((f * 2 + o) * 1 + p)
      = (0 + pad_gradient_sum 2 2 2 1 (data dY) (data ids) o p)%Z.
Proof.
  intros self X dY ids.
  destruct (backward_pad_gradient self X dY ids None 2)
    as (r & self' & mid & Hback & [->|(f & Hf & _)] & _ & _ & Hitems);
    [reflexivity.. | | discriminate Hf].
  exists r, mid. split; [exact Hback|]. split.
  - vm_compute in Hback. by injection Hback as _ <-.
  - intros f o p Hf Ho Hp.
    refine (eq_trans (Hitems f o p Hf Ho Hp) _).
    destruct f as [|[|f]], o as [|[|o]], p as [|p]; try lia; reflexivity.
Defined.

(** C1.  The gradient of [pad] is incremented at a slot whose index is
    not negative.  Take a layer with two feature slots and one output cell,
    [ids = [[-1, 0]]] and [dY = [[[5]]]].  The index array is negative at
    slot 0 only, so the incoming gradients at the negative positions sum to
    5 for slot 0 and to 0 for slot 1.  [backward] adds 5 to both entries of
    the gradient of [pad]: [mask.sum(axis=1)] counts the negative entries of
    each row of [ids], and the product with [dY] is broadcast over the
    slots. *)
Theorem backward_pad_gradient_all_slots :
  let self : t Z := Model 1 1 2 1
    (NDArray [2; 1; 1; 1] [3; 4]%Z)
    (NDArray [1; 1] [0]%Z)
    (NDArray [1; 2; 1; 1] [9; 9]%Z)
    (allocate [2; 1; 1; 1]) (allocate [1; 1]) (allocate [1; 2; 1; 1]) in
  let X := NDArray [1; 1] [1]%Z in
  let dY := NDArray [1; 1; 1] [5]%Z in
  let ids := NDArray [1; 2] [-1; 0]%Z in
  ∃ dXf self',
    backward X (dY, ids) None self = (Ok dXf, self') ∧
    data (d_pad self) = [0; 0]%Z ∧
    data (d_pad self') = [5; 5]%Z ∧
    slot_gradient_sum 1 2 1 1 (data dY) (data ids) 0 0 0 = 5%Z ∧
    slot_gradient_sum 1 2 1 1 (data dY) (data ids) 1 0 0 = 0%Z.
Proof.
  intros self X dY ids.
  destruct (backward X (dY, ids) None self) as [[dXf|e] self'] eqn:Hrun.
  - exists dXf, self'. split; [reflexivity|].
    vm_compute in Hrun. injection Hrun as _ <-.
    repeat split; reflexivity.
  - vm_compute in Hrun. discriminate Hrun.
Qed.

(** * Properties of the other functions *)

(** ** [_divide_array] *)

Section divide_array_properties.
Context {T : Type}.

Lemma getslice_chunk (X : list T) (k size : nat) :
  k * size < length X →
  getslice X (Z.of_nat (k * size)) (Z.of_nat (k * size) + Z.of_nat size)
  = take size (drop (k * size) X).
Proof.
  intros Hk. unfold getslice, slice_bound.
  repeat case_bool_decide; try lia.
  rewrite (Z.min_l (Z.of_nat (k * size))) by lia. rewrite Nat2Z.id.
  destruct (decide (k * size + size ≤ length X)) as [Hle|Hgt].
  - rewrite Z.min_l by lia. f_equal. lia.
  - rewrite Z.min_r by lia. rewrite Nat2Z.id.
    rewrite (take_ge (drop _ _) size) by (rewrite length_drop; lia).
    apply take_ge. rewrite length_drop. lia.
Qed.

Lemma _divide_array_loop_spec (X : list T) (size : nat) :
  0 < size →
  ∀ fuel k parts,
    k * size < length X + size →
    length X + size ≤ k * size + fuel * size →
    ∃ rest,
      _divide_array_loop fuel X (Z.of_nat size) parts (Z.of_nat (k * size))
      = Some (parts ++ rest) ∧
      concat rest = drop (k * size) X ∧
      k * size + length rest * size < length X + size ∧
      length X ≤ k * size + length rest * size ∧
      ∀ i, i < length rest → rest !! i = Some (take size (drop ((k + i) * size) X)).
Proof.
  intros Hsize fuel. induction fuel as [|fuel IH]; intros k parts Hk Hfuel.
  { cbn in Hfuel. lia. }
  cbn [_divide_array_loop]. case_bool_decide as Hlt.
  - assert (k * size < length X) as Hk' by lia.
    rewrite getslice_chunk by done.
    replace (Z.of_nat (k * size) + Z.of_nat size)%Z with (Z.of_nat (S k * size)) by lia.
    destruct (IH (S k) (parts ++ [take size (drop (k * size) X)]))
      as (rest & -> & Hcat & Hlo & Hhi & Hnth).
    { rewrite Nat.mul_succ_l. lia. }
    { rewrite Nat.mul_succ_l. lia. }
    exists (take size (drop (k * size) X) :: rest).
    split; [by rewrite <- app_assoc|]. split.
    { cbn [concat]. rewrite Hcat, Nat.mul_succ_l.
      rewrite <- drop_drop. apply take_drop. }
    cbn [length]. rewrite !Nat.mul_succ_l in *.
    split; [lia|]. split; [lia|].
    intros [|i] Hi.
    + by rewrite Nat.add_0_r.
    + cbn [lookup list_lookup]. rewrite Hnth by lia. do 3 f_equal. lia.
  - exists []. rewrite app_nil_r. split; [done|]. split.
    { cbn. symmetry. apply drop_ge. lia. }
    cbn. split; [lia|]. split; [lia|]. intros i Hi. lia.
Qed.

(** X1.  For a positive [size] the loop of [_divide_array] ends (after at
    most [len(X) + 1] tests) and returns consecutive pieces of [X]: joined
    together they are [X], piece [i] is [X[i*size : (i+1)*size]], no piece
    is empty and none is longer than [size], and there are
    [ceil(len(X) / size)] of them. *)
Theorem _divide_array_partition (X : list T) (size : Z) :
  (0 < size)%Z →
  ∃ parts,
    (∀ fuel, length X < fuel → _divide_array fuel X size = Some parts) ∧
    concat parts = X ∧
    (∀ i, i < length parts →
       parts !! i = Some (take (Z.to_nat size) (drop (i * Z.to_nat size) X))) ∧
    Forall (λ part, 0 < length part ≤ Z.to_nat size) parts ∧
    length parts = (length X + Z.to_nat size - 1) / Z.to_nat size.
Proof.
  intros Hsize. remember (Z.to_nat size) as n eqn:Hn_eq.
  assert (0 < n) as Hn by lia.
  assert (size = Z.of_nat n) as -> by lia. clear Hn_eq Hsize.
  destruct (_divide_array_loop_spec X n Hn (S (length X)) 0 [])
    as (parts & _ & Hcat & Hlo & Hhi & Hnth); [lia|nia|].
  exists parts. cbn [Nat.mul Nat.add] in *. rewrite drop_0 in Hcat.
  split; [|split; [done|split; [exact Hnth|split]]].
  - intros fuel Hfuel.
    destruct (_divide_array_loop_spec X n Hn fuel 0 [])
      as (parts' & Hrun & Hcat' & Hlo' & Hhi' & Hnth'); [lia|nia|].
    unfold _divide_array. change 0%Z with (Z.of_nat (0 * n)). rewrite Hrun. cbn [app].
    f_equal. cbn [Nat.mul Nat.add] in *.
    assert (length parts' = length parts) as Hlen by nia.
    apply list_eq. intros i. destruct (decide (i < length parts)) as [Hi|Hi].
    + rewrite Hnth, Hnth' by lia. done.
    + rewrite !lookup_ge_None_2 by lia. done.
  - apply Forall_lookup_2. intros i part Hi.
    pose proof (lookup_lt_Some _ _ _ Hi) as Hlt. rewrite Hnth in Hi by done.
    injection Hi as <-. rewrite length_take, length_drop. nia.
  - apply Nat.div_unique with (r := length X + n - 1 - length parts * n); nia.
Qed.

(** X2.  For a [size] that is zero or negative and a non-empty [X] the loop
    of [_divide_array] never ends: [index] starts at 0 and never grows, so
    the test [index < len(X)] holds every time. *)
Theorem _divide_array_diverges (X : list T) (size : Z) :
  (size ≤ 0)%Z → X ≠ [] → ∀ fuel, _divide_array fuel X size = None.
Proof.
  intros Hsize HX fuel. unfold _divide_array.
  assert (0 < length X) as Hlen by (destruct X; [done|cbn; lia]).
  assert (∀ parts index, (index ≤ 0)%Z →
            _divide_array_loop fuel X size parts index = None) as Hloop.
  { induction fuel as [|fuel IH]; intros parts index Hindex; [done|].
    cbn [_divide_array_loop]. rewrite bool_decide_eq_true_2 by lia.
    apply IH. lia. }
  by apply Hloop.
Qed.

End divide_array_properties.

Lemma _divide_array_partition_witness :
  ∃ parts,
    (∀ fuel, 5 < fuel → _divide_array fuel [1; 2; 3; 4; 5] 2%Z = Some parts) ∧
    concat parts = [1; 2; 3; 4; 5] ∧
    (∀ i, i < length parts → parts !! i = Some (take 2 (drop (i * 2) [1; 2; 3; 4; 5]))) ∧
    Forall (λ part, 0 < length part ≤ 2) parts ∧
    length parts = 3.
Proof. apply (_divide_array_partition [1; 2; 3; 4; 5] 2%Z). lia. Defined.

Lemma _divide_array_diverges_witness :
  _divide_array 1000 [1; 2; 3] 0%Z = None.
Proof. apply (_divide_array_diverges [1; 2; 3] 0%Z); [lia|done]. Defined.

(** ** [with_cpu], [_to_cpu] and [_to_device] *)

Lemma pyobj_nested_ind {A} (P : pyobj A → Prop) :
  (∀ a, P (numpy_ndarray a)) → (∀ a, P (cupy_ndarray a)) →
  (∀ xs, Forall P xs → P (pytuple xs)) → (∀ xs, Forall P xs → P (pylist xs)) →
  (∀ x, P (pynumber x)) →
  ∀ X, P X.
Proof.
  intros Hnumpy Hcupy Htuple Hlist Hnumber. fix IH 1.
  intros [a|a|xs|xs|x];
    [apply Hnumpy|apply Hcupy|apply Htuple|apply Hlist|apply Hnumber].
  all: induction xs as [|x xs IHxs]; constructor; [apply IH|apply IHxs].
Qed.

Section with_cpu_properties.
Context {Sgd A : Type}.

Lemma forallb_on_host_fmap (xs : list (pyobj A)) :
  Forall (λ X, on_host (_to_cpu X) = true) xs → forallb on_host (_to_cpu <$> xs) = true.
Proof.
  induction 1 as [|x xs Hx _ IH]; [done|]. cbn. by rewrite Hx, IH.
Qed.

Lemma _to_cpu_on_host (X : pyobj A) : on_host (_to_cpu X) = true.
Proof.
  induction X as [a|a|xs IH|xs IH|x] using pyobj_nested_ind; cbn; try done;
    by apply forallb_on_host_fmap.
Qed.

Lemma _to_cpu_fixed (X : pyobj A) : on_host X = true → _to_cpu X = X.
Proof.
  induction X as [a|a|xs IH|xs IH|x] using pyobj_nested_ind; cbn; try done.
  all: intros Hall; f_equal; induction IH as [|x xs Hx _ IHxs]; [done|];
    cbn in Hall; apply andb_true_iff in Hall as [H1 H2];
    cbn; by rewrite Hx, IHxs.
Qed.

Lemma _to_cpu_twice (X : pyobj A) : _to_cpu (_to_cpu X) = _to_cpu X.
Proof. apply _to_cpu_fixed, _to_cpu_on_host. Qed.

(** X3.  [_to_cpu] returns a value without any array of the device; it
    changes nothing in a value that is already on the host, and only such
    values are left unchanged; so a second application changes nothing. *)
Theorem _to_cpu_idempotent (X : pyobj A) :
  on_host (_to_cpu X) = true ∧
  (on_host X = true ↔ _to_cpu X = X) ∧
  _to_cpu (_to_cpu X) = _to_cpu X.
Proof.
  split; [apply _to_cpu_on_host|]. split.
  - split; [apply _to_cpu_fixed|]. intros Heq. rewrite <- Heq. apply _to_cpu_on_host.
  - apply _to_cpu_twice.
Qed.

Section backend.
Variable ops_asarray : pyobj A → result (pyobj A).

Lemma map_result_to_device_host (xs : list (pyobj A)) :
  Forall (λ X, host_arrays X = true →
               ∃ Y, _to_device ops_asarray X = Ok Y ∧ _to_cpu Y = X) xs →
  forallb host_arrays xs = true →
  ∃ ys, map_result (_to_device ops_asarray) xs = Ok ys ∧ _to_cpu <$> ys = xs.
Proof.
  induction 1 as [|x xs Hx _ IHxs]; intros Hall; [by exists []|].
  cbn in Hall. apply andb_true_iff in Hall as [H1 H2].
  destruct (Hx H1) as (y & Hy & Hy'). destruct (IHxs H2) as (ys & Hys & Hys').
  exists (y :: ys). cbn. rewrite Hy. cbn. rewrite Hys. cbn. by rewrite Hy', Hys'.
Qed.

(** X4.  Round trip between host and device.  When the backend's [asarray]
    places an array of the host on its device with the same contents, then
    [_to_device] returns on every nesting of tuples and lists of host
    arrays, and [_to_cpu] of what it returns is the value it was given. *)
Theorem _to_device_round_trip (X : pyobj A) :
  places_arrays ops_asarray → host_arrays X = true →
  ∃ Y, _to_device ops_asarray X = Ok Y ∧ _to_cpu Y = X.
Proof.
  intros Hops.
  induction X as [a|a|xs IH|xs IH|x] using pyobj_nested_ind; cbn; try done.
  - intros _. destruct (Hops a) as [-> | ->]; by eexists.
  - intros Hall.
    destruct (map_result_to_device_host xs IH Hall) as (ys & -> & Hys).
    eexists. split; [reflexivity|]. cbn. by rewrite Hys.
  - intros Hall.
    destruct (map_result_to_device_host xs IH Hall) as (ys & -> & Hys).
    eexists. split; [reflexivity|]. cbn. by rewrite Hys.
Qed.

Variable Model : Type.
Variable begin_update : Model → Layer Sgd (pyobj A) (pyobj A).
Variable to_cpu : Model → Model.

(** X5.  [with_cpu] runs the wrapped model, moved to the host, on the host
    copy of the inputs, and its callback on the host copy of the gradient:
    inputs and gradients that differ only in where their arrays are give
    the same results.  An exception of the model, or of the transfer of
    its output to the device, is the exception of the wrapper; otherwise
    the wrapper returns the output of the model as [_to_device] returns it,
    and what its callback returns is what the callback of the model
    returns: the gradient of the input is not moved to the device. *)
Theorem with_cpu_runs_on_host (model : Model) (inputs : pyobj A) (drop : Q) :
  with_cpu ops_asarray Model begin_update to_cpu model inputs drop
    = with_cpu ops_asarray Model begin_update to_cpu model (_to_cpu inputs) drop ∧
  match begin_update (to_cpu model) (_to_cpu inputs) drop with
  | Raise e => with_cpu ops_asarray Model begin_update to_cpu model inputs drop = Raise e
  | Ok (cpu_outputs, backprop) =>
      match _to_device ops_asarray cpu_outputs with
      | Raise e =>
          with_cpu ops_asarray Model begin_update to_cpu model inputs drop = Raise e
      | Ok gpu_outputs =>
          ∃ with_cpu_backprop,
            with_cpu ops_asarray Model begin_update to_cpu model inputs drop
              = Ok (gpu_outputs, with_cpu_backprop) ∧
            ∀ d_outputs sgd,
              with_cpu_backprop d_outputs sgd = backprop (_to_cpu d_outputs) sgd ∧
              with_cpu_backprop (_to_cpu d_outputs) sgd = with_cpu_backprop d_outputs sgd
      end
  end.
Proof.
  unfold with_cpu, wrap. split.
  - by rewrite _to_cpu_twice.
  - destruct (begin_update (to_cpu model) (_to_cpu inputs) drop)
      as [[cpu_outputs backprop]|e]; [|done].
    cbn [bind]. destruct (_to_device ops_asarray cpu_outputs) as [gpu_outputs|e]; [|done].
    cbn [bind]. eexists. split; [reflexivity|].
    intros d_outputs sgd. split; [done|]. by rewrite _to_cpu_twice.
Qed.

End backend.
End with_cpu_properties.

Lemma _to_device_round_trip_witness :
  let X := pytuple [numpy_ndarray (NDArray [2] [1; 2]%Z); pylist [numpy_ndarray (NDArray [1] [3]%Z)]] in
  ∃ Y, _to_device device_asarray X = Ok Y ∧ _to_cpu Y = X.
Proof.
  intros X. apply (_to_device_round_trip device_asarray X); [|reflexivity].
  intros a. by right.
Defined.

(** ** [reapply], [print_shape] and [logistic] on array objects *)

Section store_properties.
Context {Sgd : Type} `{Scalar A}.

Lemma iop_sadd_same_shape (a b : ndarray A) :
  shape b = shape a → well_formed a → well_formed b →
  iop sadd a b = Ok (add_arrays a b).
Proof.
  intros Hshape Hwfa Hwfb. unfold iop. rewrite Hshape.
  rewrite decide_True by apply broadcast_shapes_same.
  unfold add_arrays. do 2 f_equal.
  unfold well_formed in *. rewrite Hshape in Hwfb.
  apply list_eq. intros p. rewrite list_lookup_imap, lookup_zip_with.
  destruct (data a !! p) as [x|] eqn:Hx; [|done]. cbn.
  pose proof (lookup_lt_Some _ _ _ Hx) as Hp.
  destruct (lookup_lt_is_Some_2 (data b) p) as [y Hy]; [lia|].
  rewrite Hy. cbn. rewrite bindex_same by lia. by rewrite (item_lookup _ _ _ Hy).
Qed.

Lemma add_arrays_well_formed (a b : ndarray A) :
  shape b = shape a → well_formed a → well_formed b → well_formed (add_arrays a b).
Proof.
  unfold well_formed, add_arrays. cbn [shape data]. intros -> Ha Hb.
  rewrite length_zip_with. lia.
Qed.

Lemma reapply_fwd_loop_iterate (layer : LayerRef Sgd A) (n : nat) :
  ∀ X drop Y backprops h,
    match iterate_layer layer (S n) X drop h with
    | (Ok Y', h') =>
        ∃ backprops', reapply_fwd_loop layer (S n) X drop Y backprops h
                      = (Ok (Some Y', backprops'), h')
    | (Raise e, h') =>
        reapply_fwd_loop layer (S n) X drop Y backprops h = (Raise e, h')
    end.
Proof.
  induction n as [|n IH]; intros X drop Y backprops h.
  - cbn. unfold bind_s. destruct (layer X drop h) as [[[Y' bp]|e] h']; cbn; [|done].
    by eexists.
  - change (iterate_layer layer (S (S n)) X drop h)
      with (bind_s (layer X drop) (λ '(Y, _), iterate_layer layer (S n) Y drop) h).
    change (reapply_fwd_loop layer (S (S n)) X drop Y backprops h)
      with (bind_s (layer X drop) (λ '(Y, backprop),
              reapply_fwd_loop layer (S n) Y drop (Some Y) (backprops ++ [backprop])) h).
    unfold bind_s.
    destruct (layer X drop h) as [[[Y' bp]|e] h']; [|done].
    apply IH.
Qed.

(** X6.  [reapply(layer, n_times)] with [n_times] zero or negative raises
    UnboundLocalError in its forward pass, without running the layer: the
    store is as before.  With a positive [n_times] the forward pass is the
    layer run [n_times] times, each time on the output of the last turn: it
    returns the last output, or raises what the layer raises first, and
    leaves the store as these runs leave it. *)
Theorem reapply_forward (layer : LayerRef Sgd A) (n_times : Z) (X : ref) (drop : Q)
    (h : store A) :
  ((n_times ≤ 0)%Z → reapply layer n_times X drop h = (RaisesUnboundLocalError, h)) ∧
  ((0 < n_times)%Z →
     match iterate_layer layer (Z.to_nat n_times) X drop h with
     | (Ok Y, h') => ∃ reapply_bwd, reapply layer n_times X drop h = (Returns (Y, reapply_bwd), h')
     | (Raise e, h') => reapply layer n_times X drop h = (Raises e, h')
     end).
Proof.
  split.
  - intros Hn. unfold reapply. by replace (Z.to_nat n_times) with 0 by lia.
  - intros Hn. unfold reapply.
    destruct (Z.to_nat n_times) as [|n] eqn:Hnat; [lia|].
    pose proof (reapply_fwd_loop_iterate layer n X drop None [] h) as Hloop.
    destruct (iterate_layer layer (S n) X drop h) as [[Y|e] h'].
    + destruct Hloop as [backprops ->]. by eexists.
    + by rewrite Hloop.
Qed.

Lemma reapply_bwd_loop_accumulates (sgd : option Sgd) (sh : list nat)
    (reversed : list (BackwardRef Sgd A)) :
  ∀ (gs : list (ndarray A → ndarray A)) (h : store A) (dY dX : ref) (v acc : ndarray A),
    Forall2 fresh_callback reversed gs →
    h !! dY = Some v → h !! dX = Some acc →
    shape acc = sh → well_formed acc →
    Forall (λ w, shape w = sh ∧ well_formed w) (gradients gs v) →
    ∃ h', reapply_bwd_loop reversed dY sgd (Some dX) h = (Ok (Some dX), h') ∧
          h' !! dX = Some (foldl add_arrays acc (gradients gs v)) ∧
          length h ≤ length h' ∧
          ∀ r, r < length h → r ≠ dX → h' !! r = h !! r.
Proof.
  induction reversed as [|backprop reversed IH];
    intros gs h dY dX v acc Hfresh HdY HdX Hsh Hwf Hall.
  { apply Forall2_nil_inv_l in Hfresh as ->. exists h. cbn. by repeat split. }
  apply Forall2_cons_inv_l in Hfresh as (g & gs' & Hg & Hfresh & ->).
  cbn [gradients] in *. apply Forall_cons in Hall as [[Hgsh Hgwf] Hall].
  destruct (Hg sgd h dY v HdY) as (ext & r' & Hrun & Hr' & Hlook).
  pose proof (lookup_lt_Some _ _ _ HdX) as HdX_lt.
  pose proof (lookup_lt_Some _ _ _ Hlook) as Hr'_lt.
  set (h1 := <[dX := add_arrays acc (g v)]> (h ++ ext)).
  destruct (IH gs' h1 r' dX (g v) (add_arrays acc (g v))) as (h' & Hloop & Hres & Hlen & Hkeep).
  - done.
  - subst h1. rewrite list_lookup_insert_ne by lia. done.
  - subst h1. apply list_lookup_insert_eq. rewrite length_app. lia.
  - done.
  - apply add_arrays_well_formed; [by rewrite Hsh|done|done].
  - done.
  - exists h'. split; [|split; [done|split]].
    + cbn [reapply_bwd_loop]. unfold bind_s at 1. rewrite Hrun.
      unfold bind_s at 1. unfold bind_s at 1. unfold deref at 1.
      rewrite (lookup_app_l_Some _ _ _ _ HdX). cbn [from_option]; unfold Datatypes.id.
      unfold bind_s at 1. unfold deref at 1. rewrite Hlook. cbn [from_option]; unfold Datatypes.id.
      unfold bind_s at 1. unfold lift.
      rewrite iop_sadd_same_shape by (done || by rewrite Hsh).
      unfold bind_s at 1. unfold assign, modify. unfold ret_s at 1.
      exact Hloop.
    + subst h1. rewrite length_insert, length_app in Hlen. lia.
    + intros r Hr Hne. rewrite Hkeep.
      * subst h1. rewrite list_lookup_insert_ne by done. by apply lookup_app_l.
      * subst h1. rewrite length_insert, length_app. lia.
      * done.
Qed.

(** X7.  Let every callback recorded by the forward pass of [reapply]
    compute its result into a new array and change no array that exists,
    and let the gradients they compute one from the other, the last
    recorded callback first, have one shape.  Then [reapply_bwd] returns a
    new array object that holds the sum of all these gradients (not the last
    of them alone), and no array that existed before the call is changed. *)
Theorem reapply_bwd_accumulates (backprops : list (BackwardRef Sgd A))
    (gs : list (ndarray A → ndarray A)) (dY : ref) (sgd : option Sgd)
    (h : store A) (v : ndarray A) (sh : list nat) :
  backprops ≠ [] →
  Forall2 fresh_callback backprops gs →
  h !! dY = Some v →
  Forall (λ w, shape w = sh ∧ well_formed w) (gradients (reverse gs) v) →
  ∃ dX h',
    reapply_bwd backprops dY sgd h = (Ok (Some dX), h') ∧
    length h ≤ dX ∧
    h' !! dX = sum_arrays (gradients (reverse gs) v) ∧
    ∀ r, r < length h → h' !! r = h !! r.
Proof.
  intros Hne Hfresh HdY Hall. unfold reapply_bwd.
  apply Forall2_reverse in Hfresh.
  destruct (reverse backprops) as [|backprop reversed] eqn:Hrev.
  { apply (f_equal reverse) in Hrev. rewrite reverse_involutive in Hrev. done. }
  apply Forall2_cons_inv_l in Hfresh as (g & gs' & Hg & Hfresh & Hgs).
  rewrite Hgs in *. cbn [gradients sum_arrays] in *.
  apply Forall_cons in Hall as [[Hgsh Hgwf] Hall].
  destruct (Hg sgd h dY v HdY) as (ext & r' & Hrun & Hr' & Hlook).
  destruct (reapply_bwd_loop_accumulates sgd sh reversed gs' (h ++ ext) r' r' (g v) (g v))
    as (h' & Hloop & Hres & Hlen & Hkeep); try done.
  exists r', h'. split; [|split; [done|split; [done|]]].
  - cbn [reapply_bwd_loop]. unfold bind_s at 1. rewrite Hrun.
    unfold bind_s at 1. unfold ret_s at 1. exact Hloop.
  - intros r Hr. rewrite Hkeep.
    + by apply lookup_app_l.
    + rewrite length_app. lia.
    + lia.
Qed.

Lemma reapply_fwd_loop_print_shape (prefix : string) (n : nat) :
  ∀ (X : ref) (drop : Q) (Y : option ref) (backprops : list (BackwardRef Sgd A))
    (h : store A),
    reapply_fwd_loop (print_shape prefix) (S n) X drop Y backprops h
    = (Ok (Some X, backprops ++ replicate (S n) (λ dX sgd, ret_s dX)), h).
Proof.
  induction n as [|n IH]; intros X drop Y backprops h; [done|].
  change (reapply_fwd_loop (print_shape prefix) (S (S n)) X drop Y backprops h)
    with (reapply_fwd_loop (print_shape prefix) (S n) X drop (Some X)
            (backprops ++ [λ dX sgd, ret_s dX]) h).
  rewrite IH, <- app_assoc. done.
Qed.

Lemma reapply_bwd_loop_identity (sgd : option Sgd) (n : nat) :
  ∀ (h : store A) (dY : ref) (v : ndarray A),
    h !! dY = Some v → well_formed v →
    reapply_bwd_loop (replicate n (λ dX sgd, ret_s dX)) dY sgd (Some dY) h
    = (Ok (Some dY), <[dY := Nat.iter n (λ w, add_arrays w w) v]> h).
Proof.
  induction n as [|n IH]; intros h dY v HdY Hwf.
  { cbn. unfold ret_s. by rewrite list_insert_id. }
  cbn [replicate reapply_bwd_loop]. unfold bind_s at 1. unfold ret_s at 1.
  unfold bind_s at 1. unfold bind_s at 1. unfold deref at 1. rewrite HdY. cbn [from_option]; unfold Datatypes.id.
  unfold bind_s at 1. unfold deref at 1. rewrite HdY. cbn [from_option]; unfold Datatypes.id.
  unfold bind_s at 1. unfold lift. rewrite iop_sadd_same_shape by done.
  unfold bind_s at 1. unfold assign, modify. unfold ret_s at 1.
  pose proof (lookup_lt_Some _ _ _ HdY) as Hlt.
  rewrite (IH _ dY (add_arrays v v)).
  - rewrite list_insert_insert_eq. cbn [Nat.iter].
    by rewrite (Nat.iter_swap n _ (λ w, add_arrays w w)).
  - by apply list_lookup_insert_eq.
  - by apply add_arrays_well_formed.
Qed.

(** X8.  [reapply(print_shape(prefix), n_times)] with a positive [n_times].
    The forward pass returns its argument and changes nothing.  The
    callbacks recorded return the array object they are given, so [dX] and
    [dY] of [reapply_bwd] are one object and every [dX += dY] after the
    first turn doubles it: the callback returns the array object it was
    given, whose entries have been doubled [n_times - 1] times in place. *)
Theorem reapply_print_shape_doubles (prefix : string) (n_times : Z) (X : ref) (drop : Q)
    (h : store A) :
  (0 < n_times)%Z →
  ∃ reapply_bwd,
    reapply (Sgd:=Sgd) (print_shape prefix) n_times X drop h = (Returns (X, reapply_bwd), h) ∧
    ∀ (dY : ref) (sgd : option Sgd) (h' : store A) (v : ndarray A),
      h' !! dY = Some v → well_formed v →
      reapply_bwd dY sgd h'
      = (Ok (Some dY),
         <[dY := Nat.iter (Z.to_nat n_times - 1) (λ w, add_arrays w w) v]> h').
Proof.
  intros Hn. unfold reapply.
  destruct (Z.to_nat n_times) as [|n] eqn:Hnat; [lia|].
  rewrite reapply_fwd_loop_print_shape. cbn [app].
  eexists. split; [reflexivity|].
  intros dY sgd h' v HdY Hwf. unfold reapply_bwd.
  rewrite reverse_replicate. cbn [replicate reapply_bwd_loop].
  unfold bind_s at 1. unfold ret_s at 1. unfold bind_s at 1. unfold ret_s at 1.
  replace (S n - 1) with n by lia.
  by apply reapply_bwd_loop_identity.
Qed.

End store_properties.

(** *** [logistic] *)

Lemma clip10_range (v : R) : (-10 <= clip10 v <= 10)%R.
Proof.
  unfold clip10. split; [apply Rmax_r|].
  apply Rmax_lub; [apply Rmin_r|lra].
Qed.

Lemma sigmoid_range (v : R) :
  (-10 <= v <= 10 → sigmoid (-10) <= sigmoid v <= sigmoid 10)%R.
Proof.
  intros [Hlo Hhi]. unfold sigmoid.
  assert (∀ a b, a <= b → 1 / (1 + exp (- a)) <= 1 / (1 + exp (- b)))%R as Hmono.
  { intros a b Hab. unfold Rdiv. rewrite !Rmult_1_l.
    apply Rinv_le_contravar.
    - pose proof (exp_pos (- b)). lra.
    - apply Rplus_le_compat_l. destruct Hab as [Hlt| ->]; [|lra].
      left. apply exp_increasing. lra. }
  split; by apply Hmono.
Qed.

Lemma sigmoid_unit (v : R) : (0 < sigmoid v < 1)%R.
Proof.
  unfold sigmoid. pose proof (exp_pos (- v)) as Hexp.
  split.
  - apply Rdiv_lt_0_compat; lra.
  - apply (Rmult_lt_reg_r (1 + exp (- v))); [lra|].
    unfold Rdiv. rewrite Rmult_assoc, Rinv_l by lra. lra.
Qed.

Section logistic_properties.
Context {Sgd : Type}.

Lemma logistic_forward (X : ref) (x : ndarray R) (drop : Q) (h : store R) :
  h !! X = Some x →
  logistic (Sgd:=Sgd) X drop h
  = (Ok (length h,
         (λ dY sgd,
            dy <~ deref dY;;
            y <~ deref (length h);;
            dX <~ lift (binop Rmult dy (amap (λ v, v * (1 - v))%R y));;
            new dX) : BackwardRef Sgd R),
     <[X := amap clip10 x]> h ++ [amap (λ v, sigmoid (clip10 v)) x]).
Proof.
  intros HX. pose proof (lookup_lt_Some _ _ _ HX) as Hlt.
  unfold logistic. unfold bind_s at 1. unfold deref at 1. rewrite HX.
  cbn [from_option]; unfold Datatypes.id.
  unfold bind_s at 1. unfold assign at 1, modify.
  unfold bind_s at 1. unfold deref at 1.
  rewrite list_lookup_insert_eq by done. cbn [from_option]; unfold Datatypes.id.
  unfold bind_s at 1. unfold assign at 1, modify.
  unfold bind_s at 1. unfold deref at 1.
  rewrite list_lookup_insert_eq by (by rewrite length_insert).
  cbn [from_option]; unfold Datatypes.id.
  unfold bind_s at 1. unfold new at 1. unfold ret_s.
  rewrite list_insert_insert_eq, !length_insert.
  unfold amap. cbn [shape data]. rewrite <- !list_fmap_compose.
  reflexivity.
Qed.

(** X9.  The forward pass of [logistic] on an array object [X] clamps the
    entries of [X] itself to [-10, 10] (the array of the caller is
    changed in place) and returns a new array of the same shape whose
    entries are the logistic function of the clamped entries: they lie
    between the values of the function at -10 and at 10, strictly between 0
    and 1. *)
Theorem logistic_clamps_in_place (X : ref) (x : ndarray R) (drop : Q) (h : store R) :
  h !! X = Some x →
  ∃ logistic_bwd,
    logistic (Sgd:=Sgd) X drop h
    = (Ok (length h, logistic_bwd),
       <[X := amap clip10 x]> h ++ [amap (λ v, sigmoid (clip10 v)) x]) ∧
    shape (amap (λ v, sigmoid (clip10 v)) x) = shape x ∧
    Forall (λ v, -10 <= v <= 10)%R (data (amap clip10 x)) ∧
    Forall (λ y, sigmoid (-10) <= y <= sigmoid 10 ∧ 0 < y < 1)%R
           (data (amap (λ v, sigmoid (clip10 v)) x)).
Proof.
  intros HX. eexists. split; [by apply logistic_forward|]. split; [done|]. split.
  - cbn [amap data]. apply Forall_fmap, Forall_forall. intros v _. apply clip10_range.
  - cbn [amap data]. apply Forall_fmap, Forall_forall. intros v _. cbn. split.
    + apply sigmoid_range, clip10_range.
    + apply sigmoid_unit.
Qed.

(** X10.  The callback of [logistic], run in a store in which the output
    [Y] of the forward pass is as that pass left it, on a gradient [dY] of
    the shape of the input: it returns a new array with the entries
    [dY * (Y * (1 - Y))] and changes no array.  Every entry of the result is
    at most a quarter of the entry of [dY] in absolute value, and it is zero
    only where the entry of [dY] is zero, also where the input was clamped. *)
Theorem logistic_backward (X : ref) (x : ndarray R) (drop : Q) (h : store R) :
  h !! X = Some x → well_formed x →
  ∃ Y logistic_bwd h1 y,
    logistic (Sgd:=Sgd) X drop h = (Ok (Y, logistic_bwd), h1) ∧
    h1 !! Y = Some y ∧
    ∀ (dY : ref) (dy : ndarray R) (sgd : option Sgd) (h2 : store R),
      h2 !! Y = Some y → h2 !! dY = Some dy →
      shape dy = shape x → well_formed dy →
      ∃ dx, logistic_bwd dY sgd h2 = (Ok (length h2), h2 ++ [dx]) ∧
            shape dx = shape x ∧ well_formed dx ∧
            ∀ p, p < size_of (shape x) →
              (item (data dx) p
               = item (data dy) p * (item (data y) p * (1 - item (data y) p)) ∧
               Rabs (item (data dx) p) <= Rabs (item (data dy) p) / 4 ∧
               (item (data dx) p = 0 → item (data dy) p = 0))%R.
Proof.
  intros HX Hwf. pose proof (lookup_lt_Some _ _ _ HX) as Hlt.
  eexists _, _, _, _. split; [by apply logistic_forward|]. split.
  { apply list_lookup_middle. by rewrite length_insert. }
  intros dY dy sgd h2 HY HdY Hshape Hwfdy.
  unfold bind_s at 1. unfold deref at 1. rewrite HdY.
  cbn [from_option]; unfold Datatypes.id.
  unfold bind_s at 1. unfold deref at 1. rewrite HY.
  cbn [from_option]; unfold Datatypes.id.
  unfold bind_s at 1. unfold lift, binop. cbn [amap shape data].
  rewrite Hshape, broadcast_shapes_same. unfold new.
  eexists. split; [reflexivity|]. cbn [shape data]. split; [done|]. split.
  { unfold well_formed. cbn [shape data]. by rewrite length_tabulate. }
  intros p Hp. unfold well_formed in Hwf, Hwfdy. rewrite Hshape in Hwfdy.
  rewrite item_tabulate by done. rewrite !bindex_same by done.
  destruct (lookup_lt_is_Some_2 (data x) p) as [xv Hxv]; [lia|].
  rewrite (item_lookup ((λ v, v * (1 - v))%R <$> _) p
             (sigmoid (clip10 xv) * (1 - sigmoid (clip10 xv)))%R)
    by (by rewrite !list_lookup_fmap, Hxv).
  rewrite (item_lookup ((λ v, sigmoid (clip10 v)) <$> data x) p (sigmoid (clip10 xv)))
    by (by rewrite list_lookup_fmap, Hxv).
  pose proof (sigmoid_unit (clip10 xv)) as [Hpos Hlt1].
  set (yv := sigmoid (clip10 xv)) in *. set (d := item (data dy) p).
  change (smul d (yv * (1 - yv))%R) with (d * (yv * (1 - yv)))%R.
  assert (0 < yv * (1 - yv) <= 1 / 4)%R as [Hc0 Hc4].
  { split; [apply Rmult_lt_0_compat; lra|].
    pose proof (Rle_0_sqr (yv - 1 / 2)) as Hsqr. unfold Rsqr in Hsqr. lra. }
  split; [done|]. split.
  - rewrite Rabs_mult, (Rabs_pos_eq (yv * (1 - yv))) by lra.
    pose proof (Rabs_pos d). nra.
  - intros Hzero. apply Rmult_integral in Hzero as [Hd|Hc]; [done|lra].
Qed.

End logistic_properties.

Lemma reapply_bwd_accumulates_witness :
  let backprop : BackwardRef unit Z := λ r sgd, v <~ deref r;; new (amap (Z.mul 2) v) in
  let v := NDArray [2] [1; 10]%Z in
  ∃ dX h',
    reapply_bwd [backprop; backprop] 0 None [v] = (Ok (Some dX), h') ∧
    1 ≤ dX ∧
    h' !! dX = Some (NDArray [2] [6; 60]%Z) ∧
    ∀ r, r < 1 → h' !! r = [v] !! r.
Proof.
  intros backprop v.
  refine (reapply_bwd_accumulates [backprop; backprop]
            [amap (Z.mul 2); amap (Z.mul 2)] 0 None [v] v [2] _ _ _ _).
  - done.
  - assert (fresh_callback backprop (amap (Z.mul 2))) as Hfresh.
    { intros sgd h r w Hr. exists [amap (Z.mul 2) w], (length h).
      unfold backprop, bind_s, deref, new. rewrite Hr. cbn [from_option].
      split; [done|]. split; [done|]. by apply list_lookup_middle. }
    by repeat constructor.
  - reflexivity.
  - by repeat constructor.
Defined.

Lemma reapply_print_shape_doubles_witness :
  let v := NDArray [2] [1; 10]%Z in
  ∃ reapply_bwd,
    reapply (Sgd:=unit) (print_shape "tok2vec") 3 0 0%Q [v] = (Returns (0, reapply_bwd), [v]) ∧
    ∀ (dY : ref) (sgd : option unit) (h' : store Z) (w : ndarray Z),
      h' !! dY = Some w → well_formed w →
      reapply_bwd dY sgd h'
      = (Ok (Some dY), <[dY := Nat.iter 2 (λ w, add_arrays w w) w]> h').
Proof.
  intros v. apply (reapply_print_shape_doubles (Sgd:=unit) "tok2vec" 3 0 0%Q [v]). lia.
Defined.

Lemma logistic_clamps_in_place_witness :
  let x := NDArray [2] [100; -3]%R in
  ∃ logistic_bwd,
    logistic (Sgd:=unit) 0 0%Q [x]
    = (Ok (1, logistic_bwd), [amap clip10 x; amap (λ v, sigmoid (clip10 v)) x]) ∧
    shape (amap (λ v, sigmoid (clip10 v)) x) = [2] ∧
    Forall (λ v, -10 <= v <= 10)%R (data (amap clip10 x)) ∧
    Forall (λ y, sigmoid (-10) <= y <= sigmoid 10 ∧ 0 < y < 1)%R
           (data (amap (λ v, sigmoid (clip10 v)) x)).
Proof.
  intros x. apply (logistic_clamps_in_place (Sgd:=unit) 0 x 0%Q [x]). reflexivity.
Defined.

Lemma logistic_backward_witness :
  let x := NDArray [2] [100; -3]%R in
  ∃ Y logistic_bwd h1 y,
    logistic (Sgd:=unit) 0 0%Q [x] = (Ok (Y, logistic_bwd), h1) ∧
    h1 !! Y = Some y ∧
    ∀ (dY : ref) (dy : ndarray R) (sgd : option unit) (h2 : store R),
      h2 !! Y = Some y → h2 !! dY = Some dy →
      shape dy = [2] → well_formed dy →
      ∃ dx, logistic_bwd dY sgd h2 = (Ok (length h2), h2 ++ [dx]) ∧
            shape dx = [2] ∧ well_formed dx ∧
            ∀ p, p < 2 →
              (item (data dx) p
               = item (data dy) p * (item (data y) p * (1 - item (data y) p)) ∧
               Rabs (item (data dx) p) <= Rabs (item (data dy) p) / 4 ∧
               (item (data dx) p = 0 → item (data dy) p = 0))%R.
Proof.
  intros x. apply (logistic_backward (Sgd:=unit) 0 x 0%Q [x]); reflexivity.
Defined.

(** ** [SpacyVectors] *)

Section SpacyVectors_properties.
Context {Sgd : Type} `{Scalar A}.
Variable token_orth : Token → N.

Lemma map_result_row_index (n : nat) (rows : list nat) :
  Forall (λ r, r < n) rows →
  map_result (row_index n) (Z.of_nat <$> rows) = Ok rows.
Proof.
  induction 1 as [|r rows Hr _ IH]; [done|].
  cbn. unfold row_index at 1. rewrite bool_decide_eq_true_2 by lia.
  rewrite bool_decide_eq_false_2 by lia. cbn. rewrite IH. cbn. by rewrite Nat2Z.id.
Qed.

Lemma lookup_bind_rows (X : list A) (d : nat) (rows : list nat) (n : nat) :
  length X = n * d → Forall (λ r, r < n) rows →
  length (rows ≫= λ r, take d (drop (r * d) X)) = length rows * d ∧
  ∀ i r j, rows !! i = Some r → j < d →
    item (rows ≫= λ r, take d (drop (r * d) X)) (i * d + j) = item X (r * d + j).
Proof.
  intros HX. induction 1 as [|r0 rows Hr0 _ [IHlen IH]]; [done|].
  assert (length (take d (drop (r0 * d) X)) = d) as Hchunk.
  { rewrite length_take, length_drop. nia. }
  cbn [mbind list_bind]. split.
  { rewrite length_app, IHlen, Hchunk. cbn. lia. }
  intros [|i] r j Hi Hj.
  - injection Hi as ->. cbn [Nat.mul Nat.add].
    rewrite item_app_l by lia.
    unfold item. rewrite !nth_lookup, lookup_take_lt, lookup_drop by done. done.
  - cbn in Hi.
    replace (S i * d + j) with (length (take d (drop (r0 * d) X)) + (i * d + j))
      by (rewrite Hchunk; lia).
    rewrite item_app_r. by apply IH.
Qed.

Lemma vector_indices_rows (doc : Doc (Vocab A)) :
  data (vector_indices token_orth doc)
  = Z.of_nat <$> (vector_row token_orth doc <$> tokens doc).
Proof.
  unfold vector_indices, vector_row. cbn [data]. rewrite <- list_fmap_compose.
  apply list_fmap_ext. intros i word _. cbn.
  by destruct (key2row (vectors (doc_vocab doc)) !! token_orth word).
Qed.

Lemma vector_row_lt (doc : Doc (Vocab A)) (n d : nat) :
  table_covers doc n d →
  Forall (λ r, r < n) (vector_row token_orth doc <$> tokens doc).
Proof.
  intros (_ & _ & Hrows & Hn). apply Forall_fmap, Forall_forall. intros word Hword.
  unfold vector_row. cbn.
  destruct (key2row (vectors (doc_vocab doc)) !! token_orth word) as [row|] eqn:Hrow.
  - by apply (Hrows _ _ Hrow).
  - cbn. destruct Hn as [Hnil|Hn]; [|done]. rewrite Hnil in Hword. by apply elem_of_nil in Hword.
Qed.

(** X11.  Let the table of every document be a matrix that has all rows of
    its [key2row], and a row 0 unless the document is empty.  Then
    [SpacyVectors] returns one array for each document and no callback; the
    array of a document has one row for each token, and the row of a token
    is the row of the table that [key2row] gives for its identifier, or row
    0 of the table when [key2row] does not have the identifier. *)
Theorem SpacyVectors_rows (docs : list (Doc (Vocab A))) (drop : Q) :
  Forall (λ doc, ∃ n d, table_covers doc n d) docs →
  ∃ batch,
    SpacyVectors (Sgd:=Sgd) token_orth docs drop = Ok (batch, None) ∧
    Forall2 (λ doc vecs, ∃ n d,
               table_covers doc n d ∧
               shape vecs = [length (tokens doc); d] ∧ well_formed vecs ∧
               ∀ i word j, tokens doc !! i = Some word → j < d →
                 item (data vecs) (i * d + j)
                 = item (data (vectors_data (vectors (doc_vocab doc))))
                        (vector_row token_orth doc word * d + j))
            docs batch.
Proof.
  intros Hdocs. unfold SpacyVectors.
  assert (∃ batch,
            map_result (λ doc, getitem_rows (vectors_data (vectors (doc_vocab doc)))
                                 (vector_indices token_orth doc)) docs = Ok batch ∧
            Forall2 (λ doc vecs, ∃ n d,
               table_covers doc n d ∧
               shape vecs = [length (tokens doc); d] ∧ well_formed vecs ∧
               ∀ i word j, tokens doc !! i = Some word → j < d →
                 item (data vecs) (i * d + j)
                 = item (data (vectors_data (vectors (doc_vocab doc))))
                        (vector_row token_orth doc word * d + j))
            docs batch) as (batch & -> & Hbatch); [|by exists batch].
  induction Hdocs as [|doc docs (n & d & Hcov) _ (batch & IHrun & IH)].
  { by exists []. }
  pose proof (vector_row_lt doc n d Hcov) as Hlt.
  pose proof Hcov as (Hshape & Hwf & Hrows & Hn).
  unfold well_formed in Hwf. rewrite Hshape, !size_of_cons, size_of_nil, Nat.mul_1_r in Hwf.
  destruct (lookup_bind_rows (data (vectors_data (vectors (doc_vocab doc)))) d
              (vector_row token_orth doc <$> tokens doc) n Hwf Hlt) as [Hlen Hitems].
  eexists (_ :: batch). cbn [map_result]. unfold getitem_rows at 1. rewrite Hshape.
  rewrite vector_indices_rows, map_result_row_index by done. cbn [bind].
  rewrite IHrun. cbn [bind]. split; [reflexivity|].
  constructor; [|done]. exists n, d. split; [done|].
  cbn [shape data vector_indices app].
  rewrite size_of_cons, size_of_nil, Nat.mul_1_r.
  split; [done|]. split.
  { unfold well_formed. cbn [shape data].
    rewrite Hlen, length_fmap, !size_of_cons, size_of_nil. lia. }
  intros i word j Hi Hj. apply Hitems; [|done].
  by rewrite list_lookup_fmap, Hi.
Qed.

Lemma getitem_rows_raises (X : ndarray A) (ids : ndarray Z) (e : exn) :
  getitem_rows X ids = Raise e → e = IndexError None.
Proof.
  unfold getitem_rows. destruct (shape X) as [|n rest]; [by intros [= <-]|].
  assert (∀ l, match map_result (row_index n) l with
               | Ok _ => True
               | Raise e => e = IndexError None
               end) as Hrows.
  { induction l as [|i l IH]; [done|]. cbn. unfold row_index at 1.
    case_bool_decide; [|done]. cbn.
    destruct (map_result (row_index n) l); done. }
  specialize (Hrows (data ids)).
  destruct (map_result (row_index n) (data ids)); [done|].
  cbn. by intros [= <-].
Qed.

(** X12.  [SpacyVectors] raises nothing but the IndexError of the row
    lookup [data[indices]]; and it does raise it when the batch has a
    document with at least one token whose table has no rows: every token
    asks for a row, row 0 if it has no other. *)
Theorem SpacyVectors_empty_table (docs : list (Doc (Vocab A))) (drop : Q) :
  (∀ e, SpacyVectors (Sgd:=Sgd) token_orth docs drop = Raise e → e = IndexError None) ∧
  (Exists (λ doc, tokens doc ≠ [] ∧
                  head (shape (vectors_data (vectors (doc_vocab doc)))) = Some 0) docs →
   SpacyVectors (Sgd:=Sgd) token_orth docs drop = Raise (IndexError None)).
Proof.
  unfold SpacyVectors.
  assert (∀ e, map_result (λ doc, getitem_rows (vectors_data (vectors (doc_vocab doc)))
                                    (vector_indices token_orth doc)) docs = Raise e →
               e = IndexError None) as Honly.
  { induction docs as [|doc docs IH]; [done|]. intros e. cbn [map_result].
    destruct (getitem_rows _ _) as [vecs|e'] eqn:Hrows.
    - cbn [bind]. destruct (map_result _ docs) as [batch|e'']; [done|].
      cbn. intros [= <-]. by apply IH.
    - cbn. intros [= <-]. by apply getitem_rows_raises in Hrows. }
  split.
  { intros e. destruct (map_result _ docs) as [batch|e'] eqn:Hrun; [done|].
    cbn. intros [= <-]. by apply Honly. }
  intros Hex.
  destruct (map_result _ docs) as [batch|e] eqn:Hrun; [|by rewrite (Honly e)].
  exfalso. clear Honly. revert batch Hrun.
  induction Hex as [doc docs [Htok Hhead]|doc docs _ IH]; intros batch; cbn [map_result].
  - unfold getitem_rows at 1.
    destruct (shape (vectors_data (vectors (doc_vocab doc)))) as [|n rest]; [done|].
    injection Hhead as ->. unfold vector_indices. cbn [data].
    destruct (tokens doc) as [|word words]; [done|]. cbn [fmap list_fmap map_result].
    unfold row_index at 1. rewrite bool_decide_eq_false_2; [done|].
    destruct (key2row _ !! _); lia.
  - destruct (getitem_rows _ _); [|done]. cbn [bind].
    destruct (map_result _ docs) as [batch'|]; [|done]. intros _. by eapply IH.
Qed.

End SpacyVectors_properties.

Lemma SpacyVectors_rows_witness :
  let vocab : Vocab Z :=
    {| lexemes := [];
       vectors := {| name := None;
                     vectors_data := NDArray [2; 2] [1; 2; 3; 4]%Z;
                     key2row := {[ 7%N := 1 ]} |} |} in
  let doc := {| doc_vocab := vocab;
                tokens := [ {| text := "a"; whitespace_ := " " |};
                            {| text := "b"; whitespace_ := EmptyString |} ] |} in
  let token_orth := λ word : Token, if String.eqb (text word) "a" then 7%N else 8%N in
  ∃ batch,
    SpacyVectors (Sgd:=unit) token_orth [doc] 0%Q = Ok (batch, None) ∧
    Forall2 (λ doc vecs, ∃ n d,
               table_covers doc n d ∧
               shape vecs = [length (tokens doc); d] ∧ well_formed vecs ∧
               ∀ i word j, tokens doc !! i = Some word → j < d →
                 item (data vecs) (i * d + j)
                 = item (data (vectors_data (vectors (doc_vocab doc))))
                        (vector_row token_orth doc word * d + j))
            [doc] batch.
Proof.
  intros vocab doc token_orth.
  apply (SpacyVectors_rows (Sgd:=unit) token_orth [doc] 0%Q).
  constructor; [|constructor]. exists 2, 2. split; [reflexivity|]. split; [reflexivity|].
  split; [|right; lia].
  apply map_Forall_singleton. lia.
Defined.

(** ** [_apply_mask] *)

Section apply_mask_properties.
Context `{NumpyRandom G}.

Lemma next_keeps_words (st st' : _RandomWords * G) (r : result string) :
  next st = (r, st') →
  words st'.1 = words st.1 ∧ probs st'.1 = probs st.1 ∧
  ∀ word, r = Ok word → word ∈ words st.1.
Proof.
  destruct st as [self g]. unfold next.
  unfold bind_s at 1. unfold gets at 1. cbn [fst].
  unfold bind_s at 1.
  destruct (decide (_cache self = [])) as [Hemp|Hfull].
  - unfold bind_s at 1. unfold draw_result.
    destruct (random_choice _ _ _ g) as [[drawn|e] g1].
    + unfold modify. unfold bind_s, gets. cbn [fst _cache words probs].
      destruct (last (_cache self ++ drawn)) as [index|].
      * unfold modify. destruct (words self !! index) as [word|] eqn:Hword.
        -- unfold ret_s. intros [= <- <-]. cbn. repeat split.
           intros w [= <-]. by eapply list_elem_of_lookup_2.
        -- unfold lift. intros [= <- <-]. by cbn.
      * unfold lift. intros [= <- <-]. by cbn.
    + intros [= <- <-]. by cbn.
  - unfold ret_s at 1. unfold bind_s, gets. cbn [fst].
    destruct (last (_cache self)) as [index|].
    + unfold modify. destruct (words self !! index) as [word|] eqn:Hword.
      * unfold ret_s. intros [= <- <-]. cbn. repeat split.
        intros w [= <-]. by eapply list_elem_of_lookup_2.
      * unfold lift. intros [= <- <-]. by cbn.
    + unfold lift. intros [= <- <-]. by cbn.
Qed.

Lemma _replace_word_keeps_words (word mask : string) (st st' : _RandomWords * G)
    (r : result string) :
  _replace_word word mask st = (r, st') →
  words st'.1 = words st.1 ∧ probs st'.1 = probs st.1 ∧
  ∀ w, r = Ok w → w = word ∨ w = mask ∨ w ∈ words st.1.
Proof.
  destruct st as [self g]. unfold _replace_word, bind_s, draw.
  destruct (random_random g) as [roll g1].
  destruct (Qlt_le_dec roll (8 # 10)).
  { unfold ret_s. intros [= <- <-]. cbn. repeat split. intros w [= <-]. auto. }
  destruct (Qlt_le_dec roll (9 # 10)).
  - intros Hnext. apply next_keeps_words in Hnext as (Hw & Hp & Hin). cbn in *.
    repeat split; [done|done|]. intros w Hr. right. right. by apply Hin.
  - unfold ret_s. intros [= <- <-]. cbn. repeat split. intros w [= <-]. auto.
Qed.

Lemma _apply_mask_tokens_layout (mask : list bool) (toks : list Token) :
  ∀ (i : nat) (st st' : _RandomWords * G) (ws : list string) (i' : nat),
    _apply_mask_tokens mask toks i st = (Ok (ws, i'), st') →
    words st'.1 = words st.1 ∧ probs st'.1 = probs st.1 ∧
    i' = i + length toks ∧
    Forall2 (λ tok w, w = text tok ∨ w = "[MASK]"%string ∨ w ∈ words st.1) toks ws ∧
    ∀ k tok w, toks !! k = Some tok → ws !! k = Some w →
      mask !! (i + k) = Some true → w = text tok.
Proof.
  induction toks as [|token toks IH]; intros i st st' ws i'.
  { cbn. unfold ret_s. intros [= <- <- <-]. repeat split; [lia|constructor|].
    by intros k tok w Hk. }
  cbn [_apply_mask_tokens]. unfold bind_s at 1.
  destruct (match mask !! i with
            | Some true => ret_s (text token)
            | Some false => _replace_word (text token) "[MASK]"
            | None => lift (Raise (IndexError None))
            end st) as [[word|e] st1] eqn:Hword; [|done].
  unfold bind_s at 1.
  destruct (_apply_mask_tokens mask toks (S i) st1) as [[[ws1 i1]|e] st2] eqn:Hrest; [|done].
  unfold ret_s. intros [= <- <- <-].
  apply IH in Hrest as (Hw & Hp & -> & Hall & Hkept).
  assert (words st1.1 = words st.1 ∧ probs st1.1 = probs st.1 ∧
          (word = text token ∨ word = "[MASK]"%string ∨ word ∈ words st.1) ∧
          (mask !! i = Some true → word = text token)) as (Hw1 & Hp1 & Hword1 & Hkept1).
  { destruct (mask !! i) as [[|]|].
    - unfold ret_s in Hword. injection Hword as <- <-. auto.
    - apply _replace_word_keeps_words in Hword as (? & ? & Hin).
      repeat split; [done|done|by apply Hin|done].
    - done. }
  repeat split.
  - congruence.
  - congruence.
  - cbn. lia.
  - constructor; [done|]. eapply Forall2_impl; [exact Hall|].
    intros tok w [?|[?|?]]; rewrite <- ?Hw1; auto.
  - intros [|k] tok w Htok Hw' Hm.
    + injection Htok as <-. injection Hw' as <-. rewrite Nat.add_0_r in Hm. auto.
    + eapply (Hkept k); [done|done|]. by replace (S i + k) with (i + S k) by lia.
Qed.

Lemma tokens_new_Doc {V} (vocab : V) (toks : list Token) (ws : list string) :
  length ws = length toks →
  Forall2 (λ tok tok', string_bool (whitespace_ tok') = string_bool (whitespace_ tok))
    toks (tokens (new_Doc vocab ws ((λ w, string_bool (whitespace_ w)) <$> toks))) ∧
  text <$> tokens (new_Doc vocab ws ((λ w, string_bool (whitespace_ w)) <$> toks)) = ws.
Proof.
  unfold new_Doc. cbn [tokens]. revert ws.
  induction toks as [|tok toks IH]; intros [|w ws] Hlen; try done.
  cbn in Hlen. destruct (IH ws) as [IH1 IH2]; [lia|].
  cbn. split.
  - constructor; [|done]. cbn. by destruct (string_bool (whitespace_ tok)).
  - by rewrite IH2.
Qed.

Lemma _apply_mask_docs_layout {V} (mask : list bool) (docs : list (Doc V)) :
  ∀ (i : nat) (st st' : _RandomWords * G) (masked_docs : list (Doc V)),
    _apply_mask_docs mask docs i st = (Ok masked_docs, st') →
    words st'.1 = words st.1 ∧ probs st'.1 = probs st.1 ∧
    Forall2 (λ doc doc',
               doc_vocab doc' = doc_vocab doc ∧
               Forall2 (λ tok tok',
                          string_bool (whitespace_ tok') = string_bool (whitespace_ tok) ∧
                          (text tok' = text tok ∨ text tok' = "[MASK]"%string ∨
                           text tok' ∈ words st.1))
                       (tokens doc) (tokens doc'))
            docs masked_docs ∧
    ∀ k tok tok', batch_tokens docs !! k = Some tok →
      batch_tokens masked_docs !! k = Some tok' →
      mask !! (i + k) = Some true → text tok' = text tok.
Proof.
  induction docs as [|doc docs IH]; intros i st st' masked_docs.
  { cbn. unfold ret_s. intros [= <- <-]. repeat split; [constructor|].
    by intros k tok tok' Hk. }
  cbn [_apply_mask_docs]. unfold bind_s at 1.
  destruct (_apply_mask_tokens mask (tokens doc) i st) as [[[ws i1]|e] st1] eqn:Htoks;
    [|done].
  unfold bind_s at 1.
  destruct (_apply_mask_docs mask docs i1 st1) as [[mdocs|e] st2] eqn:Hrest; [|done].
  unfold ret_s. intros [= <- <-].
  apply _apply_mask_tokens_layout in Htoks as (Hw1 & Hp1 & -> & Hall1 & Hkept1).
  apply IH in Hrest as (Hw & Hp & Hall & Hkept).
  pose proof (Forall2_length _ _ _ Hall1) as Hlen.
  destruct (tokens_new_Doc (doc_vocab doc) (tokens doc) ws (eq_sym Hlen)) as [Hsp Htext].
  set (doc' := new_Doc (doc_vocab doc) ws
                 ((λ w, string_bool (whitespace_ w)) <$> tokens doc)) in *.
  pose proof (Forall2_length _ _ _ Hsp) as Hlen'.
  assert (∀ k tok tok', tokens doc !! k = Some tok → tokens doc' !! k = Some tok' →
            ws !! k = Some (text tok')) as Hws.
  { intros k tok tok' _ Htok'. by rewrite <- Htext, list_lookup_fmap, Htok'. }
  repeat split.
  - congruence.
  - congruence.
  - constructor.
    + split; [done|]. apply Forall2_same_length_lookup. split; [done|].
      intros k tok tok' Htok Htok'. split.
      * by eapply (Forall2_lookup_lr _ _ _ _ _ _ Hsp).
      * eapply (Forall2_lookup_lr _ _ _ _ _ _ Hall1); [done|]. by eapply Hws.
    + eapply Forall2_impl; [exact Hall|]. intros d d' [Hv Htoks]. split; [done|].
      eapply Forall2_impl; [exact Htoks|].
      intros tok tok' [? [?|[?|?]]]; rewrite <- ?Hw1; auto.
  - intros k tok tok'. unfold batch_tokens. cbn [fmap list_fmap concat].
    fold (batch_tokens docs). fold (batch_tokens mdocs).
    destruct (decide (k < length (tokens doc))) as [Hk|Hk].
    + rewrite !lookup_app_l by lia. intros Htok Htok' Hm.
      eapply Hkept1; [done| |done]. by eapply Hws.
    + rewrite !lookup_app_r by lia. rewrite <- Hlen'. intros Htok Htok' Hm.
      eapply Hkept; [done|done|].
      by replace (i + length (tokens doc) + (k - length (tokens doc))) with (i + k) by lia.
Qed.

(** X13.  When [_apply_mask] returns, the mask has one entry for each
    token of the batch, and there is one new document for each document,
    on the same vocabulary and with as many tokens.  A token of a new
    document is followed by a space exactly when the token it stands for
    is; its text is the text of that token, the marker [MASK], or a word of
    the sampler; and where the mask is true it is the text of that token.
    The word list and the probabilities of the sampler are as before. *)
Theorem _apply_mask_layout {V} (docs : list (Doc V)) (mask_prob : Q)
    (random_words : _RandomWords) (g : G) (mask : list bool)
    (masked_docs : list (Doc V)) (st' : _RandomWords * G) :
  _apply_mask docs mask_prob (random_words, g) = (Ok (mask, masked_docs), st') →
  length mask = length (batch_tokens docs) ∧
  Forall2 (λ doc doc',
             doc_vocab doc' = doc_vocab doc ∧
             Forall2 (λ tok tok',
                        string_bool (whitespace_ tok') = string_bool (whitespace_ tok) ∧
                        (text tok' = text tok ∨ text tok' = "[MASK]"%string ∨
                         text tok' ∈ words random_words))
                     (tokens doc) (tokens doc'))
          docs masked_docs ∧
  (∀ i tok tok', batch_tokens docs !! i = Some tok →
     batch_tokens masked_docs !! i = Some tok' →
     mask !! i = Some true → text tok' = text tok) ∧
  words st'.1 = words random_words ∧ probs st'.1 = probs random_words.
Proof.
  intros Hrun.
  assert (token_count docs = length (batch_tokens docs)) as Hcount.
  { unfold token_count, batch_tokens. clear Hrun. induction docs as [|doc docs IH]; [done|].
    cbn. rewrite length_app, IH. done. }
  revert Hrun. unfold _apply_mask, bind_s, draw. fold (token_count docs).
  pose proof (random_uniform_length (token_count docs) g) as Hlen.
  destruct (random_uniform (token_count docs) g) as [us g1]. cbn [fst] in Hlen.
  destruct (_apply_mask_docs _ docs 0 _) as [[mdocs|e] st1] eqn:Hdocs; [|done].
  unfold ret_s. intros [= <- <- <-].
  apply _apply_mask_docs_layout in Hdocs as (Hw & Hp & Hall & Hkept). cbn [fst] in *.
  split; [by rewrite length_fmap, Hlen|]. split; [done|]. split; [|done].
  intros i tok tok' Htok Htok' Hm. by eapply (Hkept i).
Qed.

Lemma _replace_word_ok (random_words : _RandomWords) (word mask : string) :
  words random_words ≠ [] →
  length (probs random_words) = length (words random_words) →
  ssum (probs random_words) = 1%R →
  Forall (λ x, 0 <= x)%R (probs random_words) →
  ∀ self g, sampler_inv random_words self →
    ∃ w self' g', _replace_word word mask (self, g) = (Ok w, (self', g')) ∧
                  sampler_inv random_words self'.
Proof.
  intros Hne Hlen Hsum Hpos self g Hinv. unfold _replace_word, bind_s, draw.
  destruct (random_random g) as [roll g1].
  destruct (Qlt_le_dec roll (8 # 10)); [by eexists _, _, _|].
  destruct (Qlt_le_dec roll (9 # 10)); [|by eexists _, _, _].
  destruct (next_ok random_words Hne Hlen Hsum Hpos self g1 Hinv)
    as (w & self' & g' & Hnext & _ & Hinv').
  by exists w, self', g'.
Qed.

Lemma _apply_mask_tokens_ok (random_words : _RandomWords) (mask : list bool)
    (toks : list Token) :
  words random_words ≠ [] →
  length (probs random_words) = length (words random_words) →
  ssum (probs random_words) = 1%R →
  Forall (λ x, 0 <= x)%R (probs random_words) →
  ∀ i self g, sampler_inv random_words self → i + length toks ≤ length mask →
    ∃ ws self' g',
      _apply_mask_tokens mask toks i (self, g) = (Ok (ws, i + length toks), (self', g')) ∧
      sampler_inv random_words self'.
Proof.
  intros Hne Hlen Hsum Hpos.
  induction toks as [|token toks IH]; intros i self g Hinv Hi.
  { exists [], self, g. cbn. by rewrite Nat.add_0_r. }
  cbn [length] in Hi. cbn [_apply_mask_tokens]. unfold bind_s at 1.
  destruct (lookup_lt_is_Some_2 mask i) as [kept Hkept]; [lia|]. rewrite Hkept.
  assert (∃ w self1 g1,
            (if kept then ret_s (text token)
             else _replace_word (text token) "[MASK]") (self, g)
            = (Ok w, (self1, g1)) ∧ sampler_inv random_words self1)
    as (w & self1 & g1 & Hw & Hinv1).
  { destruct kept; [by eexists _, _, _|]. by apply _replace_word_ok. }
  destruct kept; rewrite Hw; unfold bind_s at 1;
    (destruct (IH (S i) self1 g1 Hinv1) as (ws & self' & g' & Hrest & Hinv'); [lia|]);
    rewrite Hrest; unfold ret_s; exists (w :: ws), self', g';
    (split; [|done]); cbn [length]; do 3 f_equal; lia.
Qed.

Lemma _apply_mask_docs_ok {V} (random_words : _RandomWords) (mask : list bool)
    (docs : list (Doc V)) :
  words random_words ≠ [] →
  length (probs random_words) = length (words random_words) →
  ssum (probs random_words) = 1%R →
  Forall (λ x, 0 <= x)%R (probs random_words) →
  ∀ i self g, sampler_inv random_words self → i + token_count docs ≤ length mask →
    ∃ masked_docs self' g',
      _apply_mask_docs mask docs i (self, g) = (Ok masked_docs, (self', g')) ∧
      sampler_inv random_words self'.
Proof.
  intros Hne Hlen Hsum Hpos.
  induction docs as [|doc docs IH]; intros i self g Hinv Hi.
  { by exists [], self, g. }
  cbn [token_count foldr] in Hi. fold (token_count docs) in Hi.
  cbn [_apply_mask_docs]. unfold bind_s at 1.
  destruct (_apply_mask_tokens_ok random_words mask (tokens doc) Hne Hlen Hsum Hpos
              i self g Hinv) as (ws & self1 & g1 & -> & Hinv1); [lia|].
  unfold bind_s at 1.
  destruct (IH (i + length (tokens doc)) self1 g1 Hinv1)
    as (mdocs & self' & g' & -> & Hinv'); [lia|].
  by eexists _, self', g'.
Qed.

(** X14.  A sampler built from a vocabulary with at least one lexeme of
    nonzero smoothed probability never makes [_apply_mask] fail: for every
    batch, every masking probability and every state of the generator, and
    whatever the number of words the sampler has handed out before, the
    call returns a mask and the new documents, and the sampler remains as
    good for the next call. *)
Theorem _apply_mask_returns {A V} (vocab : Vocab A) (docs : list (Doc V))
    (mask_prob : Q) (self : _RandomWords) (g : G) :
  nonzero_lexemes vocab ≠ [] →
  sampler_inv (_RandomWords_init vocab) self →
  ∃ mask masked_docs self' g',
    _apply_mask docs mask_prob (self, g) = (Ok (mask, masked_docs), (self', g')) ∧
    sampler_inv (_RandomWords_init vocab) self'.
Proof.
  intros Hvocab Hinv.
  set (random_words := _RandomWords_init vocab) in *.
  assert (length (probs random_words) = length (words random_words)) as Hlen.
  { subst random_words. unfold _RandomWords_init. cbn [words probs].
    by rewrite !length_fmap, !length_take, !length_fmap. }
  assert (words random_words ≠ []) as Hne.
  { subst random_words. unfold _RandomWords_init. cbn [words].
    fold (nonzero_lexemes vocab). intros Hnil. apply (f_equal length) in Hnil.
    rewrite length_take, length_fmap in Hnil.
    pose proof cache_size_pos. destruct (nonzero_lexemes vocab); [done|]. cbn in Hnil. lia. }
  destruct (probs_distribution vocab Hvocab) as [Hsum Hpos].
  unfold _apply_mask, bind_s, draw. fold (token_count docs).
  pose proof (random_uniform_length (token_count docs) g) as Hus.
  destruct (random_uniform (token_count docs) g) as [us g1]. cbn [fst] in Hus.
  destruct (_apply_mask_docs_ok random_words ((λ u, Qle_bool mask_prob u) <$> us) docs
              Hne Hlen Hsum Hpos 0 self g1 Hinv) as (mdocs & self' & g' & -> & Hinv').
  { rewrite length_fmap. lia. }
  by eexists _, _, self', g'.
Qed.

Lemma _apply_mask_tokens_kept (mask : list bool) (toks : list Token) :
  ∀ (i : nat) (st : _RandomWords * G),
    (∀ k, k < length toks → mask !! (i + k) = Some true) →
    _apply_mask_tokens mask toks i st = (Ok (text <$> toks, i + length toks), st).
Proof.
  induction toks as [|token toks IH]; intros i st Hmask.
  { cbn. by rewrite Nat.add_0_r. }
  cbn [_apply_mask_tokens]. unfold bind_s at 1.
  pose proof (Hmask 0) as H0. rewrite Nat.add_0_r in H0. rewrite H0 by (cbn; lia).
  unfold ret_s at 1. unfold bind_s at 1. rewrite IH.
  - unfold ret_s. cbn [length fmap list_fmap]. do 3 f_equal. lia.
  - intros k Hk. replace (S i + k) with (i + S k) by lia. apply Hmask. cbn. lia.
Qed.

Lemma _apply_mask_docs_kept {V} (mask : list bool) (docs : list (Doc V)) :
  ∀ (i : nat) (st : _RandomWords * G),
    (∀ k, k < token_count docs → mask !! (i + k) = Some true) →
    _apply_mask_docs mask docs i st = (Ok (rebuilt <$> docs), st).
Proof.
  induction docs as [|doc docs IH]; intros i st Hmask; [done|].
  cbn [token_count foldr] in Hmask. fold (token_count docs) in Hmask.
  cbn [_apply_mask_docs]. unfold bind_s at 1.
  rewrite _apply_mask_tokens_kept by (intros k Hk; apply Hmask; lia).
  unfold bind_s at 1. rewrite IH.
  - done.
  - intros k Hk. rewrite <- Nat.add_assoc. apply Hmask. lia.
Qed.

Lemma rebuilt_same {V} (doc : Doc V) :
  Forall (λ tok, whitespace_ tok = " "%string ∨ whitespace_ tok = EmptyString)
    (tokens doc) →
  rebuilt doc = doc.
Proof.
  destruct doc as [vocab toks]. unfold rebuilt, new_Doc. cbn [doc_vocab tokens].
  intros Hws. f_equal. induction Hws as [|[txt ws] toks Htok _ IH]; [done|].
  cbn in *. rewrite IH. by destruct Htok as [-> | ->].
Qed.

Lemma _apply_mask_keeps_all {V} (docs : list (Doc V)) (mask_prob : Q)
    (random_words : _RandomWords) (g : G) :
  (mask_prob <= 0)%Q →
  _apply_mask docs mask_prob (random_words, g)
  = (Ok (replicate (token_count docs) true, rebuilt <$> docs),
     (random_words, (random_uniform (token_count docs) g).2)).
Proof.
  intros Hprob. unfold _apply_mask, bind_s, draw. fold (token_count docs).
  pose proof (random_uniform_length (token_count docs) g) as Hlen.
  pose proof (random_uniform_range (token_count docs) g) as Hrange.
  destruct (random_uniform (token_count docs) g) as [us g1]. cbn [fst snd] in *.
  assert ((λ u, Qle_bool mask_prob u) <$> us = replicate (token_count docs) true) as ->.
  { rewrite <- Hlen. clear Hlen. induction Hrange as [|u us [Hu _] _ IH]; [done|].
    cbn. rewrite IH. f_equal. apply Qle_bool_iff. by eapply Qle_trans. }
  rewrite _apply_mask_docs_kept; [done|].
  intros k Hk. by apply lookup_replicate_2.
Qed.

(** X15.  With a masking probability of zero or less [_apply_mask] masks
    nothing: the mask is true for every token, every new document has the
    words of its document (and is that document, when each of its tokens is
    followed by one space or by nothing), the sampler is not touched, and
    the generator has made the one draw of the uniform numbers. *)
Theorem _apply_mask_zero_prob {V} (docs : list (Doc V)) (mask_prob : Q)
    (random_words : _RandomWords) (g : G) :
  (mask_prob <= 0)%Q →
  _apply_mask docs mask_prob (random_words, g)
  = (Ok (replicate (token_count docs) true, rebuilt <$> docs),
     (random_words, (random_uniform (token_count docs) g).2)) ∧
  (Forall (λ doc, Forall (λ tok, whitespace_ tok = " "%string ∨
                                 whitespace_ tok = EmptyString) (tokens doc)) docs →
   rebuilt <$> docs = docs).
Proof.
  intros Hprob. split; [by apply _apply_mask_keeps_all|].
  intros Hall. induction Hall as [|doc docs Hdoc _ IH]; [done|].
  cbn. by rewrite rebuilt_same, IH.
Qed.

Section mlm_zero_prob.
Context {Sgd : Type} `{Scalar A}.

Lemma zeros_by_items (d : ndarray A) (sh : list nat) :
  shape d = sh → well_formed d →
  (∀ p, p < size_of sh → item (data d) p = s0) →
  d = allocate sh.
Proof.
  destruct d as [sh' dat]. cbn [shape data]. intros -> Hwf Hitems.
  unfold allocate. f_equal. unfold well_formed in Hwf. cbn [shape data] in Hwf.
  apply list_eq. intros p. destruct (decide (p < size_of sh)) as [Hp|Hp].
  - rewrite lookup_replicate_2 by done.
    destruct (lookup_lt_is_Some_2 dat p) as [x Hx]; [lia|].
    rewrite Hx. f_equal. rewrite <- (Hitems p Hp). symmetry. by apply item_lookup.
  - rewrite !lookup_ge_None_2; [done| |]; rewrite ?length_replicate; lia.
Qed.

(** X16.  With a masking probability of zero or less the model returned by
    [masked_language_model] learns nothing.  Its forward pass runs the
    wrapped model on the documents with their own words and returns its
    output, or raises what it raises, without touching the sampler; and
    whatever gradient of the output its callback is given, it hands the
    callback of the wrapped model an array of zeros. *)
Theorem mlm_forward_zero_prob {V dI}
    (model : Layer4 Sgd (list (Doc V)) (ndarray A) (ndarray A) dI)
    (mask_prob : Q) (docs : list (Doc V)) (drop : Q)
    (random_words : _RandomWords) (g : G) :
  (mask_prob <= 0)%Q →
  let st' := (random_words, (random_uniform (token_count docs) g).2) in
  match model (rebuilt <$> docs) drop with
  | Ok (output, backprop) =>
      ∃ mlm_backward,
        mlm_forward model mask_prob docs drop (random_words, g)
        = (Ok (output, mlm_backward), st') ∧
        ∀ (d_output : ndarray A) (sgd : option Sgd) (w : nat),
          shape d_output = [token_count docs; w] → well_formed d_output →
          mlm_backward d_output sgd = backprop (allocate [token_count docs; w]) sgd
  | Raise e => mlm_forward model mask_prob docs drop (random_words, g) = (Raise e, st')
  end.
Proof.
  intros Hprob st'.
  assert (_apply_mask docs mask_prob (random_words, g)
          = (Ok (replicate (token_count docs) true, rebuilt <$> docs), st')) as Hmask.
  { by apply _apply_mask_keeps_all. }
  destruct (model (rebuilt <$> docs) drop) as [[output backprop]|e] eqn:Hmodel;
    unfold mlm_forward; unfold bind_s at 1; rewrite Hmask;
    unfold bind_s at 1; unfold lift at 1; unfold reshape; cbn [data];
    rewrite length_replicate;
    rewrite decide_True by (rewrite !size_of_cons, size_of_nil; lia);
    unfold bind_s at 1; unfold lift at 1; rewrite Hmodel; [|done].
  unfold ret_s. eexists. split; [reflexivity|].
  intros d_output sgd w Hshape Hwf.
  destruct (iop_smul_rows d_output
              (amap (λ m, of_nat (1 - Nat.b2n m))
                 (NDArray [token_count docs; 1] (replicate (token_count docs) true)))
              (token_count docs) w)
    as (d' & -> & Hshape' & Hwf' & Hitems); [done|done|done|].
  cbn [bind]. f_equal. apply zeros_by_items; [done|done|].
  intros p Hp. rewrite size_of_cons, size_of_cons, size_of_nil, Nat.mul_1_r in Hp.
  assert (0 < w) as Hw by (destruct w; lia).
  rewrite (Nat.div_mod_eq p w), (Nat.mul_comm w).
  assert (p / w < token_count docs) as Hrow by (apply Nat.Div0.div_lt_upper_bound; lia).
  rewrite Hitems by (done || apply Nat.mod_upper_bound; lia).
  cbn [amap data].
  rewrite (item_lookup _ (p / w) s0); [apply smul_0_r|].
  rewrite list_lookup_fmap, lookup_replicate_2 by done. done.
Qed.

End mlm_zero_prob.

End apply_mask_properties.

Lemma _apply_mask_returns_witness :
  let vocab : Vocab Z :=
    {| lexemes := [ {| lex_text := "the"%string; orth := 1; rank := 0; prob := -1 |} ];
       vectors := {| name := None; vectors_data := NDArray [0; 0] []; key2row := ∅ |} |} in
  let docs := [ {| doc_vocab := tt;
                   tokens := [ {| text := "a"%string; whitespace_ := " "%string |};
                               {| text := "b"%string; whitespace_ := EmptyString |} ] |} ] in
  ∃ mask masked_docs self' g',
    _apply_mask docs (15 # 100) (_RandomWords_init vocab, 0)
    = (Ok (mask, masked_docs), (self', g')) ∧
    sampler_inv (_RandomWords_init vocab) self'.
Proof.
  intros vocab docs.
  apply (_apply_mask_returns vocab docs (15 # 100) (_RandomWords_init vocab) 0).
  - done.
  - split; [done|]. split; [done|]. constructor.
Defined.

Lemma _apply_mask_zero_prob_witness :
  let docs := [ {| doc_vocab := tt;
                   tokens := [ {| text := "a"%string; whitespace_ := " "%string |};
                               {| text := "b"%string; whitespace_ := EmptyString |} ] |} ] in
  let random_words := {| words := []; probs := []; _cache := [] |} in
  _apply_mask docs 0 (random_words, 0)
  = (Ok ([true; true], rebuilt <$> docs), (random_words, 2)) ∧
  (Forall (λ doc, Forall (λ tok, whitespace_ tok = " "%string ∨
                                 whitespace_ tok = EmptyString) (tokens doc)) docs →
   rebuilt <$> docs = docs).
Proof.
  intros docs random_words.
  refine (_apply_mask_zero_prob docs 0 random_words 0 _). by compute.
Defined.

Lemma mlm_forward_zero_prob_witness :
  let docs := [ {| doc_vocab := tt;
                   tokens := [ {| text := "a"%string; whitespace_ := " "%string |};
                               {| text := "b"%string; whitespace_ := EmptyString |} ] |} ] in
  let random_words := {| words := []; probs := []; _cache := [] |} in
  let model : Layer4 unit (list (Doc ())) (ndarray Z) (ndarray Z) (ndarray Z) :=
    λ docs drop, Ok (NDArray [2; 1] [7; 8]%Z, λ d sgd, Ok d) in
  ∃ mlm_backward,
    mlm_forward model 0 docs 0%Q (random_words, 0)
    = (Ok (NDArray [2; 1] [7; 8]%Z, mlm_backward), (random_words, 2)) ∧
    ∀ (d_output : ndarray Z) (sgd : option unit) (w : nat),
      shape d_output = [2; w] → well_formed d_output →
      mlm_backward d_output sgd = Ok (allocate [2; w]).
Proof.
  intros docs random_words model.
  refine (mlm_forward_zero_prob model 0 docs 0%Q random_words 0 _). by compute.
Defined.

Lemma _apply_mask_layout_witness :
  let docs := [ {| doc_vocab := tt;
                   tokens := [ {| text := "a"%string; whitespace_ := " "%string |};
                               {| text := "b"%string; whitespace_ := EmptyString |} ] |} ] in
  let random_words := {| words := []; probs := []; _cache := [] |} in
  let mask := [false; true] in
  let masked_docs := [new_Doc tt ["[MASK]"; "b"]%string [true; false]] in
  length mask = length (batch_tokens docs) ∧
  Forall2 (λ doc doc',
             doc_vocab doc' = doc_vocab doc ∧
             Forall2 (λ tok tok',
                        string_bool (whitespace_ tok') = string_bool (whitespace_ tok) ∧
                        (text tok' = text tok ∨ text tok' = "[MASK]"%string ∨
                         text tok' ∈ words random_words))
                     (tokens doc) (tokens doc'))
          docs masked_docs ∧
  (∀ i tok tok', batch_tokens docs !! i = Some tok →
     batch_tokens masked_docs !! i = Some tok' →
     mask !! i = Some true → text tok' = text tok) ∧
  words random_words = words random_words ∧ probs random_words = probs random_words.
Proof.
  intros docs random_words mask masked_docs.
  refine (_apply_mask_layout docs (5 # 100) random_words 0 mask masked_docs
            (random_words, 3) _).
  reflexivity.
Defined.

(** ** [link_vectors_to_models]: the registry, the warning and repeated calls *)

Section link_vectors_properties.
Context {A : Type}.

Lemma set_rank_ranks (k : gmap N nat) (lexs : list Lexeme) :
  (λ word, match k !! orth word with
           | Some row => set_rank row word
           | None => set_rank 0 word
           end) <$>
    ((λ word, match k !! orth word with
              | Some row => set_rank row word
              | None => set_rank 0 word
              end) <$> lexs)
  = (λ word, match k !! orth word with
             | Some row => set_rank row word
             | None => set_rank 0 word
             end) <$> lexs.
Proof.
  rewrite <- list_fmap_compose. apply list_fmap_ext. intros i word _. cbn.
  destruct (k !! orth word) as [row|] eqn:Hrow; cbn; by rewrite Hrow.
Qed.

(** What the call does when it returns. *)
Lemma link_vectors_to_models_returns (device : string) (vocab vocab' : Vocab A)
    (world world' : World A) :
  link_vectors_to_models device (vocab, world) = (Ok tt, (vocab', world')) →
  let name' := default VECTORS_KEY (name (vectors vocab)) in
  vocab' = {| lexemes := (λ word, match key2row (vectors vocab) !! orth word with
                                  | Some row => set_rank row word
                                  | None => set_rank 0 word
                                  end) <$> lexemes vocab;
              vectors := {| name := Some name';
                            vectors_data := vectors_data (vectors vocab);
                            key2row := key2row (vectors vocab) |} |} ∧
  world' = {| VECTORS := <[(device, name') := vectors_data (vectors vocab)]> (VECTORS world);
              stdout := stdout world ++ link_warning vocab |}.
Proof.
  unfold link_vectors_to_models, link_warning.
  destruct vocab as [lexs [nm dat k2r]]; cbn [vectors lexemes name vectors_data key2row].
  destruct nm as [n|].
  { cbn. intros [= <- <-]. by rewrite app_nil_r. }
  destruct (decide (size_of (shape dat) ≠ 0)) as [Hsize|Hsize].
  - destruct (shape dat) as [|rows [|cols [|more rest]]] eqn:Hshape; cbn; try done.
    intros [= <- <-]. rewrite !size_of_cons, size_of_nil, Nat.mul_1_r in Hsize.
    by rewrite decide_True.
  - cbn. intros [= <- <-]. split; [done|]. f_equal.
    destruct (shape dat) as [|rows [|cols [|more rest]]] eqn:Hshape;
      rewrite ?app_nil_r; try done.
    rewrite !size_of_cons, size_of_nil, Nat.mul_1_r in Hsize.
    by rewrite decide_False, app_nil_r.
Qed.

(** X17.  After a call of [link_vectors_to_models] that returns, the
    registry [VECTORS] holds the data of the table under the key (device,
    name of the table), and every other entry of it is as before; the data
    and [key2row] of the table are not changed; and the call has printed
    the warning, once, exactly when the table had no name and its data is a
    non-empty matrix, and nothing else. *)
Theorem link_vectors_to_models_registers (device : string) (vocab vocab' : Vocab A)
    (world world' : World A) :
  link_vectors_to_models device (vocab, world) = (Ok tt, (vocab', world')) →
  ∃ name',
    name (vectors vocab') = Some name' ∧
    VECTORS world' !! (device, name') = Some (vectors_data (vectors vocab')) ∧
    (∀ key, key ≠ (device, name') → VECTORS world' !! key = VECTORS world !! key) ∧
    vectors_data (vectors vocab') = vectors_data (vectors vocab) ∧
    key2row (vectors vocab') = key2row (vectors vocab) ∧
    stdout world' = stdout world ++ link_warning vocab.
Proof.
  intros Hrun. apply link_vectors_to_models_returns in Hrun as [-> ->].
  eexists. cbn [vectors name vectors_data key2row VECTORS stdout].
  split; [reflexivity|]. split; [apply lookup_insert_eq|].
  split; [|done]. intros key Hkey. by apply lookup_insert_ne.
Qed.

(** X18.  A second call of [link_vectors_to_models], in the state that a
    first call has returned in, changes nothing: the ranks, the name, the
    registry and the output are those of the first call, so the warning is
    not printed again. *)
Theorem link_vectors_to_models_idempotent (device : string) (vocab vocab' : Vocab A)
    (world world' : World A) :
  link_vectors_to_models device (vocab, world) = (Ok tt, (vocab', world')) →
  link_vectors_to_models device (vocab', world') = (Ok tt, (vocab', world')).
Proof.
  intros Hrun. apply link_vectors_to_models_returns in Hrun as [-> ->].
  unfold link_vectors_to_models.
  cbn [vectors lexemes name vectors_data key2row VECTORS stdout default from_option].
  unfold Datatypes.id. rewrite set_rank_ranks, insert_insert_eq, app_nil_r. done.
Qed.

(** X19.  A call of [link_vectors_to_models] that raises has given the
    table its name and has done nothing else: the ranks, the registry and
    the output are as before.  Since the table now has a name, the same
    call made again does not reach the warning that failed: it returns,
    without printing. *)
Theorem link_vectors_to_models_retry (device : string) (vocab vocab1 : Vocab A)
    (world world1 : World A) (e : exn) :
  link_vectors_to_models device (vocab, world) = (Raise e, (vocab1, world1)) →
  e = TypeError ∧
  lexemes vocab1 = lexemes vocab ∧
  name (vectors vocab1) = Some VECTORS_KEY ∧
  world1 = world ∧
  ∃ vocab2 world2,
    link_vectors_to_models device (vocab1, world1) = (Ok tt, (vocab2, world2)) ∧
    stdout world2 = stdout world.
Proof.
  unfold link_vectors_to_models at 1.
  destruct vocab as [lexs [nm dat k2r]]; cbn [vectors lexemes name vectors_data key2row].
  destruct nm as [n|]; [done|].
  destruct (decide (size_of (shape dat) ≠ 0)) as [Hsize|Hsize]; [|done].
  destruct world as [V out].
  destruct (shape dat) as [|rows [|cols [|more rest]]] eqn:Hshape; cbn; try done.
  all: intros [= <- <- <-]; rewrite app_nil_r; repeat split.
  all: eexists _, _; split; [reflexivity|]; cbn; by rewrite app_nil_r.
Qed.

End link_vectors_properties.

Lemma link_vectors_to_models_registers_witness :
  let vocab : Vocab Z :=
    {| lexemes := [ {| lex_text := "the"%string; orth := 7; rank := 5; prob := -1 |} ];
       vectors := {| name := None;
                     vectors_data := NDArray [2; 2] [1; 2; 3; 4]%Z;
                     key2row := {[ 7%N := 1 ]} |} |} in
  let world : World Z := {| VECTORS := ∅; stdout := [] |} in
  ∃ vocab' world' name',
    link_vectors_to_models "cpu" (vocab, world) = (Ok tt, (vocab', world')) ∧
    name (vectors vocab') = Some name' ∧
    VECTORS world' !! ("cpu"%string, name') = Some (vectors_data (vectors vocab')) ∧
    (∀ key, key ≠ ("cpu"%string, name') → VECTORS world' !! key = VECTORS world !! key) ∧
    vectors_data (vectors vocab') = vectors_data (vectors vocab) ∧
    key2row (vectors vocab') = key2row (vectors vocab) ∧
    stdout world' = [Warning_unnamed_vectors 2 2].
Proof.
  intros vocab world.
  destruct (link_vectors_to_models "cpu" (vocab, world)) as [[[]|e] [vocab' world']] eqn:Hrun.
  - destruct (link_vectors_to_models_registers "cpu" vocab vocab' world world' Hrun)
      as (name' & H1 & H2 & H3 & H4 & H5 & H6).
    by exists vocab', world', name'.
  - discriminate Hrun.
Defined.

Lemma link_vectors_to_models_idempotent_witness :
  let vocab : Vocab Z :=
    {| lexemes := [ {| lex_text := "the"%string; orth := 7; rank := 5; prob := -1 |} ];
       vectors := {| name := None;
                     vectors_data := NDArray [2; 2] [1; 2; 3; 4]%Z;
                     key2row := {[ 7%N := 1 ]} |} |} in
  let world : World Z := {| VECTORS := ∅; stdout := [] |} in
  ∃ vocab' world',
    link_vectors_to_models "cpu" (vocab, world) = (Ok tt, (vocab', world')) ∧
    link_vectors_to_models "cpu" (vocab', world') = (Ok tt, (vocab', world')).
Proof.
  intros vocab world.
  destruct (link_vectors_to_models "cpu" (vocab, world)) as [[[]|e] [vocab' world']] eqn:Hrun.
  - exists vocab', world'. split; [done|].
    by apply (link_vectors_to_models_idempotent "cpu" vocab vocab' world world').
  - discriminate Hrun.
Defined.

Lemma link_vectors_to_models_retry_witness :
  let vocab : Vocab Z :=
    {| lexemes := [ {| lex_text := "the"%string; orth := 7; rank := 5; prob := -1 |} ];
       vectors := {| name := None;
                     vectors_data := NDArray [3] [1; 2; 3]%Z;
                     key2row := {[ 7%N := 1 ]} |} |} in
  let world : World Z := {| VECTORS := ∅; stdout := [] |} in
  ∃ vocab1 world1 vocab2 world2,
    link_vectors_to_models "cpu" (vocab, world) = (Raise TypeError, (vocab1, world1)) ∧
    lexemes vocab1 = lexemes vocab ∧
    name (vectors vocab1) = Some VECTORS_KEY ∧
    world1 = world ∧
    link_vectors_to_models "cpu" (vocab1, world1) = (Ok tt, (vocab2, world2)) ∧
    stdout world2 = [].
Proof.
  intros vocab world.
  destruct (link_vectors_to_models "cpu" (vocab, world)) as [[[]|e] [vocab1 world1]] eqn:Hrun.
  - discriminate Hrun.
  - destruct (link_vectors_to_models_retry "cpu" vocab vocab1 world world1 e Hrun)
      as (-> & H1 & H2 & H3 & vocab2 & world2 & H4 & H5).
    by exists vocab1, world1, vocab2, world2.
Defined.

(** ** [PrecomputableAffine.backward]: the gradients *)

Lemma ravel_lt (sh idx : list nat) : in_bounds sh idx → ravel sh idx < size_of sh.
Proof.
  unfold in_bounds. revert idx. induction sh as [|d sh IH]; intros idx Hin.
  { apply Forall2_nil_inv_r in Hin as ->. cbn. lia. }
  apply Forall2_cons_inv_r in Hin as (i & idx' & Hi & Hrest & ->).
  cbn [ravel]. rewrite size_of_cons. specialize (IH idx' Hrest). nia.
Qed.

Lemma unravel_ravel (sh idx : list nat) :
  in_bounds sh idx → unravel sh (ravel sh idx) = idx.
Proof.
  unfold in_bounds. revert idx. induction sh as [|d sh IH]; intros idx Hin.
  { by apply Forall2_nil_inv_r in Hin as ->. }
  apply Forall2_cons_inv_r in Hin as (i & idx' & Hi & Hrest & ->).
  pose proof (ravel_lt sh idx' Hrest) as Hlt.
  cbn [ravel unravel]. rewrite div_mul_add, mod_mul_add by done.
  by rewrite IH.
Qed.

Section backward_gradients.
Context `{Scalar A}.

Lemma reshape_eq (a : ndarray A) (sh : list nat) :
  size_of sh = length (data a) → reshape a sh = Ok (NDArray sh (data a)).
Proof. intros Hsize. unfold reshape. by rewrite decide_True. Qed.

(** The entries of [a.transpose(axes)] at a multi-index. *)
Lemma item_transpose (a : ndarray A) (axes j : list nat) :
  is_axes axes (length (shape a)) = true →
  let sh := (λ ax, nth ax (shape a) 0) <$> axes in
  in_bounds sh j →
  ∃ b, transpose axes a = Ok b ∧ shape b = sh ∧ well_formed b ∧
       item (data b) (ravel sh j)
       = item (data a) (ravel (shape a) (transpose_index (shape a) axes j)).
Proof.
  intros Haxes sh Hj. unfold transpose. rewrite Haxes. fold sh.
  eexists. split; [reflexivity|]. cbn [shape data]. split; [done|]. split.
  { unfold well_formed. cbn [shape data]. by rewrite length_tabulate. }
  rewrite item_tabulate by by apply ravel_lt.
  by rewrite unravel_ravel.
Qed.

Lemma map_result_row_index_picked (T : nat) (l : list Z) :
  Forall (λ i, - Z.of_nat T ≤ i < Z.of_nat T)%Z l →
  map_result (row_index T) l = Ok (picked_row T <$> l) ∧
  Forall (λ r, r < T) (picked_row T <$> l).
Proof.
  induction 1 as [|i l Hi _ [IH1 IH2]]; [done|].
  cbn. unfold row_index at 1. rewrite bool_decide_eq_true_2 by done. cbn [bind].
  rewrite IH1. cbn [bind]. split; [done|]. constructor; [|done].
  unfold picked_row. case_bool_decide; lia.
Qed.

Lemma map_result_row_index_raises (T : nat) (l : list Z) :
  Exists (λ i, ¬ (- Z.of_nat T ≤ i < Z.of_nat T)%Z) l →
  map_result (row_index T) l = Raise (IndexError None).
Proof.
  induction 1 as [i l Hi|i l _ IH].
  - cbn. unfold row_index at 1. by rewrite bool_decide_eq_false_2.
  - cbn. unfold row_index at 1. case_bool_decide; [|done]. cbn [bind]. by rewrite IH.
Qed.

(** The rows that [X[ids]] picks. *)
Lemma getitem_rows_picked (X : ndarray A) (ids : ndarray Z) (T nI : nat) :
  shape X = [T; nI] → well_formed X →
  Forall (λ i, - Z.of_nat T ≤ i < Z.of_nat T)%Z (data ids) →
  ∃ Xf, getitem_rows X ids = Ok Xf ∧ shape Xf = shape ids ++ [nI] ∧
        length (data Xf) = length (data ids) * nI ∧
        ∀ k i r, data ids !! k = Some r → i < nI →
          item (data Xf) (k * nI + i) = item (data X) (picked_row T r * nI + i).
Proof.
  intros HX Hwf Hids. unfold getitem_rows. rewrite HX.
  destruct (map_result_row_index_picked T (data ids) Hids) as [-> Hrows]. cbn [bind].
  rewrite size_of_cons, size_of_nil, Nat.mul_1_r.
  unfold well_formed in Hwf. rewrite HX, !size_of_cons, size_of_nil, Nat.mul_1_r in Hwf.
  eexists. split; [reflexivity|]. cbn [shape data]. split; [done|].
  assert (∀ rows, Forall (λ r, r < T) rows →
            length (rows ≫= λ r, take nI (drop (r * nI) (data X))) = length rows * nI ∧
            ∀ k i r, rows !! k = Some r → i < nI →
              item (rows ≫= λ r, take nI (drop (r * nI) (data X))) (k * nI + i)
              = item (data X) (r * nI + i)) as Hbind.
  { induction 1 as [|r0 rows Hr0 _ [IHlen IH]]; [done|].
    assert (length (take nI (drop (r0 * nI) (data X))) = nI) as Hchunk.
    { rewrite length_take, length_drop. nia. }
    cbn [mbind list_bind]. split.
    { rewrite length_app, IHlen, Hchunk. cbn. lia. }
    intros [|k] i r Hk Hi.
    - injection Hk as ->. cbn [Nat.mul Nat.add].
      rewrite item_app_l by lia.
      unfold item. rewrite !nth_lookup, lookup_take_lt, lookup_drop by done. done.
    - cbn in Hk.
      replace (S k * nI + i) with (length (take nI (drop (r0 * nI) (data X))) + (k * nI + i))
        by (rewrite Hchunk; lia).
      rewrite item_app_r. by apply IH. }
  destruct (Hbind _ Hrows) as [Hlen Hitems]. split.
  { by rewrite Hlen, length_fmap. }
  intros k i r Hk Hi. apply Hitems; [|done]. by rewrite list_lookup_fmap, Hk.
Qed.

Lemma transpose_eq (a : ndarray A) (axes : list nat) :
  is_axes axes (length (shape a)) = true →
  let sh := (λ ax, nth ax (shape a) 0) <$> axes in
  transpose axes a
  = Ok (NDArray sh (tabulate (size_of sh) (λ p,
          item (data a) (ravel (shape a) (transpose_index (shape a) axes (unravel sh p)))))).
Proof. intros Haxes sh. unfold transpose. by rewrite Haxes. Qed.

(** A call of [backward] on arrays of the declared shapes, step by step:
    the result, and the store [mid] that the optimizer is given. *)
Lemma backward_run (self : t A) (X dY : ndarray A) (ids : ndarray Z)
    (sgd : option (Optimizer A)) (N T : nat) :
  backward_shapes self X dY ids N T →
  let K := nO self * nP self in
  let J := nF self * nI self in
  ∃ (v Xf db dW : ndarray A) (Wt : list A) (mid : t A),
    _backprop_padding dY ids self = (Ok (dY, ids), set_d_pad v self) ∧
    (getitem_rows X ids = Ok Xf ∧ length (data Xf) = N * J ∧
     ∀ k i r, data ids !! k = Some r → i < nI self →
       item (data Xf) (k * nI self + i) = item (data X) (picked_row T r * nI self + i)) ∧
    (shape db = [nO self; nP self] ∧ well_formed db ∧
     ∀ q, q < K →
       item (data db) q
       = sadd (item (data (d_b self)) q)
              (ssum (tabulate N (λ n, item (data dY) (n * K + q))))) ∧
    (length Wt = K * J ∧
     ∀ o p f i, o < nO self → p < nP self → f < nF self → i < nI self →
       item Wt (ravel [nO self; nP self; nF self; nI self] [o; p; f; i])
       = item (data (W self)) (ravel [nF self; nO self; nP self; nI self] [f; o; p; i])) ∧
    (shape dW = [nF self; nO self; nP self; nI self] ∧ well_formed dW ∧
     ∀ o p f i, o < nO self → p < nP self → f < nF self → i < nI self →
       item (data dW) (ravel [nF self; nO self; nP self; nI self] [f; o; p; i])
       = sadd (item (data (d_W self))
                 (ravel [nF self; nO self; nP self; nI self] [f; o; p; i]))
              (item (matmul K N J (transpose2 N K (data dY)) (data Xf))
                 (ravel [nO self; nP self; nF self; nI self] [o; p; f; i]))) ∧
    backward X (dY, ids) sgd self
    = (Ok (NDArray [N; nF self; nI self] (matmul N K J (data dY) Wt)), after_sgd sgd mid) ∧
    d_pad mid = v ∧ d_b mid = db ∧ d_W mid = dW ∧
    W mid = (if transposed_is_view self
             then NDArray [nF self; nO self; nP self; nI self]
                    (matmul K N J (transpose2 N K (data dY)) (data Xf))
             else W self) ∧
    b mid = b self ∧ pad mid = pad self.
Proof.
  intros ([HW HwfW] & [HdW HwfdW] & [Hdb Hwfdb] & [Hpad Hwfpad] & [HX HwfX] &
          [HdY HwfdY] & [Hids Hwfids] & Hrange) K J.
  destruct (_backprop_padding_spec self dY ids N Hpad Hwfpad HdY Hids)
    as (v & Hv & Hvshape & Hwfv & Hvitems).
  destruct (getitem_rows_picked X ids T (nI self) HX HwfX Hrange)
    as (Xf & HXf & HXfshape & HXflen & HXfitems).
  destruct (sum_axis_0_spec dY N [nO self; nP self] HdY)
    as (sb & Hsb & Hsbshape & Hwfsb & Hsbitems).
  destruct (iop_suffix sadd (d_b self) sb [] [nO self; nP self])
    as (db & Hdb' & Hdbshape & Hwfdb' & Hdbitems); [done..|].
  unfold well_formed in HwfW, HwfdW, Hwfdb, HwfX, HwfdY, Hwfids.
  rewrite HW, !size_of_cons, size_of_nil, Nat.mul_1_r in HwfW.
  rewrite HdW, !size_of_cons, size_of_nil, Nat.mul_1_r in HwfdW.
  rewrite Hdb, !size_of_cons, size_of_nil, Nat.mul_1_r in Hwfdb.
  rewrite HX, !size_of_cons, size_of_nil, Nat.mul_1_r in HwfX.
  rewrite HdY, !size_of_cons, size_of_nil, Nat.mul_1_r in HwfdY.
  rewrite Hids, !size_of_cons, size_of_nil, Nat.mul_1_r in Hwfids.
  assert (size_of [nO self; nP self; nF self; nI self] = K * J) as Hsize
    by (rewrite !size_of_cons, size_of_nil; subst K J; lia).
  assert (size_of [nF self; nO self; nP self; nI self] = K * J) as Hsize'
    by (rewrite !size_of_cons, size_of_nil; subst K J; lia).
  assert (length (data Xf) = N * J) as HXflen' by (rewrite HXflen, Hwfids; subst J; lia).
  set (Wt := tabulate (size_of [nO self; nP self; nF self; nI self])
               (λ p, item (data (W self))
                       (ravel [nF self; nO self; nP self; nI self]
                          (transpose_index [nF self; nO self; nP self; nI self]
                             [1; 2; 0; 3]
                             (unravel [nO self; nP self; nF self; nI self] p))))).
  set (G := matmul K N J (transpose2 N K (data dY)) (data Xf)).
  set (Gt := tabulate (size_of [nF self; nO self; nP self; nI self])
               (λ p, item G
                       (ravel [nO self; nP self; nF self; nI self]
                          (transpose_index [nO self; nP self; nF self; nI self]
                             [2; 0; 1; 3]
                             (unravel [nF self; nO self; nP self; nI self] p))))).
  destruct (iop_suffix sadd (d_W self)
              (NDArray [nF self; nO self; nP self; nI self] Gt)
              [] [nF self; nO self; nP self; nI self])
    as (dW & HdW' & HdWshape & HwfdW' & HdWitems); [done| |done|].
  { unfold well_formed. by rewrite HdW, HwfdW, !size_of_cons, size_of_nil, Nat.mul_1_r. }
  exists v, Xf, db, dW, Wt.
  eexists (Model (nO self) (nI self) (nF self) (nP self)
             (if transposed_is_view self
              then NDArray [nF self; nO self; nP self; nI self] G else W self)
             (b self) (pad self) dW db v).
  split; [done|]. split; [done|]. split.
  { split; [done|]. split; [done|]. intros q Hq.
    rewrite Hdbitems by (cbn [app]; rewrite !size_of_cons, size_of_nil; subst K; lia).
    rewrite !size_of_cons, size_of_nil, Nat.mul_1_r, Nat.mod_small by done.
    rewrite Hsbitems by (rewrite !size_of_cons, size_of_nil; subst K; lia).
    by rewrite !size_of_cons, size_of_nil, Nat.mul_1_r. }
  split.
  { split; [by subst Wt; rewrite length_tabulate|].
    intros o p f i Ho Hp Hf Hi. subst Wt.
    assert (in_bounds [nO self; nP self; nF self; nI self] [o; p; f; i]) as Hin
      by (by repeat constructor).
    rewrite item_tabulate by by apply ravel_lt.
    by rewrite unravel_ravel. }
  split.
  { split; [done|]. split; [done|]. intros o p f i Ho Hp Hf Hi.
    assert (in_bounds [nF self; nO self; nP self; nI self] [f; o; p; i]) as Hin
      by (by repeat constructor).
    pose proof (ravel_lt _ _ Hin) as Hlt.
    rewrite HdWitems by done. cbn [app data].
    rewrite Nat.mod_small by done. f_equal.
    subst Gt. rewrite item_tabulate by done.
    by rewrite unravel_ravel. }
  split; [|by cbn].
  unfold backward.
  unfold bind_s at 1. rewrite Hv.
  unfold bind_s at 1. unfold gets at 1. cbn [nO nI nF nP set_d_pad].
  unfold bind_s at 1. unfold lift at 1. rewrite HXf.
  unfold bind_s at 1. unfold lift at 1. rewrite HXfshape, Hids. cbn [app head].
  change (default 0 (Some N)) with N.
  rewrite reshape_eq by (rewrite !size_of_cons, size_of_nil, HXflen'; subst J; lia).
  unfold bind_s at 1. unfold lift at 1. rewrite Hsb.
  unfold bind_s at 1. unfold iadd at 1. cbn [d_b set_d_pad]. rewrite Hdb'.
  unfold bind_s at 1. unfold lift at 1. rewrite HdY. cbn [head].
  change (default 0 (Some N)) with N.
  rewrite reshape_eq by (rewrite !size_of_cons, size_of_nil, HwfdY; lia).
  unfold bind_s at 1. unfold gets at 1. cbn [W set_d_b set_d_pad].
  unfold bind_s at 1. unfold gets at 1.
  change (transposed_is_view (set_d_b db (set_d_pad v self)))
    with (transposed_is_view self).
  unfold bind_s at 1. unfold lift at 1.
  rewrite transpose_eq by (by rewrite HW).
  rewrite HW. cbn [fmap list_fmap nth]. fold Wt.
  rewrite reshape_eq
    by (cbn [data]; subst Wt; rewrite length_tabulate, Hsize, !size_of_cons, size_of_nil;
        subst K J; lia).
  cbn [data shape head].
  unfold bind_s at 1. unfold lift at 1.
  change (default 0 (Some N)) with N.
  rewrite reshape_eq by (cbn [data]; rewrite !size_of_cons, size_of_nil, HwfdY; lia).
  unfold bind_s at 1. unfold lift at 1. unfold gemm at 1. cbn [shape data].
  rewrite decide_True by done.
  fold K J.
  unfold bind_s at 1. unfold lift at 1.
  assert (length G = K * J) as HG by (subst G; apply length_matmul).
  destruct (transposed_is_view self) eqn:Hview;
    [ unfold bind_s at 1; unfold modify at 1
    | unfold bind_s at 1; unfold ret_s at 1 ].
  all: unfold bind_s at 1; unfold lift at 1; unfold gemm at 1; cbn [shape data];
    rewrite decide_True by done; fold G.
  1: unfold bind_s at 1; unfold modify at 1.
  2: unfold bind_s at 1; unfold ret_s at 1.
  all: unfold bind_s at 1; unfold lift at 1;
    rewrite reshape_eq by (cbn [data]; by rewrite HG).
  all: unfold bind_s at 1; unfold lift at 1;
    rewrite transpose_eq by done; cbn [shape data fmap list_fmap nth]; fold Gt.
  all: unfold bind_s at 1; unfold iadd at 1; cbn [d_W set_W set_d_b set_d_pad];
    rewrite HdW'.
  all: unfold bind_s at 1; unfold lift; cbn [shape head];
    change (default 0 (Some N)) with N;
    rewrite reshape_eq
      by (cbn [data]; rewrite length_matmul, !size_of_cons, size_of_nil; subst J; lia).
  all: destruct sgd; reflexivity.
Qed.

Lemma flat_pair (K nP t : nat) (nO : nat) :
  t < nO * nP → t / nP < nO ∧ t mod nP < nP ∧ t = t / nP * nP + t mod nP.
Proof.
  intros Ht. assert (nP ≠ 0) as HnP by (intros ->; lia).
  split; [apply Nat.Div0.div_lt_upper_bound; lia|].
  split; [by apply Nat.mod_upper_bound|].
  pose proof (Nat.div_mod_eq t nP). lia.
Qed.

(** X20.  On arrays of the declared shapes, with every index a row of
    [X], [backward] returns: the gradient of the input, of shape
    (N, nF, nI), whose entry [(n, f, i)] is the sum over the pairs [(o, p)]
    of [dY[n, o, p] * W[f, o, p, i]] with the weights as they were before
    the call (the pairs are counted by [t = o * nP + p]). *)
Theorem backward_input_gradient (self : t A) (X dY : ndarray A) (ids : ndarray Z)
    (sgd : option (Optimizer A)) (N T : nat) :
  backward_shapes self X dY ids N T →
  ∃ dXf self',
    backward X (dY, ids) sgd self = (Ok dXf, self') ∧
    shape dXf = [N; nF self; nI self] ∧ well_formed dXf ∧
    ∀ n f i, n < N → f < nF self → i < nI self →
      item (data dXf) ((n * nF self + f) * nI self + i)
      = ssum (tabulate (nO self * nP self) (λ t,
          smul (item (data dY) (n * (nO self * nP self) + t))
               (item (data (W self)) ((f * (nO self * nP self) + t) * nI self + i)))).
Proof.
  intros Hshapes.
  destruct (backward_run self X dY ids sgd N T Hshapes)
    as (v & Xf & db & dW & Wt & mid & _ & _ & _ & [HWtlen HWt] & _ & Hrun & _).
  eexists _, _. split; [exact Hrun|]. cbn [shape data]. split; [done|]. split.
  { unfold well_formed. cbn [shape data].
    rewrite length_matmul, !size_of_cons, size_of_nil. lia. }
  intros n f i Hn Hf Hi.
  set (K := nO self * nP self) in *. set (J := nF self * nI self) in *.
  assert (f * nI self + i < J) as Hcol by (subst J; nia).
  replace ((n * nF self + f) * nI self + i) with (n * J + (f * nI self + i))
    by (subst J; lia).
  unfold matmul. rewrite item_tabulate by nia.
  rewrite div_mul_add, mod_mul_add by done.
  f_equal. apply tabulate_ext. intros t Ht. f_equal.
  destruct (flat_pair K (nP self) t (nO self) Ht) as (Ho & Hp & Heq).
  specialize (HWt (t / nP self) (t mod nP self) f i Ho Hp Hf Hi).
  cbn [ravel] in HWt. rewrite !size_of_cons, size_of_nil in HWt.
  etrans; [|etrans; [exact HWt|]]; f_equal; subst K J; nia.
Qed.

(** X21.  On arrays of the declared shapes, with every index a row of
    [X], [backward] adds to the gradients of the parameters, before the
    optimizer is given the store: to entry [(o, p)] of [d_b] the sum of
    [dY[n, o, p]] over the batch, and to entry [(f, o, p, i)] of [d_W] the
    sum over the batch of [dY[n, o, p] * X[ids[n, f], i]], where a negative
    index picks a row of [X] from the end (the pairs [(o, p)] are counted by
    [t = o * nP + p]). *)
Theorem backward_parameter_gradients (self : t A) (X dY : ndarray A) (ids : ndarray Z)
    (sgd : option (Optimizer A)) (N T : nat) :
  backward_shapes self X dY ids N T →
  ∃ dXf mid,
    backward X (dY, ids) sgd self = (Ok dXf, after_sgd sgd mid) ∧
    (shape (d_b mid) = shape (d_b self) ∧ well_formed (d_b mid) ∧
     ∀ t, t < nO self * nP self →
       item (data (d_b mid)) t
       = sadd (item (data (d_b self)) t)
              (ssum (tabulate N (λ n, item (data dY) (n * (nO self * nP self) + t))))) ∧
    (shape (d_W mid) = shape (d_W self) ∧ well_formed (d_W mid) ∧
     ∀ f t i, f < nF self → t < nO self * nP self → i < nI self →
       item (data (d_W mid)) ((f * (nO self * nP self) + t) * nI self + i)
       = sadd (item (data (d_W self)) ((f * (nO self * nP self) + t) * nI self + i))
              (ssum (tabulate N (λ n,
                 smul (item (data dY) (n * (nO self * nP self) + t))
                      (item (data X)
                         (picked_row T (item (data ids) (n * nF self + f)) * nI self
                          + i)))))).
Proof.
  intros Hshapes.
  destruct (backward_run self X dY ids sgd N T Hshapes)
    as (v & Xf & db & dW & Wt & mid & _ & (_ & HXflen & HXf) & (Hdbsh & Hwfdb & Hdb) & _ &
        (HdWsh & HwfdW & HdW) & Hrun & _ & Hmid_db & Hmid_dW & _).
  destruct Hshapes as (_ & [HdW0 _] & [Hdb0 _] & _ & _ & [HdY HwfdY] & [Hids Hwfids] & _).
  eexists _, mid. split; [exact Hrun|]. rewrite Hmid_db, Hmid_dW, Hdb0, HdW0.
  split; [done|]. split; [done|]. split; [done|].
  intros f t i Hf Ht Hi.
  set (K := nO self * nP self) in *. set (J := nF self * nI self) in *.
  destruct (flat_pair K (nP self) t (nO self) Ht) as (Ho & Hp & Heq).
  specialize (HdW (t / nP self) (t mod nP self) f i Ho Hp Hf Hi).
  cbn [ravel] in HdW. rewrite !size_of_cons, size_of_nil in HdW.
  assert (f * nI self + i < J) as Hcol by (subst J; nia).
  etrans; [|etrans; [exact HdW|]]; [f_equal; subst K J; nia|].
  f_equal; [f_equal; subst K J; nia|].
  replace (t / nP self * (nP self * (nF self * (nI self * 1))) +
           (t mod nP self * (nF self * (nI self * 1)) + (f * (nI self * 1) + (i * 1 + 0))))
    with (t * J + (f * nI self + i)) by (subst K J; nia).
  unfold matmul. rewrite item_tabulate by nia.
  rewrite div_mul_add, mod_mul_add by done.
  f_equal. apply tabulate_ext. intros n Hn.
  unfold transpose2. rewrite item_tabulate by nia.
  rewrite mod_mul_add, div_mul_add by done. f_equal.
  unfold well_formed in Hwfids. rewrite Hids, !size_of_cons, size_of_nil in Hwfids.
  destruct (lookup_lt_is_Some_2 (data ids) (n * nF self + f)) as [r Hr]; [nia|].
  rewrite (item_lookup (A:=Z) _ _ _ Hr).
  replace (n * J + (f * nI self + i)) with ((n * nF self + f) * nI self + i)
    by (subst J; lia).
  by apply HXf.
Qed.

(** X22.  The state of the weights after [backward], before the optimizer
    is given the store.  When the layer has two feature slots or more, and
    two output cells or more ([nO * nP] at least 2), the weights [W] are as
    before the call.  When it has one feature slot, or one output cell, the
    transposed view of [W] is contiguous already: [ascontiguousarray] makes
    no copy, and the buffer that is zeroed and filled with the product of
    [dY] transposed and the picked rows of [X] is the memory of [W], which
    then holds that product. *)
Theorem backward_reuses_W (self : t A) (X dY : ndarray A) (ids : ndarray Z)
    (sgd : option (Optimizer A)) (N T : nat) :
  backward_shapes self X dY ids N T →
  ∃ dXf mid,
    backward X (dY, ids) sgd self = (Ok dXf, after_sgd sgd mid) ∧
    (1 < nF self → 1 < nO self * nP self → W mid = W self) ∧
    (nF self = 1 ∨ nO self * nP self = 1 →
     shape (W mid) = shape (W self) ∧ well_formed (W mid) ∧
     ∀ t f i, t < nO self * nP self → f < nF self → i < nI self →
       item (data (W mid)) ((t * nF self + f) * nI self + i)
       = ssum (tabulate N (λ n,
           smul (item (data dY) (n * (nO self * nP self) + t))
                (item (data X)
                   (picked_row T (item (data ids) (n * nF self + f)) * nI self + i))))).
Proof.
  intros Hshapes.
  destruct (backward_run self X dY ids sgd N T Hshapes)
    as (v & Xf & db & dW & Wt & mid & _ & (_ & HXflen & HXf) & _ & _ & _ & Hrun & _ & _ & _ &
        HmidW & _).
  destruct Hshapes as ([HW0 _] & _ & _ & _ & _ & [HdY HwfdY] & [Hids Hwfids] & _).
  eexists _, mid. split; [exact Hrun|]. rewrite HmidW. unfold transposed_is_view. split.
  - intros HnF HK. rewrite bool_decide_eq_false_2 by lia.
    rewrite bool_decide_eq_false_2
      by (intros [HnO HnP]; rewrite HnO, HnP in HK; cbn in HK; lia).
    done.
  - intros Hone.
    assert (bool_decide (nF self = 1) || bool_decide (nO self = 1 ∧ nP self = 1) = true)
      as ->.
    { destruct Hone as [HnF|HK]; [by rewrite bool_decide_eq_true_2|].
      rewrite (bool_decide_eq_true_2 (nO self = 1 ∧ nP self = 1))
        by (apply Nat.eq_mul_1 in HK; done).
      by rewrite orb_true_r. }
    cbn [shape data]. split; [done|].
    set (K := nO self * nP self) in *. set (J := nF self * nI self) in *.
    split.
    { unfold well_formed. cbn [shape data].
      rewrite length_matmul, !size_of_cons, size_of_nil. subst K J. lia. }
    intros t f i Ht Hf Hi.
    assert (f * nI self + i < J) as Hcol by (subst J; nia).
    replace ((t * nF self + f) * nI self + i) with (t * J + (f * nI self + i))
      by (subst J; lia).
    unfold matmul. rewrite item_tabulate by nia.
    rewrite div_mul_add, mod_mul_add by done.
    f_equal. apply tabulate_ext. intros n Hn.
    unfold transpose2. rewrite item_tabulate by nia.
    rewrite mod_mul_add, div_mul_add by done. f_equal.
    unfold well_formed in Hwfids. rewrite Hids, !size_of_cons, size_of_nil in Hwfids.
    destruct (lookup_lt_is_Some_2 (data ids) (n * nF self + f)) as [r Hr]; [nia|].
    rewrite (item_lookup (A:=Z) _ _ _ Hr).
    replace (n * J + (f * nI self + i)) with ((n * nF self + f) * nI self + i)
      by (subst J; lia).
    by apply HXf.
Qed.

(** X23.  When an index of [ids] is not a row of [X], [backward] raises
    the IndexError of [X[ids]] after the gradient of [pad] has been
    incremented and before anything else is written: [d_pad] holds the
    increment, the other gradients and the weights are as before the call,
    and the optimizer has not been called. *)
Theorem backward_index_error (self : t A) (X dY : ndarray A) (ids : ndarray Z)
    (sgd : option (Optimizer A)) (N T : nat) (rest : list nat) :
  shape (d_pad self) = [1; nF self; nO self; nP self] → well_formed (d_pad self) →
  shape dY = [N; nO self; nP self] →
  shape ids = [N; nF self] →
  shape X = T :: rest →
  Exists (λ i, ¬ (- Z.of_nat T ≤ i < Z.of_nat T)%Z) (data ids) →
  ∃ v,
    backward X (dY, ids) sgd self = (Raise (IndexError None), set_d_pad v self) ∧
    shape v = shape (d_pad self) ∧
    ∀ f o p, f < nF self → o < nO self → p < nP self →
      item (data v) ((f * nO self + o) * nP self + p)
      = sadd (item (data (d_pad self)) ((f * nO self + o) * nP self + p))
             (pad_gradient_sum N (nF self) (nO self) (nP self) (data dY) (data ids) o p).
Proof.
  intros Hpad Hwfpad HdY Hids HX Hout.
  destruct (_backprop_padding_spec self dY ids N Hpad Hwfpad HdY Hids)
    as (v & Hv & Hvshape & Hwfv & Hvitems).
  exists v. split; [|done].
  unfold backward.
  unfold bind_s at 1. rewrite Hv.
  unfold bind_s at 1. unfold gets at 1. cbn [nO nI nF nP set_d_pad].
  unfold bind_s at 1. unfold lift at 1. unfold getitem_rows. rewrite HX.
  by rewrite map_result_row_index_raises.
Qed.

End backward_gradients.

Lemma backward_input_gradient_witness :
  let self : t Z := Model 2 2 2 1
    (NDArray [2; 2; 1; 2] [1; 2; 3; 4; 5; 6; 7; 8]%Z)
    (NDArray [2; 1] [0; 0]%Z)
    (NDArray [1; 2; 2; 1] [9; 9; 9; 9]%Z)
    (allocate [2; 2; 1; 2]) (allocate [2; 1]) (allocate [1; 2; 2; 1]) in
  let X := NDArray [3; 2] [1; 0; 0; 1; 1; 1]%Z in
  let dY := NDArray [2; 2; 1] [1; 10; 100; 1000]%Z in
  let ids := NDArray [2; 2] [-1; 0; -1; -1]%Z in
  ∃ dXf self',
    backward X (dY, ids) None self = (Ok dXf, self') ∧
    shape dXf = [2; 2; 2] ∧ well_formed dXf ∧
    ∀ n f i, n < 2 → f < 2 → i < 2 →
      item (data dXf) ((n * 2 + f) * 2 + i)
      = ssum (tabulate 2 (λ t,
          smul (item (data dY) (n * 2 + t)) (item (data (W self)) ((f * 2 + t) * 2 + i)))).
Proof.
  intros self X dY ids.
  apply (backward_input_gradient self X dY ids None 2 3).
  repeat split; try reflexivity. repeat constructor; lia.
Defined.

Lemma backward_parameter_gradients_witness :
  let self : t Z := Model 2 2 2 1
    (NDArray [2; 2; 1; 2] [1; 2; 3; 4; 5; 6; 7; 8]%Z)
    (NDArray [2; 1] [0; 0]%Z)
    (NDArray [1; 2; 2; 1] [9; 9; 9; 9]%Z)
    (allocate [2; 2; 1; 2]) (allocate [2; 1]) (allocate [1; 2; 2; 1]) in
  let X := NDArray [3; 2] [1; 0; 0; 1; 1; 1]%Z in
  let dY := NDArray [2; 2; 1] [1; 10; 100; 1000]%Z in
  let ids := NDArray [2; 2] [-1; 0; -1; -1]%Z in
  ∃ dXf mid,
    backward X (dY, ids) None self = (Ok dXf, mid) ∧
    (shape (d_b mid) = [2; 1] ∧ well_formed (d_b mid) ∧
     ∀ t, t < 2 →
       item (data (d_b mid)) t
       = sadd (item (data (d_b self)) t)
              (ssum (tabulate 2 (λ n, item (data dY) (n * 2 + t))))) ∧
    (shape (d_W mid) = [2; 2; 1; 2] ∧ well_formed (d_W mid) ∧
     ∀ f t i, f < 2 → t < 2 → i < 2 →
       item (data (d_W mid)) ((f * 2 + t) * 2 + i)
       = sadd (item (data (d_W self)) ((f * 2 + t) * 2 + i))
              (ssum (tabulate 2 (λ n,
                 smul (item (data dY) (n * 2 + t))
                      (item (data X)
                         (picked_row 3 (item (data ids) (n * 2 + f)) * 2 + i)))))).
Proof.
  intros self X dY ids.
  apply (backward_parameter_gradients self X dY ids None 2 3).
  repeat split; try reflexivity. repeat constructor; lia.
Defined.

Lemma backward_reuses_W_witness :
  let self : t Z := Model 2 2 1 1
    (NDArray [1; 2; 1; 2] [1; 2; 3; 4]%Z)
    (NDArray [2; 1] [0; 0]%Z)
    (NDArray [1; 1; 2; 1] [9; 9]%Z)
    (allocate [1; 2; 1; 2]) (allocate [2; 1]) (allocate [1; 1; 2; 1]) in
  let X := NDArray [3; 2] [1; 0; 0; 1; 1; 1]%Z in
  let dY := NDArray [2; 2; 1] [1; 10; 100; 1000]%Z in
  let ids := NDArray [2; 1] [-1; 0]%Z in
  ∃ dXf mid,
    backward X (dY, ids) None self = (Ok dXf, mid) ∧
    (1 < 1 → 1 < 2 → W mid = W self) ∧
    (1 = 1 ∨ 2 = 1 →
     shape (W mid) = [1; 2; 1; 2] ∧ well_formed (W mid) ∧
     ∀ t f i, t < 2 → f < 1 → i < 2 →
       item (data (W mid)) ((t * 1 + f) * 2 + i)
       = ssum (tabulate 2 (λ n,
           smul (item (data dY) (n * 2 + t))
                (item (data X) (picked_row 3 (item (data ids) (n * 1 + f)) * 2 + i))))).
Proof.
  intros self X dY ids.
  apply (backward_reuses_W self X dY ids None 2 3).
  repeat split; try reflexivity. repeat constructor; lia.
Defined.

Lemma backward_index_error_witness :
  let self : t Z := Model 2 2 2 1
    (NDArray [2; 2; 1; 2] [1; 2; 3; 4; 5; 6; 7; 8]%Z)
    (NDArray [2; 1] [0; 0]%Z)
    (NDArray [1; 2; 2; 1] [9; 9; 9; 9]%Z)
    (allocate [2; 2; 1; 2]) (allocate [2; 1]) (allocate [1; 2; 2; 1]) in
  let X := NDArray [3; 2] [1; 0; 0; 1; 1; 1]%Z in
  let dY := NDArray [2; 2; 1] [1; 10; 100; 1000]%Z in
  let ids := NDArray [2; 2] [-1; 0; 5; -1]%Z in
  ∃ v,
    backward X (dY, ids) None self = (Raise (IndexError None), set_d_pad v self) ∧
    shape v = [1; 2; 2; 1] ∧
    ∀ f o p, f < 2 → o < 2 → p < 1 →
      item (data v) ((f * 2 + o) * 1 + p)
      = sadd (item (data (d_pad self)) ((f * 2 + o) * 1 + p))
             (pad_gradient_sum 2 2 2 1 (data dY) (data ids) o p).
Proof.
  intros self X dY ids.
  apply (backward_index_error self X dY ids None 2 3 [2]); try reflexivity.
  apply Exists_cons_tl, Exists_cons_tl, Exists_cons_hd. lia.
Defined.

(** ** [get_col] and [cosine]: round trip and errors *)

Section get_col_round_trip.
Context {Sgd : Type} `{Scalar A}.

(** X24.  Let [layer] be [get_col(idx)] and [X] a matrix.  When [X] has
    more than [idx] columns, the gradient that the callback returns for
    [y] (one entry for each row of [X]) has [y] as its column [idx]: the
    forward pass on that gradient returns [y] itself.  When [X] has [idx]
    columns or fewer, the forward pass raises IndexError, without the
    message of the catalog. *)
Theorem get_col_round_trip (idx : Z) (layer : Layer Sgd (ndarray A) (ndarray A))
    (X : ndarray A) (r c : nat) (drop : Q) :
  get_col idx = Ok layer →
  shape X = [r; c] → well_formed X →
  (Z.to_nat idx < c →
   ∃ output backward,
     layer X drop = Ok (output, backward) ∧
     ∀ (y : ndarray A) (sgd : option Sgd), shape y = [r] → well_formed y →
       ∃ dX backward',
         backward y sgd = Ok dX ∧ layer dX drop = Ok (y, backward')) ∧
  (c ≤ Z.to_nat idx → layer X drop = Raise (IndexError None)).
Proof.
  unfold get_col. destruct (decide (idx < 0)%Z) as [Hneg|Hpos]; [done|].
  intros [= <-] Hshape Hwf. unfold layerize.
  set (k := Z.to_nat idx) in *. split.
  - intros Hidx. rewrite (getitem_col_matrix X r c k) by done. cbn [bind].
    eexists _, _. split; [reflexivity|].
    intros y sgd Hy Hwfy. unfold iadd_col.
    assert (well_formed (allocate (A:=A) (shape X))) as Hwf0.
    { unfold well_formed, allocate. cbn [shape data]. by rewrite length_replicate. }
    rewrite (getitem_col_matrix _ r c k) by done. cbn [bind].
    unfold iop. cbn [shape data]. rewrite Hy, decide_True by apply broadcast_shapes_same.
    cbn [bind]. unfold setitem_col, allocate. cbn [shape data]. rewrite Hshape.
    eexists _, _. split; [reflexivity|].
    unfold well_formed in Hwfy. rewrite Hy, size_of_cons, size_of_nil in Hwfy.
    rewrite getitem_col_matrix with (r := r) (c := c); [| done | | done].
    2:{ unfold well_formed. cbn [shape data]. by rewrite length_imap, length_replicate. }
    cbn [bind data]. do 2 f_equal. destruct y as [shy daty]. cbn [shape data] in *.
    subst shy. f_equal. apply list_eq. intros i.
    destruct (decide (i < r)) as [Hi|Hi].
    2:{ rewrite !lookup_ge_None_2; [done|lia|rewrite length_tabulate; lia]. }
    rewrite lookup_tabulate by done.
    destruct (lookup_lt_is_Some_2 daty i) as [yi Hyi]; [lia|]. rewrite Hyi. f_equal.
    assert (i * c + k < r * c) by nia.
    rewrite item_imap by (rewrite length_replicate, !size_of_cons, size_of_nil; lia).
    rewrite size_of_nil, Nat.div_1_r, Nat.mod_1_r, !Nat.mul_1_r, Nat.add_0_r.
    rewrite mod_mul_add, div_mul_add, decide_True by done.
    rewrite item_imap by (rewrite length_tabulate; lia).
    rewrite item_tabulate, item_replicate, bindex_same
      by (rewrite ?size_of_cons, ?size_of_nil; lia).
    rewrite sadd_0_l. by apply item_lookup.
  - intros Hidx. unfold getitem_col. rewrite Hshape. by rewrite decide_False by lia.
Qed.

End get_col_round_trip.

(** X25.  [cosine] raises only the ValueError of [vec1.dot(vec2)], and it
    does so exactly when the two vectors have different lengths and
    neither norm compares equal to 0.0: a vector of norm zero makes the
    result 0 before the lengths are looked at. *)
Theorem cosine_raises (a b : list float) (e : exn) :
  cosine a b = Raise e ↔
  e = ValueError ∧ length a ≠ length b ∧
  (linalg_norm a =? 0)%float = false ∧ (linalg_norm b =? 0)%float = false.
Proof.
  unfold cosine, dot.
  destruct (linalg_norm a =? 0)%float, (linalg_norm b =? 0)%float; cbn [orb];
    try (split; [done|by intros (_ & _ & ? & ?)]).
  destruct (decide (length a = length b)) as [Hlen|Hlen]; cbn [bind].
  - split; [done|]. by intros (_ & ? & _).
  - split; [by intros [= <-]|]. by intros (-> & _).
Qed.

Lemma get_col_round_trip_witness :
  let X := NDArray [2; 3] [1; 2; 3; 4; 5; 6]%Z in
  ∃ layer,
    get_col (Sgd:=unit) 1 = Ok layer ∧
    (1 < 3 →
     ∃ output backward,
       layer X 0%Q = Ok (output, backward) ∧
       ∀ (y : ndarray Z) (sgd : option unit), shape y = [2] → well_formed y →
         ∃ dX backward',
           backward y sgd = Ok dX ∧ layer dX 0%Q = Ok (y, backward')) ∧
    (3 ≤ 1 → layer X 0%Q = Raise (IndexError None)).
Proof.
  intros X. eexists. split; [reflexivity|].
  apply (get_col_round_trip (Sgd:=unit) 1 _ X 2 3 0%Q); reflexivity.
Defined.

(** ** [_RandomWords.next]: the cache *)

Section sampler_cache.
Context `{NumpyRandom G}.

(** With indices in the cache, [next] pops the last of them and does not
    touch the generator. *)
Lemma next_pops (ws : list string) (ps : list R) (cache : list nat) (i : nat)
    (w : string) (g : G) :
  ws !! i = Some w →
  next ({| words := ws; probs := ps; _cache := cache ++ [i] |}, g)
  = (Ok w, ({| words := ws; probs := ps; _cache := cache |}, g)).
Proof.
  intros Hw. unfold next. unfold bind_s at 1. unfold gets at 1. cbn [fst _cache].
  unfold bind_s at 1. rewrite decide_False by (by destruct cache).
  unfold ret_s at 1. unfold bind_s at 1. unfold gets at 1. cbn [fst _cache].
  rewrite last_snoc. unfold bind_s at 1. unfold modify. cbn [words probs _cache].
  rewrite Hw, removelast_last. done.
Qed.

Lemma next_calls_drain (ws : list string) (ps : list R) (cache : list nat) :
  Forall (λ i, i < length ws) cache →
  ∀ g, ∃ out,
    next_calls (length cache) ({| words := ws; probs := ps; _cache := cache |}, g)
    = (Ok out, ({| words := ws; probs := ps; _cache := [] |}, g)) ∧
    Forall2 (λ i w, ws !! i = Some w) (reverse cache) out.
Proof.
  induction cache as [|i cache IH] using rev_ind; intros Hall g.
  { exists []. split; [done|]. constructor. }
  apply Forall_app in Hall as [Hcache Hi]. rewrite Forall_singleton in Hi.
  destruct (lookup_lt_is_Some_2 ws i Hi) as [w Hw].
  destruct (IH Hcache g) as (out & Hrun & Hout).
  exists (w :: out). rewrite length_app, Nat.add_1_r. cbn [next_calls].
  unfold bind_s at 1. rewrite (next_pops ws ps cache i w g Hw).
  unfold bind_s at 1. rewrite Hrun. unfold ret_s. split; [done|].
  rewrite reverse_app. cbn. by constructor.
Qed.

(** With an empty cache, [next] first fills it with the indices drawn. *)
Lemma next_refill (ws : list string) (ps : list R) (drawn : list nat) (g g' : G) :
  drawn ≠ [] →
  random_choice (length ws) 10000 ps g = (Ok drawn, g') →
  next ({| words := ws; probs := ps; _cache := [] |}, g)
  = next ({| words := ws; probs := ps; _cache := drawn |}, g').
Proof.
  intros Hne Hdraw.
  assert (∀ st : _RandomWords * G,
            next st
            = bind_s (if decide (_cache st.1 = []) then
                        drawn <~ draw_result
                                   (random_choice (length (words st.1)) 10000 (probs st.1));;
                        modify (λ '(self, g),
                          ({| words := words self; probs := probs self;
                              _cache := _cache self ++ drawn |}, g))
                      else ret_s tt)
                (λ _, self <~ gets fst;;
                      match last (_cache self) with
                      | None => lift (Raise (IndexError None))
                      | Some index =>
                          _ <~ modify (λ '(self, g),
                                 ({| words := words self; probs := probs self;
                                     _cache := removelast (_cache self) |}, g));;
                          match words self !! index with
                          | Some word => ret_s word
                          | None => lift (Raise (IndexError None))
                          end
                      end) st) as Hnext.
  { by intros [self g0]. }
  rewrite !Hnext. cbn [fst _cache words probs].
  rewrite decide_True by done. rewrite decide_False by done.
  unfold bind_s at 1. unfold bind_s at 1. unfold draw_result. rewrite Hdraw.
  unfold modify at 1. unfold bind_s at 2. unfold ret_s at 2. done.
Qed.

Lemma next_calls_refill (ws : list string) (ps : list R) (drawn : list nat) (g g' : G)
    (n : nat) :
  0 < n → drawn ≠ [] →
  random_choice (length ws) 10000 ps g = (Ok drawn, g') →
  next_calls n ({| words := ws; probs := ps; _cache := [] |}, g)
  = next_calls n ({| words := ws; probs := ps; _cache := drawn |}, g').
Proof.
  intros Hn Hne Hdraw. destruct n as [|n]; [lia|]. cbn [next_calls].
  unfold bind_s at 1 3. by rewrite (next_refill ws ps drawn g g').
Qed.

(** X26.  A sampler built from a vocabulary with at least one lexeme of
    nonzero smoothed probability asks the generator once for 10,000
    indices, and its next 10,000 calls of [next] return the words at these
    indices from the last drawn to the first, without another draw; after
    them the cache is empty and the sampler is as it was built, so the next
    call draws again. *)
Theorem next_calls_one_draw {A} (vocab : Vocab A) (g : G) :
  nonzero_lexemes vocab ≠ [] →
  let random_words := _RandomWords_init vocab in
  ∃ drawn g' out,
    random_choice (length (words random_words)) 10000 (probs random_words) g
      = (Ok drawn, g') ∧
    length drawn = 10000 ∧
    next_calls 10000 (random_words, g) = (Ok out, (random_words, g')) ∧
    Forall2 (λ i w, words random_words !! i = Some w) (reverse drawn) out.
Proof.
  intros Hvocab random_words.
  assert (length (probs random_words) = length (words random_words)) as Hlen.
  { subst random_words. unfold _RandomWords_init. cbn [words probs].
    by rewrite !length_fmap, !length_take, !length_fmap. }
  assert (0 < length (words random_words)) as Hne.
  { subst random_words. unfold _RandomWords_init. cbn [words].
    fold (nonzero_lexemes vocab). rewrite length_take, length_fmap.
    pose proof cache_size_pos. destruct (nonzero_lexemes vocab); [done|]. cbn. lia. }
  destruct (probs_distribution vocab Hvocab) as [Hsum Hpos].
  destruct (random_choice_ok (length (words random_words)) 10000 (probs random_words) g
              Hne Hlen Hsum Hpos) as (drawn & Hdrawn & Hsize & Hall).
  destruct (random_choice _ _ _ g) as [r g'] eqn:Hchoice. cbn [fst] in Hdrawn. subst r.
  assert (drawn ≠ []) as Hdrawn_ne.
  { intros ->. pose proof cache_size_pos. cbn in Hsize. lia. }
  destruct (next_calls_drain (words random_words) (probs random_words) drawn Hall g')
    as (out & Hrun & Hout).
  exists drawn, g', out. split; [done|]. split; [done|]. split; [|done].
  etrans; [apply (next_calls_refill (words random_words) (probs random_words) drawn g g');
           [apply cache_size_pos|done|done]|].
  rewrite <- Hsize at 1. exact Hrun.
Qed.

End sampler_cache.

Lemma next_calls_one_draw_witness :
  let vocab : Vocab Z :=
    {| lexemes := [ {| lex_text := "the"%string; orth := 1; rank := 0; prob := -1 |} ];
       vectors := {| name := None; vectors_data := NDArray [0; 0] []; key2row := ∅ |} |} in
  let random_words := _RandomWords_init vocab in
  ∃ drawn g' out,
    random_choice (length (words random_words)) 10000 (probs random_words) 0
      = (Ok drawn, g') ∧
    length drawn = 10000 ∧
    next_calls 10000 (random_words, 0) = (Ok out, (random_words, g')) ∧
    Forall2 (λ i w, words random_words !! i = Some w) (reverse drawn) out.
Proof.
  intros vocab random_words. apply (next_calls_one_draw vocab 0). done.
Defined.

(** ** [_preprocess_doc] and [preprocess_doc] *)

Section preprocess_doc_properties.
Context {Sgd V : Type} `{Scalar A}.

Lemma preprocess_keys (to_array : Doc V → ndarray N) (rest : list nat)
    (docs : list (Doc V)) :
  Forall (λ doc, shape (to_array doc) = length (tokens doc) :: rest) docs →
  map_result shape0 (to_array <$> docs) = Ok ((λ doc, length (tokens doc)) <$> docs) ∧
  sum_list ((λ doc, length (tokens doc)) <$> docs) = token_count docs ∧
  (docs ≠ [] →
   np_concatenate (to_array <$> docs)
   = Ok (NDArray (token_count docs :: rest) (docs ≫= λ doc, data (to_array doc)))).
Proof.
  intros Hall. split; [|split].
  - induction Hall as [|doc docs Hdoc _ IH]; [done|].
    cbn. unfold shape0 at 1. rewrite Hdoc. cbn. by rewrite IH.
  - clear Hall. induction docs as [|doc docs IH]; [done|]. cbn. by rewrite IH.
  - intros Hne.
    assert (Forall (λ x, tail (shape x) = rest ∧ shape x ≠ []) (to_array <$> docs)) as Hrest.
    { apply Forall_fmap. eapply Forall_impl; [exact Hall|]. intros doc Hdoc. cbn.
      by rewrite Hdoc. }
    assert (sum_list ((λ x, default 0 (head (shape x))) <$> (to_array <$> docs))
            = token_count docs) as Hrows.
    { clear Hne Hrest. induction Hall as [|doc docs Hdoc _ IH]; [done|].
      cbn. rewrite Hdoc. cbn. unfold token_count in IH. by rewrite IH. }
    assert ((to_array <$> docs) ≫= data = docs ≫= λ doc, data (to_array doc)) as Hdata.
    { clear. induction docs as [|doc docs IH]; [done|]. cbn. by rewrite IH. }
    unfold np_concatenate. rewrite <- Hrows, <- Hdata.
    destruct docs as [|doc0 docs0]; [done|].
    pose proof (Forall_inv Hall) as Hdoc0. cbn beta in Hdoc0.
    cbn [fmap list_fmap] in *. rewrite Hdoc0. by rewrite decide_True.
Qed.

(** X27.  Let [to_array] give, for every document of the batch, an array
    with one row for each token, all of one shape otherwise.  On an empty
    batch [_preprocess_doc] and [preprocess_doc] raise the ValueError of
    [concatenate].  On any other batch they return the keys of all the
    documents in one array with one row for each token of the batch, the
    lengths of the documents, which add up to that number of rows, and the
    values: zeros in the shape of the keys for [_preprocess_doc], and one 1
    for each row of the keys for [preprocess_doc]; and no callback. *)
Theorem preprocess_doc_lengths (to_array : Doc V → ndarray N) (rest : list nat)
    (docs : list (Doc V)) (drop : Q) :
  Forall (λ doc, shape (to_array doc) = length (tokens doc) :: rest) docs →
  let keys := NDArray (token_count docs :: rest) (docs ≫= λ doc, data (to_array doc)) in
  let lengths := (λ doc, length (tokens doc)) <$> docs in
  sum_list lengths = token_count docs ∧
  (docs = [] →
   _preprocess_doc (Sgd:=Sgd) (A:=A) to_array docs drop = Raise ValueError ∧
   preprocess_doc (Sgd:=Sgd) (A:=A) to_array docs drop = Raise ValueError) ∧
  (docs ≠ [] →
   _preprocess_doc (Sgd:=Sgd) to_array docs drop
   = Ok ((keys, allocate (token_count docs :: rest), NDArray [length docs] lengths), None) ∧
   preprocess_doc (Sgd:=Sgd) to_array docs drop
   = Ok ((keys, NDArray [token_count docs] (replicate (token_count docs) s1),
          NDArray [length docs] lengths), None)).
Proof.
  intros Hall keys lengths.
  destruct (preprocess_keys to_array rest docs Hall) as (Hlengths & Hsum & Hkeys).
  split; [done|]. split.
  - by intros ->.
  - intros Hne. unfold _preprocess_doc, preprocess_doc.
    rewrite Hlengths, (Hkeys Hne). cbn [bind shape]. rewrite length_fmap.
    split; [done|]. unfold shape0. cbn [shape bind]. do 3 f_equal.
    unfold amap, allocate. cbn [shape data]. f_equal.
    rewrite size_of_cons, size_of_nil, Nat.mul_1_r. by rewrite fmap_replicate, sadd_0_l.
Qed.

End preprocess_doc_properties.

Lemma preprocess_doc_lengths_witness :
  let docs := [ {| doc_vocab := tt;
                   tokens := [ {| text := "A"%string; whitespace_ := " "%string |};
                               {| text := "b"%string; whitespace_ := EmptyString |} ] |};
                {| doc_vocab := tt; tokens := [] |} ] in
  let to_array := λ doc : Doc (),
    NDArray [length (tokens doc)] ((λ _, 5%N) <$> tokens doc) in
  let keys := NDArray [2] [5%N; 5%N] in
  sum_list [2; 0] = 2 ∧
  (docs = [] →
   _preprocess_doc (Sgd:=unit) (A:=Z) to_array docs 0%Q = Raise ValueError ∧
   preprocess_doc (Sgd:=unit) (A:=Z) to_array docs 0%Q = Raise ValueError) ∧
  (docs ≠ [] →
   _preprocess_doc (Sgd:=unit) to_array docs 0%Q
   = Ok ((keys, NDArray [2] [0; 0]%Z, NDArray [2] [2; 0]), None) ∧
   preprocess_doc (Sgd:=unit) to_array docs 0%Q
   = Ok ((keys, NDArray [2] [1; 1]%Z, NDArray [2] [2; 0]), None)).
Proof.
  intros docs to_array keys.
  refine (preprocess_doc_lengths (Sgd:=unit) (A:=Z) to_array [] docs 0%Q _).
  by repeat constructor.
Defined.

